(** * Particle-field simulation engine: a shallow embedding

    The TypeScript sources model every quantity as a JavaScript [number].
    Throughout this development a finite [number] is a real ([R]) and the
    arithmetic is exact; integer-valued quantities (lattice coordinates,
    table indices, array lengths) are [Z] or [nat].  Array reads are partial
    ([option]): an out-of-range read is [None].  A division whose divisor is
    zero, the only way the modelled code can leave the finite numbers, is
    [None] as well wherever a claim is about it. *)

From Stdlib Require Import Reals Lra Lia ZArith List Bool Psatz.
From stdpp Require Import base option list gmap.

Local Open Scope R_scope.

(** ** JavaScript and GLSL numeric helpers *)

Module JS.

(** [Math.floor] on a finite number. *)
Definition floor (x : R) : Z := Zfloor x.

(** Truncation toward zero, the integer quotient behind the [%] operator. *)
Definition trunc (x : R) : Z :=
  if Rle_dec 0 x then Zfloor x else Zceil x.

(** [a % n] for finite [a] and non-zero [n]: the result has the sign of the
    dividend. *)
Definition rem (a n : R) : R := a - n * IZR (trunc (a / n)).

(** The idiom [((x % 1) + 1) % 1] used to wrap into the unit tile. *)
Definition wrap01 (x : R) : R := rem (rem x 1 + 1) 1.

(** [Math.min] of four numbers. *)
Definition min4 (a b c d : R) : R := Rmin (Rmin (Rmin a b) c) d.

(** Checked division: [None] stands for the non-finite result (NaN or an
    infinity) that JavaScript produces when the divisor is zero. *)
Definition div (a b : R) : option R :=
  if Req_dec_T b 0 then None else Some (a / b).

(** The [smoothstep] helper declared in the scene components. *)
Definition smoothstep (edge0 edge1 x : R) : R :=
  let t := Rmax 0 (Rmin 1 ((x - edge0) / (edge1 - edge0))) in
  t * t * (3 - 2 * t).

(** GLSL [fract]. *)
Definition fract (x : R) : R := x - IZR (Zfloor x).

(** Reading [a[i]] with an integer-valued index. *)
Definition get {A : Type} (a : list A) (i : Z) : option A :=
  if (0 <=? i)%Z then a !! Z.to_nat i else None.

End JS.

(** ** Deterministic noise field ([class SimplexNoise]) *)

Module Noise.

Record Grad := mkGrad { gx : R; gy : R; gz : R }.

Definition grad3 : list Grad :=
  [ mkGrad 1 1 0; mkGrad (-1) 1 0; mkGrad 1 (-1) 0; mkGrad (-1) (-1) 0;
    mkGrad 1 0 1; mkGrad (-1) 0 1; mkGrad 1 0 (-1); mkGrad (-1) 0 (-1);
    mkGrad 0 1 1; mkGrad 0 (-1) 1; mkGrad 0 1 (-1); mkGrad 0 (-1) (-1) ].

(** An instance: the two private tables. *)
Record SimplexNoise := mkNoise { perm : list Z; gradP : list Grad }.

(** Storing into a [Uint8Array]: [undefined] becomes 0, an integer wraps
    modulo 256; a store outside the array is ignored. *)
Definition toUint8 (v : option Z) : Z :=
  match v with Some n => (n mod 256)%Z | None => 0%Z end.

Definition u8set (p : list Z) (i : Z) (v : option Z) : list Z :=
  if ((0 <=? i) && (i <? Z.of_nat (length p)))%Z
  then <[Z.to_nat i := toUint8 v]> p else p.

(** [[p[i], p[j]] = [p[j], p[i]]]: both reads happen first, then [p[i]] and
    [p[j]] are stored in that order. *)
Definition swap (p : list Z) (i j : Z) : list Z :=
  let pj := JS.get p j in
  let pi := JS.get p i in
  u8set (u8set p i pj) j pi.

(** The seed-based shuffle, [for (let i = 255; i > 0; i--)].  The seed is an
    integer (the scenes construct [new SimplexNoise(12345)]); [Z.rem] is the
    [%] of JavaScript on integers, exact while the product stays below
    2^53.  Seeds of any other kind are covered by [NoiseClass.construct],
    which leaves the arithmetic of the seed open. *)
Fixpoint shuffle (i : nat) (s : Z) (p : list Z) : list Z :=
  match i with
  | O => p
  | S i' =>
      let s' := Z.rem (s * 16807) 2147483647 in
      let j := Z.rem s' (Z.of_nat i + 1) in
      shuffle i' s' (swap p (Z.of_nat i) j)
  end.

Definition identity256 : list Z := map Z.of_nat (seq 0 256).

Definition permOf (p : list Z) : list Z :=
  map (fun i => toUint8 (JS.get p (Z.land (Z.of_nat i) 255))) (seq 0 512).

Definition gradOf (v : Z) : Grad :=
  nth (Z.to_nat (Z.rem v 12)) grad3 (mkGrad 0 0 0).

(** [constructor(seed)]. *)
Definition new (seed : Z) : SimplexNoise :=
  let p := shuffle 255 seed identity256 in
  let perm := permOf p in
  mkNoise perm (map gradOf perm).

(** The table walk [this.gradP[ii + i1 + this.perm[jj + j1 + this.perm[kk + k1]]]]. *)
Definition gradAt (self : SimplexNoise) (ii jj kk i1 j1 k1 : Z) : option Grad :=
  pk ← JS.get (perm self) (kk + k1)%Z;
  pj ← JS.get (perm self) (jj + j1 + pk)%Z;
  JS.get (gradP self) (ii + i1 + pj)%Z.

(** The six orderings of the simplex: [(i1, j1, k1, i2, j2, k2)]. *)
Definition simplexOffsets (x0 y0 z0 : R) : Z * Z * Z * Z * Z * Z :=
  if Rge_dec x0 y0 then
    if Rge_dec y0 z0 then (1, 0, 0, 1, 1, 0)%Z
    else if Rge_dec x0 z0 then (1, 0, 0, 1, 0, 1)%Z
    else (0, 0, 1, 1, 0, 1)%Z
  else
    if Rlt_dec y0 z0 then (0, 0, 1, 0, 1, 1)%Z
    else if Rlt_dec x0 z0 then (0, 1, 0, 0, 1, 1)%Z
    else (0, 1, 0, 1, 1, 0)%Z.

(** One corner: [t = 0.6 - x*x - y*y - z*z; if (t >= 0) { t *= t; n = t * t * dot }]. *)
Definition corner (g : Grad) (x y z : R) : R :=
  let t := 0.6 - x * x - y * y - z * z in
  if Rge_dec t 0 then
    let t2 := t * t in t2 * t2 * (gx g * x + gy g * y + gz g * z)
  else 0.

(** [noise3D(x, y, z)]. *)
Definition noise3D (self : SimplexNoise) (x y z : R) : option R :=
  let F3 := 1 / 3 in
  let G3 := 1 / 6 in
  let s := (x + y + z) * F3 in
  let i := JS.floor (x + s) in
  let j := JS.floor (y + s) in
  let k := JS.floor (z + s) in
  let t := (IZR i + IZR j + IZR k) * G3 in
  let X0 := IZR i - t in
  let Y0 := IZR j - t in
  let Z0 := IZR k - t in
  let x0 := x - X0 in
  let y0 := y - Y0 in
  let z0 := z - Z0 in
  let '(i1, j1, k1, i2, j2, k2) := simplexOffsets x0 y0 z0 in
  let x1 := x0 - IZR i1 + G3 in
  let y1 := y0 - IZR j1 + G3 in
  let z1 := z0 - IZR k1 + G3 in
  let x2 := x0 - IZR i2 + 2 * G3 in
  let y2 := y0 - IZR j2 + 2 * G3 in
  let z2 := z0 - IZR k2 + 2 * G3 in
  let x3 := x0 - 1 + 3 * G3 in
  let y3 := y0 - 1 + 3 * G3 in
  let z3 := z0 - 1 + 3 * G3 in
  let ii := Z.land i 255 in
  let jj := Z.land j 255 in
  let kk := Z.land k 255 in
  gi0 ← gradAt self ii jj kk 0 0 0;
  gi1 ← gradAt self ii jj kk i1 j1 k1;
  gi2 ← gradAt self ii jj kk i2 j2 k2;
  gi3 ← gradAt self ii jj kk 1 1 1;
  let n0 := corner gi0 x0 y0 z0 in
  let n1 := corner gi1 x1 y1 z1 in
  let n2 := corner gi2 x2 y2 z2 in
  let n3 := corner gi3 x3 y3 z3 in
  Some (32 * (n0 + n1 + n2 + n3)).

End Noise.

(** ** Spatial hash index ([class SpatialHash])

    The grid is a [Map] from the string [`${cx},${cy}`] to an array of
    indices.  Two integer pairs print to the same string exactly when they
    are equal, so the key is the pair itself. *)

Module SpatialHash.

Record t := mk { cellSize : R; grid : gmap (Z * Z) (list nat) }.

Definition new (cellSize : R) : t := mk cellSize ∅.

Definition clear (h : t) : t := mk (cellSize h) ∅.

Definition getKey (h : t) (x y : R) : Z * Z :=
  (JS.floor (x / cellSize h), JS.floor (y / cellSize h)).

(** [insert(index, x, y)]: create the cell if the key is new, then push. *)
Definition insert (h : t) (index : nat) (x y : R) : t :=
  let key := getKey h x y in
  let g := match grid h !! key with
           | Some _ => grid h
           | None => <[key := []]> (grid h)
           end in
  mk (cellSize h) (<[key := default [] (g !! key) ++ [index]]> g).

(** The nine keys visited by the two nested loops, [dx] outermost. *)
Definition offsets : list (Z * Z) :=
  [ (-1, -1); (-1, 0); (-1, 1); (0, -1); (0, 0); (0, 1); (1, -1); (1, 0); (1, 1) ]%Z.

Definition getPotentialNeighbors (h : t) (x y : R) : list nat :=
  let cx := JS.floor (x / cellSize h) in
  let cy := JS.floor (y / cellSize h) in
  foldl (fun neighbors d =>
           match grid h !! ((cx + fst d)%Z, (cy + snd d)%Z) with
           | Some cell => neighbors ++ cell
           | None => neighbors
           end) [] offsets.

(** A sequence of [insert] calls, oldest first. *)
Definition insertAll (h : t) (calls : list (nat * R * R)) : t :=
  foldl (fun h c => insert h (fst (fst c)) (snd (fst c)) (snd c)) h calls.

End SpatialHash.

(** ** Connectivity graph builder

    The "find connections" part of [frame] is the same text in the
    constellation and the sky scenes; it is stated once, over the particle
    type, its position and its boundary fade. *)

Record Connection := mkConnection { conn_i : nat; conn_j : nat; conn_alpha : R }.

Section Connectivity.

Variable Particle : Type.
Variables posX posY : Particle -> R.
(** The endpoint's boundary-fade value ([pAlpha], [qAlpha]). *)
Variable fade : Particle -> R.
Variable connectionDistance : R.
Variable maxConnections : nat.

(** Rebuild of the index: [clear()], then one [insert] per particle. *)
Definition rebuildHash (h : SpatialHash.t) (particles : list Particle) : SpatialHash.t :=
  SpatialHash.insertAll (SpatialHash.clear h)
    (imap (fun i p => (i, posX p, posY p)) particles).

Definition distance (p q : Particle) : R :=
  let dx := posX q - posX p in
  let dy := posY q - posY p in
  sqrt (dx * dx + dy * dy).

(** The inner loop [for (const j of neighbors)].  The result is the
    connection list, the [seen] set, and whether the loop left through
    [break]; [None] is the [TypeError] of reading a field of
    [particles[j]] when it is [undefined]. *)
Fixpoint scanNeighbors (particles : list Particle) (i : nat) (p : Particle)
    (neighbors : list nat) (connections : list Connection) (seen : gset (nat * nat))
    : option (list Connection * gset (nat * nat)) :=
  match neighbors with
  | [] => Some (connections, seen)
  | j :: rest =>
      if (j <=? i)%nat then scanNeighbors particles i p rest connections seen
      else if decide ((i, j) ∈ seen) then scanNeighbors particles i p rest connections seen
      else
        let seen' := {[ (i, j) ]} ∪ seen in
        match particles !! j with
        | None => None
        | Some q =>
            let dist := distance p q in
            if Rlt_dec dist connectionDistance then
              let alpha := 1 - dist / connectionDistance in
              let connections' :=
                connections ++ [mkConnection i j (alpha * Rmin (fade p) (fade q))] in
              if (maxConnections <=? length connections')%nat
              then Some (connections', seen')
              else scanNeighbors particles i p rest connections' seen'
            else scanNeighbors particles i p rest connections seen'
        end
  end.

(** The outer loop [for (let i = 0; i < particles.length; i++)], over the
    indices still to visit. *)
Fixpoint scanParticles (h : SpatialHash.t) (particles : list Particle) (todo : list nat)
    (connections : list Connection) (seen : gset (nat * nat)) : option (list Connection) :=
  match todo with
  | [] => Some connections
  | i :: rest =>
      match particles !! i with
      | None => None
      | Some p =>
          let neighbors := SpatialHash.getPotentialNeighbors h (posX p) (posY p) in
          match scanNeighbors particles i p neighbors connections seen with
          | None => None
          | Some (connections', seen') =>
              if (maxConnections <=? length connections')%nat then Some connections'
              else scanParticles h particles rest connections' seen'
          end
      end
  end.

(** Rebuild the index, then find the connections of one frame. *)
Definition findConnections (h : SpatialHash.t) (particles : list Particle)
    : option (list Connection) :=
  scanParticles (rebuildHash h particles) particles (seq 0 (length particles)) [] ∅.

End Connectivity.

(** Comparisons of numbers as decidable propositions, so that a JavaScript
    condition reads [if decide (a < b ∧ c > d)]. *)
#[global] Instance Rlt_decision (x y : R) : Decision (x < y) := Rlt_dec x y.
#[global] Instance Rle_decision (x y : R) : Decision (x <= y) := Rle_dec x y.
#[global] Instance Rgt_decision (x y : R) : Decision (x > y) := Rgt_dec x y.
#[global] Instance Rge_decision (x y : R) : Decision (x >= y) := Rge_dec x y.

(** The four [if] statements that wrap a position at the domain edge, shared
    by the scenes: [if (x < lo) x = hi; if (x > hi) x = lo]. *)
Definition wrapCoord (lo hi x : R) : R :=
  let x1 := if decide (x < lo) then hi else x in
  if decide (x1 > hi) then lo else x1.

(** ** Constellation scene ([ConstellationNetwork]) *)

Module Constellation.

Record Particle := mkParticle {
  x : R; y : R; vx : R; vy : R;
  baseVx : R; baseVy : R; homeX : R; homeY : R }.

Record Config := mkConfig {
  particleCount : nat;
  connectionDistance : R;
  maxConnections : nat;
  pointSize : R;
  driftSpeed : R;
  mouseRadius : R;
  mouseStrength : R }.

Definition config (isMobile prefersReducedMotion : bool) : Config :=
  mkConfig
    (if isMobile then 80 else 120)
    (if isMobile then 0.12 else 0.1)
    (if isMobile then 1000 else 2000)
    (if prefersReducedMotion then 3 else 4)
    (if prefersReducedMotion then 0.00005 else 0.0001)
    0.18
    0.00012.

Definition EDGE_MARGIN : R := 0.05.
Definition DAMPING : R := 0.992.
Definition MIN_DISTANCE : R := 0.04.
Definition homeForce : R := 0.0003.

(** Mouse gravity with repulsion zone: the acceleration [(ax, ay)]. *)
Definition mouseGravity (cfg : Config) (mouseActive : bool) (mouseX mouseY : R)
    (p : Particle) : R * R :=
  if mouseActive then
    let dx := mouseX - x p in
    let dy := mouseY - y p in
    let dist := sqrt (dx * dx + dy * dy) in
    if decide (dist < mouseRadius cfg ∧ dist > 0.01) then
      if decide (dist < MIN_DISTANCE) then
        let repelStrength := (1 - dist / MIN_DISTANCE) * mouseStrength cfg * 8 in
        (0 - (dx / dist) * repelStrength, 0 - (dy / dist) * repelStrength)
      else
        let influence := (1 - dist / mouseRadius cfg) * (dist / mouseRadius cfg) in
        (0 + (dx / dist) * mouseStrength cfg * influence * 4,
         0 + (dy / dist) * mouseStrength cfg * influence * 4)
    else (0, 0)
  else (0, 0).

(** The position after the "Wrap edges" statements. *)
Definition wrapEdges (px py : R) : R * R :=
  (wrapCoord (- EDGE_MARGIN) (1 + EDGE_MARGIN) px,
   wrapCoord (- EDGE_MARGIN) (1 + EDGE_MARGIN) py).

(** The velocity after acceleration, drift back, home force and damping. *)
Definition updateVelocity (cfg : Config) (mouseActive : bool) (mouseX mouseY : R)
    (p : Particle) : R * R :=
  let '(ax, ay) := mouseGravity cfg mouseActive mouseX mouseY p in
  let vx1 := vx p + ax in
  let vy1 := vy p + ay in
  let vx2 := if mouseActive then vx1 else vx1 + (baseVx p - vx1) * 0.005 in
  let vy2 := if mouseActive then vy1 else vy1 + (baseVy p - vy1) * 0.005 in
  let homeDx := homeX p - x p in
  let homeDy := homeY p - y p in
  let vx3 := vx2 + homeDx * homeForce in
  let vy3 := vy2 + homeDy * homeForce in
  (vx3 * DAMPING, vy3 * DAMPING).

(** One iteration of [for (const p of particles)] in [frame]. *)
Definition updateParticle (cfg : Config) (mouseActive : bool) (mouseX mouseY dt : R)
    (p : Particle) : Particle :=
  let '(vx', vy') := updateVelocity cfg mouseActive mouseX mouseY p in
  let '(x', y') := wrapEdges (x p + vx' * dt * 60) (y p + vy' * dt * 60) in
  mkParticle x' y' vx' vy' (baseVx p) (baseVy p) (homeX p) (homeY p).

(** The boundary fade of a particle, used for its own alpha and for the
    alpha of its connections. *)
Definition edgeAlpha (p : Particle) : R :=
  JS.smoothstep 0 EDGE_MARGIN (JS.min4 (x p) (1 - x p) (y p) (1 - y p)).

Definition findConnections (cfg : Config) (h : SpatialHash.t) (particles : list Particle)
    : option (list Connection) :=
  findConnections Particle x y edgeAlpha (connectionDistance cfg) (maxConnections cfg)
    h particles.

(** The particle buffer: [x, y, alpha] per particle. *)
Definition particleData (particles : list Particle) : list R :=
  flat_map (fun p => [x p; y p; edgeAlpha p]) particles.

(** The line buffer: two vertices [x, y, alpha] per connection.  [None] is
    the [TypeError] of reading a field of an [undefined] particle. *)
Fixpoint lineData (particles : list Particle) (connections : list Connection)
    : option (list R) :=
  match connections with
  | [] => Some []
  | c :: rest =>
      p ← particles !! conn_i c;
      q ← particles !! conn_j c;
      tail ← lineData particles rest;
      Some ([x p; y p; conn_alpha c; x q; y q; conn_alpha c] ++ tail)
  end.

(** The mutable state of the scene between frames. *)
Record State := mkState {
  particles : list Particle;
  spatialHash : SpatialHash.t;
  mouseX : R; mouseY : R;
  targetMouseX : R; targetMouseY : R;
  mouseActive : bool;
  lastTime : R }.

(** What one frame hands to the rasterizer. *)
Record Buffers := mkBuffers {
  particleBuffer : list R;
  lineBuffer : list R;
  lineVertexCount : nat }.

(** [frame()] at wall-clock time [now] (seconds). *)
Definition frame (cfg : Config) (now : R) (st : State) : option (State * Buffers) :=
  let dt := Rmin (now - lastTime st) 0.05 in
  let mouseX' := mouseX st + (targetMouseX st - mouseX st) * 0.08 in
  let mouseY' := mouseY st + (targetMouseY st - mouseY st) * 0.08 in
  let ps := map (updateParticle cfg (mouseActive st) mouseX' mouseY' dt) (particles st) in
  let h := rebuildHash Particle x y (spatialHash st) ps in
  connections ← scanParticles Particle x y edgeAlpha (connectionDistance cfg)
                   (maxConnections cfg) h ps (seq 0 (length ps)) [] ∅;
  lines ← lineData ps connections;
  Some (mkState ps h mouseX' mouseY' (targetMouseX st) (targetMouseY st)
          (mouseActive st) now,
        mkBuffers (particleData ps) lines (2 * length connections)).

End Constellation.

(** ** Gravity scene ([GravitationalOrbits]) *)

Module Gravity.

Record Particle := mkParticle {
  x : R; y : R; vx : R; vy : R; mass : R;
  trail : list (R * R);
  attractorIndex : nat }.

Record Attractor := mkAttractor { ax : R; ay : R; amass : R }.

Record Pulse := mkPulse { pulseX : R; pulseY : R; startTime : R }.

Record Config := mkConfig {
  particleCount : nat;
  attractorCount : nat;
  trailLength : nat;
  gravitationalConstant : R;
  mouseGravityMultiplier : R;
  mouseRadius : R;
  softening : R;
  pointSize : R;
  pulseStrength : R;
  pulseDuration : R;
  timeScale : R }.

Definition config (isMobile prefersReducedMotion : bool) : Config :=
  mkConfig
    (if isMobile then 120 else 200)
    (if isMobile then 3 else 5)
    (if prefersReducedMotion then 12 else 24)
    0.000008
    6
    0.3
    0.03
    (if prefersReducedMotion then 2.5 else 3.5)
    0.008
    0.8
    0.4.

(** The hand-placed attractor layout. *)
Definition positions (isMobile : bool) : list (R * R) :=
  if isMobile
  then [ (0.3, 0.35); (0.7, 0.5); (0.5, 0.75) ]
  else [ (0.25, 0.3); (0.75, 0.25); (0.6, 0.6); (0.2, 0.7); (0.85, 0.75) ].

(** [calculateGravity(px, py, ax, ay, mass, G)]. *)
Definition calculateGravity (cfg : Config) (px py ax ay mass G : R) : R * R :=
  let dx := ax - px in
  let dy := ay - py in
  let distSq := dx * dx + dy * dy + softening cfg * softening cfg in
  let dist := sqrt distSq in
  let force := (G * mass) / distSq in
  ((dx / dist) * force, (dy / dist) * force).

(** "Clean up old pulses": the backward loop that splices out every pulse
    older than its duration keeps the others in order. *)
Definition cleanPulses (cfg : Config) (now : R) (pulses : list Pulse) : list Pulse :=
  foldr (fun pulse kept =>
           if decide (now - startTime pulse > pulseDuration cfg) then kept
           else pulse :: kept) [] pulses.

(** "Gravity from all attractors". *)
Definition attractorGravity (cfg : Config) (attractors : list Attractor) (p : Particle)
    : R * R :=
  foldl (fun acc a =>
           let '(gx, gy) :=
             calculateGravity cfg (x p) (y p) (ax a) (ay a) (amass a)
               (gravitationalConstant cfg) in
           (fst acc + gx, snd acc + gy)) (0, 0) attractors.

(** The pointer's influence on a particle at distance [dist]. *)
Definition mouseInfluence (cfg : Config) (dist : R) : R := 1 - dist / mouseRadius cfg.

(** "Mouse gravity (black hole effect)": the blend of the ambient
    acceleration [acc] with the pointer's pull. *)
Definition mouseBlend (cfg : Config) (mouseActive : bool) (mouseX mouseY : R)
    (p : Particle) (acc : R * R) : R * R :=
  if mouseActive then
    let dx := mouseX - x p in
    let dy := mouseY - y p in
    let dist := sqrt (dx * dx + dy * dy) in
    if decide (dist < mouseRadius cfg) then
      let influence := mouseInfluence cfg dist in
      let '(gx, gy) :=
        calculateGravity cfg (x p) (y p) mouseX mouseY 3.0
          (gravitationalConstant cfg * mouseGravityMultiplier cfg) in
      (fst acc * (1 - influence * 0.7) + gx * influence,
       snd acc * (1 - influence * 0.7) + gy * influence)
    else acc
  else acc.

(** "Pulse effect (radial push)" of one pulse. *)
Definition pulsePush (cfg : Config) (now : R) (p : Particle) (acc : R * R) (pulse : Pulse)
    : R * R :=
  let dx := x p - pulseX pulse in
  let dy := y p - pulseY pulse in
  let dist := sqrt (dx * dx + dy * dy) in
  let age := now - startTime pulse in
  let progress := age / pulseDuration cfg in
  let ringRadius := progress * 0.3 in
  let ringWidth := 0.08 in
  if decide (Rabs (dist - ringRadius) < ringWidth) then
    let strength :=
      (1 - progress) * (1 - Rabs (dist - ringRadius) / ringWidth) * pulseStrength cfg in
    if decide (dist > 0.001) then
      (fst acc + (dx / dist) * strength, snd acc + (dy / dist) * strength)
    else acc
  else acc.

(** The net acceleration of a particle in one frame. *)
Definition acceleration (cfg : Config) (attractors : list Attractor) (pulses : list Pulse)
    (mouseActive : bool) (mouseX mouseY now : R) (p : Particle) : R * R :=
  let a0 := attractorGravity cfg attractors p in
  let a1 := mouseBlend cfg mouseActive mouseX mouseY p a0 in
  foldl (pulsePush cfg now p) a1 pulses.

Definition margin : R := 0.1.

(** "Soft boundary wrapping". *)
Definition wrapEdges (px py : R) : R * R :=
  (wrapCoord (- margin) (1 + margin) px, wrapCoord (- margin) (1 + margin) py).

(** "Update trail": [unshift] the new position, [pop] when too long. *)
Definition pushTrail (cfg : Config) (pos : R * R) (trail : list (R * R)) : list (R * R) :=
  let trail' := pos :: trail in
  if (trailLength cfg <? length trail')%nat then removelast trail' else trail'.

(** One iteration of [for (const p of particles)] in [frame]. *)
Definition updateParticle (cfg : Config) (attractors : list Attractor) (pulses : list Pulse)
    (mouseActive : bool) (mouseX mouseY now dt : R) (p : Particle) : Particle :=
  let '(accX, accY) := acceleration cfg attractors pulses mouseActive mouseX mouseY now p in
  let vx1 := (vx p + accX * dt * 60 * timeScale cfg) * 0.9998 in
  let vy1 := (vy p + accY * dt * 60 * timeScale cfg) * 0.9998 in
  let '(x', y') :=
    wrapEdges (x p + vx1 * dt * 60 * timeScale cfg) (y p + vy1 * dt * 60 * timeScale cfg) in
  mkParticle x' y' vx1 vy1 (mass p) (pushTrail cfg (x', y') (trail p)) (attractorIndex p).

(** The trail segments of one particle: [x, y, alpha] for both ends of the
    segment from [trail[i]] to [trail[i + 1]]. *)
Fixpoint trailSegments (cfg : Config) (i : nat) (trail : list (R * R)) : list R :=
  match trail with
  | a :: ((b :: _) as rest) =>
      let alpha := (1 - INR i / INR (trailLength cfg)) * 0.6 in
      [fst a; snd a; alpha; fst b; snd b; alpha * 0.7] ++ trailSegments cfg (S i) rest
  | _ => []
  end.

(** "Build trail buffer". *)
Definition trailData (cfg : Config) (particles : list Particle) : list R :=
  flat_map (fun p => trailSegments cfg 0 (trail p)) particles.

(** "Build particle buffer": [x, y, alpha, size] per particle. *)
Definition particleData (particles : list Particle) : list R :=
  flat_map (fun p =>
              let speed := sqrt (vx p * vx p + vy p * vy p) in
              let normalizedSpeed := Rmin 1 (speed * 300) in
              [x p; y p; 0.6 + normalizedSpeed * 0.4; 0.7 + normalizedSpeed * 0.5])
           particles.

Record State := mkState {
  particles : list Particle;
  attractors : list Attractor;
  pulses : list Pulse;
  mouseX : R; mouseY : R;
  targetMouseX : R; targetMouseY : R;
  mouseActive : bool;
  lastTime : R }.

(** [handleClick]: a pulse at the normalised pointer position. *)
Definition handleClick (now px py : R) (st : State) : State :=
  mkState (particles st) (attractors st) (pulses st ++ [mkPulse px py now])
    (mouseX st) (mouseY st) (targetMouseX st) (targetMouseY st) (mouseActive st)
    (lastTime st).

(** The physics part of [frame()] at wall-clock time [now] (seconds). *)
Definition frame (cfg : Config) (now : R) (st : State) : State :=
  let dt := Rmin (now - lastTime st) 0.05 in
  let mouseX' := mouseX st + (targetMouseX st - mouseX st) * 0.12 in
  let mouseY' := mouseY st + (targetMouseY st - mouseY st) * 0.12 in
  let pulses' := cleanPulses cfg now (pulses st) in
  let ps := map (updateParticle cfg (attractors st) pulses' (mouseActive st)
                   mouseX' mouseY' now dt) (particles st) in
  mkState ps (attractors st) pulses' mouseX' mouseY'
    (targetMouseX st) (targetMouseY st) (mouseActive st) now.

End Gravity.

(** ** Flow-field scene ([FlowField]) *)

Module FlowField.

Record Particle := mkParticle { x : R; y : R; speed : R }.

Record Config := mkConfig {
  particleCount : nat;
  noiseScale : R;
  noiseSpeed : R;
  flowSpeed : R;
  vortexRadius : R;
  vortexStrength : R;
  pointSize : R }.

Definition config (isMobile prefersReducedMotion : bool) : Config :=
  mkConfig
    (if isMobile then 150 else 250)
    3
    0.15
    (if prefersReducedMotion then 0.0008 else 0.0015)
    0.2
    (if prefersReducedMotion then 0.003 else 0.006)
    (if prefersReducedMotion then 2.5 else 3.5).

(** [const noise = new SimplexNoise(12345)]. *)
Definition noise : Noise.SimplexNoise := Noise.new 12345.

(** [getFlowVector(x, y, time)]. *)
Definition getFlowVector (cfg : Config) (x y time : R) : option (R * R) :=
  n ← Noise.noise3D noise (x * noiseScale cfg) (y * noiseScale cfg) (time * noiseSpeed cfg);
  let angle := n * PI * 2 in
  Some (cos angle, sin angle).

(** [getVortexVelocity(px, py, mx, my)]. *)
Definition getVortexVelocity (cfg : Config) (px py mx my : R) : R * R :=
  let dx := px - mx in
  let dy := py - my in
  let dist := sqrt (dx * dx + dy * dy) in
  if decide (dist > vortexRadius cfg ∨ dist < 0.01) then (0, 0)
  else
    let tx := - dy / dist in
    let ty := dx / dist in
    let normalizedDist := dist / vortexRadius cfg in
    let strength := (1 - normalizedDist * normalizedDist) * vortexStrength cfg in
    (tx * strength, ty * strength).

(** The pointer's influence on a particle, [Math.max(0, 1 - dist / vortexRadius)]. *)
Definition vortexInfluence (cfg : Config) (px py mouseX mouseY : R) : R :=
  let dx := px - mouseX in
  let dy := py - mouseY in
  let dist := sqrt (dx * dx + dy * dy) in
  Rmax 0 (1 - dist / vortexRadius cfg).

(** "Blend flow and vortex": the velocity of a particle whose flow
    velocity is [(vx, vy)]. *)
Definition blendVelocity (cfg : Config) (mouseActive : bool) (mouseX mouseY : R)
    (p : Particle) (v : R * R) : R * R :=
  if mouseActive then
    let '(vortexX, vortexY) := getVortexVelocity cfg (x p) (y p) mouseX mouseY in
    let influence := vortexInfluence cfg (x p) (y p) mouseX mouseY in
    (fst v * (1 - influence * 0.8) + vortexX, snd v * (1 - influence * 0.8) + vortexY)
  else v.

(** "Wrap edges": the hard wrap of the flow field. *)
Definition wrapEdges (px py : R) : R * R := (wrapCoord 0 1 px, wrapCoord 0 1 py).

(** One iteration of [for (const p of particles)] in [frame]. *)
Definition updateParticle (cfg : Config) (mouseActive : bool) (mouseX mouseY elapsed dt : R)
    (p : Particle) : option Particle :=
  f ← getFlowVector cfg (x p) (y p) elapsed;
  let vx := fst f * flowSpeed cfg * speed p in
  let vy := snd f * flowSpeed cfg * speed p in
  let '(vx', vy') := blendVelocity cfg mouseActive mouseX mouseY p (vx, vy) in
  let '(x', y') := wrapEdges (x p + vx' * dt * 60) (y p + vy' * dt * 60) in
  Some (mkParticle x' y' (speed p)).

(** The particle buffer: [x, y, speed] per particle. *)
Definition particleData (particles : list Particle) : list R :=
  flat_map (fun p => [x p; y p; speed p]) particles.

Record State := mkState {
  particles : list Particle;
  mouseX : R; mouseY : R;
  targetMouseX : R; targetMouseY : R;
  mouseActive : bool;
  lastTime : R;
  startTime : R }.

(** [frame()] at wall-clock time [now] (seconds): the new state and the
    particle buffer. *)
Definition frame (cfg : Config) (now : R) (st : State) : option (State * list R) :=
  let dt := Rmin (now - lastTime st) 0.05 in
  let elapsed := now - startTime st in
  let mouseX' := mouseX st + (targetMouseX st - mouseX st) * 0.1 in
  let mouseY' := mouseY st + (targetMouseY st - mouseY st) * 0.1 in
  ps ← mapM (updateParticle cfg (mouseActive st) mouseX' mouseY' elapsed dt) (particles st);
  Some (mkState ps mouseX' mouseY' (targetMouseX st) (targetMouseY st)
          (mouseActive st) now (startTime st),
        particleData ps).

End FlowField.

(** A bounding rectangle, as returned by [getBoundingClientRect()]. *)
Record Rect := mkRect { left : R; top : R; width : R; height : R }.

(** ** Sea scene ([ParticleSea]) *)

Module Sea.

Definition tileW : R := 900.
Definition tileD : R := 1200.
Definition zPush : R := -50.0.
Definition MAX_R : nat := 6.

(** The uniforms of the vertex shader that place a grid point. *)
Record Uniforms := mkUniforms {
  uTime : R; uAmp : R; uFreqX : R; uFreqY : R; uSpeed : R;
  uScroll : R * R;
  uTileW : R; uTileD : R;
  uCamH : R; uPitch : R; uFov : R; uAspect : R; uZPush : R;
  uMouse : R * R; uMouseActive : R; uMouseRadius : R;
  uRCnt : nat;
  uRip : list (R * R * R * R) }.

(** GLSL [clamp], [smoothstep] and [length] of a [vec2]. *)
Definition clamp (x lo hi : R) : R := Rmin (Rmax x lo) hi.

Definition smoothstep (edge0 edge1 x : R) : R :=
  let t := clamp ((x - edge0) / (edge1 - edge0)) 0 1 in
  t * t * (3 - 2 * t).

Definition length2 (v : R * R) : R := sqrt (fst v * fst v + snd v * snd v).

(** [rot2(p, a)]. *)
Definition rot2 (p : R * R) (a : R) : R * R :=
  let s := sin a in
  let c := cos a in
  (c * fst p - s * snd p, s * fst p + c * snd p).

(** The wrapped distance [abs(fract(delta + 0.5) - 0.5)] on the tile. *)
Definition wrappedDelta (d : R * R) : R * R :=
  (Rabs (JS.fract (fst d + 0.5) - 0.5), Rabs (JS.fract (snd d + 0.5) - 0.5)).

(** The ripple loop of the shader: the sum [extra] over the first [uRCnt]
    ripples. *)
Definition rippleExtra (u : Uniforms) (tx tz : R) : R :=
  foldl (fun extra r =>
           let '(cx, cy, t0, life) := r in
           let ripplePos := (cx + fst (uScroll u), cy + snd (uScroll u)) in
           let delta := wrappedDelta (tx - fst ripplePos, tz - snd ripplePos) in
           let d := length2 delta in
           let tt := Rmax (uTime u - t0) 0 in
           let prog := clamp (tt / life) 0 1 in
           let radius := prog * 0.6 in
           let ring := 1 - smoothstep (radius - 0.02) (radius + 0.02) d in
           extra + ring * (1 - prog))
        0 (take (uRCnt u) (take MAX_R (uRip u))).

(** The height [Y] of the grid point at tile position [t]. *)
Definition surfaceHeight (u : Uniforms) (tx tz : R) (t : R * R) : R :=
  let phase := uTime u * uSpeed u in
  let w := sin (fst t * uFreqX u + phase) * 0.7 + cos (snd t * uFreqY u + phase * 0.9) * 0.3 in
  let mouseEffect :=
    if decide (uMouseActive u > 0.5) then
      let delta := wrappedDelta (fst t - fst (uMouse u), snd t - snd (uMouse u)) in
      let mouseDist := length2 delta in
      let influence := 1 - smoothstep 0 (uMouseRadius u) mouseDist in
      influence * 0.8
    else 0 in
  let extra := rippleExtra u tx tz in
  (w * uAmp u) + extra * (uAmp u * 0.9) + mouseEffect * (uAmp u * 1.0).

(** The camera transform and perspective projection of the world point
    [(X, Y, Z)]: the four components of [gl_Position]. *)
Definition projectWorld (u : Uniforms) (X Y Z : R) : R * R * R * R :=
  let cx := X in
  let cy := Y - uCamH u in
  let cz := Z in
  let ryz := rot2 (cy, cz) (uPitch u) in
  let y2 := fst ryz in
  let z2 := snd ryz + uZPush u in
  let f := 1 / tan (uFov u * 0.5) in
  let ndcX := (cx * f / uAspect u) / Rmax z2 0.1 in
  let ndcY := (y2 * f) / Rmax z2 0.1 in
  let ndcZ := clamp (z2 / 5000) (-1) 1 in
  (- ndcX, ndcY, ndcZ, 0.5).

(** [main()] of the vertex shader: [gl_Position] of the grid point [aPos]. *)
Definition vert (u : Uniforms) (aPos : R * R) : R * R * R * R :=
  let tx := fst aPos + fst (uScroll u) in
  let tz := snd aPos + snd (uScroll u) in
  let t := (JS.fract tx, JS.fract tz) in
  let X := (fst t - 0.5) * uTileW u in
  let Z := snd t * uTileD u in
  let Y := surfaceHeight u tx tz t in
  projectWorld u X Y Z.

(** The uniforms as the component sets them: the static ones, the aspect of
    the canvas, the pitch last uploaded, and the per-frame ones. *)
Definition uniforms (DPR aspect pitch time : R) (scroll mouse : R * R) (mouseActive : bool)
    (rCount : nat) (rip : list (R * R * R * R)) : Uniforms :=
  mkUniforms time (15.0 * DPR) 22.0 18.0 1.2 scroll tileW tileD
    (80.0 * DPR) pitch 1.2 aspect (-50.0)
    mouse (if mouseActive then 1.0 else 0.0) 0.12 rCount rip.

(** The fixed-function step after the shader: the divide by [w] and the
    viewport mapping of a canvas that fills [rect], giving the client
    coordinates at which the point is drawn. *)
Definition toClient (rect : Rect) (pos : R * R * R * R) : R * R :=
  let '(px, py, _, pw) := pos in
  (left rect + (px / pw + 1) / 2 * width rect,
   top rect + (1 - py / pw) / 2 * height rect).

(** [screenToWorldTile(clientX, clientY)], reading the mutable [pitch]. *)
Definition screenToWorldTile (rect : Rect) (DPR pitch clientX clientY : R) : option (R * R) :=
  sx ← JS.div (clientX - left rect) (width rect);
  let nx := - (sx * 2 - 1) in
  sy ← JS.div (clientY - top rect) (height rect);
  let ny := sy * 2 - 1 in
  aspect ← JS.div (width rect) (height rect);
  let fov := 1.2 in
  f ← JS.div 1 (tan (fov * 0.5));
  let camH := 80 * DPR in
  dirx ← JS.div (nx * aspect) f;
  diry ← JS.div (- ny) f;
  let dirz := 1 in
  let s := sin pitch in
  let c := cos pitch in
  let y2 := c * diry - s * dirz in
  let z2 := s * diry + c * dirz in
  let originX := 0 in
  let originY := camH in
  let originZ := - zPush in
  if decide (y2 >= 0) then Some (0.5, 0.5)
  else
    t ← JS.div (- originY) y2;
    let hitX := originX + dirx * t in
    let hitZ := originZ + z2 * t in
    xn ← JS.div hitX tileW;
    let xNorm := xn + 0.5 in
    zNorm ← JS.div hitZ tileD;
    let u := JS.wrap01 xNorm in
    let v := JS.wrap01 zNorm in
    Some (u, v).

(** The vertical component of the pitch-rotated pointer ray, the value
    tested by [if (dir.y >= 0)]. *)
Definition rayY (rect : Rect) (pitch clientY : R) : option R :=
  sy ← JS.div (clientY - top rect) (height rect);
  let ny := sy * 2 - 1 in
  f ← JS.div 1 (tan (1.2 * 0.5));
  diry ← JS.div (- ny) f;
  Some (cos pitch * diry - sin pitch * 1).

(** The ripple table [rip] with its count [rCount]: newest first. *)
Record Ripples := mkRipples { rip : list (R * R * R * R); rCount : nat }.

Definition noRipples : Ripples := mkRipples (repeat (0, 0, 0, 0) MAX_R) 0.

(** [addRipple(nx, ny)] at time [now]: shift every slot down by one, write
    slot 0. *)
Definition addRipple (now nx ny : R) (r : Ripples) : Ripples :=
  mkRipples ((nx, ny, now, 1.2) :: take (MAX_R - 1) (rip r))
            (Nat.min (rCount r + 1) MAX_R).

(** The look drag of [pointermove]: the new pitch after a vertical move of
    [dy] pixels. *)
Definition dragPitch (pitch dy : R) : R :=
  Rmax (-0.3) (Rmin 0.4 (pitch + dy * -0.002)).

(** The [wheel] handler: the new spacing. *)
Definition wheelSpacing (spacing deltaY : R) : R :=
  Rmin 60 (Rmax 14 (spacing + (if decide (deltaY > 0) then 2 else -2))).

(** The per-frame scroll update: [scrollY = (scrollY + 0.008) % 1.0]. *)
Definition driftScrollY (scrollY : R) : R := JS.rem (scrollY + 0.008) 1.0.

(** [pointerdown] without drag: the ripple is stored relative to the
    current scroll. *)
Definition pointerDownRipple (rect : Rect) (DPR pitch scrollX scrollY now clientX clientY : R)
    (r : Ripples) : option Ripples :=
  uv ← screenToWorldTile rect DPR pitch clientX clientY;
  let ripX := JS.wrap01 (fst uv - scrollX) in
  let ripY := JS.wrap01 (snd uv - scrollY) in
  Some (addRipple now ripX ripY r).

End Sea.

(** ** Sky-and-sea scene ([SkyAndSea]) *)

Module SkySea.

Record SkyParticle := mkSkyParticle {
  x : R; y : R; vx : R; vy : R; baseVx : R; baseVy : R }.

Definition HORIZON_Y : R := 0.35.

Record Config := mkConfig {
  skyParticleCount : nat;
  connectionDistance : R;
  maxConnections : nat;
  skyPointSize : R;
  skyDriftSpeed : R;
  skyMouseRadius : R;
  skyMouseStrength : R;
  seaSpacing : R;
  seaPointSize : R;
  seaMouseRadius : R;
  horizonY : R }.

Definition config (isMobile prefersReducedMotion : bool) : Config :=
  mkConfig
    (if prefersReducedMotion then 40 else if isMobile then 50 else 80)
    (if isMobile then 0.15 else 0.12)
    (if isMobile then 800 else 1500)
    (if prefersReducedMotion then 3 else 4)
    (if prefersReducedMotion then 0.00003 else 0.00006)
    0.2
    0.00015
    (if isMobile then 20 else 26)
    (if prefersReducedMotion then 3.2 else 4.0)
    0.12
    HORIZON_Y.

Definition tileW : R := 1600.
Definition tileD : R := 1200.
Definition MAX_R : nat := 6.
Definition pitch : R := 0.18.
Definition zPush : R := -50.0.
Definition SKY_EDGE_MARGIN : R := 0.03.
Definition DAMPING : R := 0.992.

(** The ripple ring buffer: six slots [(x, y, start, life)], the count of
    slots in use and the slot written next. *)
Record Ripples := mkRipples {
  rip : list (R * R * R * R); rCount : nat; nextSlot : nat }.

Definition noRipples : Ripples := mkRipples (repeat (0, 0, -999, 1.2) MAX_R) 0 0.

(** [addRipple(nx, ny)] at [t = now() - startTime]. *)
Definition addRipple (t nx ny : R) (r : Ripples) : Ripples :=
  mkRipples (<[nextSlot r := (nx, ny, t, 1.2)]> (rip r))
            (if (rCount r <? MAX_R)%nat then S (rCount r) else rCount r)
            ((nextSlot r + 1) mod MAX_R).

(** [screenToSeaTile(clientX, clientY)]; [canvas] is the rectangle of the
    canvas, or [None] when the reference is null. *)
Definition screenToSeaTile (cfg : Config) (canvas : option Rect) (DPR clientX clientY : R)
    : option (R * R) :=
  match canvas with
  | None => Some (0.5, 0.5)
  | Some rect =>
      screenX ← JS.div (clientX - left rect) (width rect);
      screenY ← JS.div (clientY - top rect) (height rect);
      seaY ← JS.div (screenY - horizonY cfg) (1 - horizonY cfg);
      let nx := - (screenX * 2 - 1) in
      let ny := seaY * 2 - 1 in
      aspect ← JS.div (width rect) (height rect);
      let fov := 1.2 in
      f ← JS.div 1 (tan (fov * 0.5));
      let camH := 80 * DPR in
      dirx ← JS.div (nx * aspect) f;
      diry ← JS.div (- ny) f;
      let dirz := 1 in
      let s := sin pitch in
      let c := cos pitch in
      let y2 := c * diry - s * dirz in
      let z2 := s * diry + c * dirz in
      let originX := 0 in
      let originY := camH in
      let originZ := - zPush in
      if decide (y2 >= 0) then Some (0.5, 0.5)
      else
        t ← JS.div (- originY) y2;
        let hitX := originX + dirx * t in
        let hitZ := originZ + z2 * t in
        xn ← JS.div hitX tileW;
        let xNorm := xn + 0.5 in
        zNorm ← JS.div hitZ tileD;
        let u := JS.wrap01 xNorm in
        let v := JS.wrap01 zNorm in
        Some (u, v)
  end.

(** The vertical component of the pitch-rotated pointer ray of
    [screenToSeaTile]. *)
Definition rayY (cfg : Config) (rect : Rect) (clientY : R) : option R :=
  screenY ← JS.div (clientY - top rect) (height rect);
  seaY ← JS.div (screenY - horizonY cfg) (1 - horizonY cfg);
  let ny := seaY * 2 - 1 in
  f ← JS.div 1 (tan (1.2 * 0.5));
  diry ← JS.div (- ny) f;
  Some (cos pitch * diry - sin pitch * 1).

(** Which region a pointer at normalised height [normalizedY] is in. *)
Inductive Region := Sky | SeaRegion.

Definition regionOf (cfg : Config) (normalizedY : R) : Region :=
  if decide (normalizedY < horizonY cfg) then Sky else SeaRegion.

(** "Mouse gravity for sky". *)
Definition mouseGravity (cfg : Config) (skyMouseActive : bool) (skyMouseX skyMouseY : R)
    (p : SkyParticle) : R * R :=
  if skyMouseActive then
    let dx := skyMouseX - x p in
    let dy := skyMouseY - y p in
    let dist := sqrt (dx * dx + dy * dy) in
    if decide (dist < skyMouseRadius cfg ∧ dist > 0.01) then
      let influence := (1 - dist / skyMouseRadius cfg) * (dist / skyMouseRadius cfg) in
      (0 + (dx / dist) * skyMouseStrength cfg * influence * 4,
       0 + (dy / dist) * skyMouseStrength cfg * influence * 4)
    else (0, 0)
  else (0, 0).

(** One iteration of the sky physics loop: wrap horizontally, bounce at the
    top and at the horizon. *)
Definition updateParticle (cfg : Config) (skyMouseActive : bool) (skyMouseX skyMouseY dt : R)
    (p : SkyParticle) : SkyParticle :=
  let '(ax, ay) := mouseGravity cfg skyMouseActive skyMouseX skyMouseY p in
  let vx1 := vx p + ax in
  let vy1 := vy p + ay in
  let vx2 := if skyMouseActive then vx1 else vx1 + (baseVx p - vx1) * 0.005 in
  let vy2 := if skyMouseActive then vy1 else vy1 + (baseVy p - vy1) * 0.005 in
  let vx3 := vx2 * DAMPING in
  let vy3 := vy2 * DAMPING in
  let x1 := wrapCoord (- SKY_EDGE_MARGIN) (1 + SKY_EDGE_MARGIN) (x p + vx3 * dt * 60) in
  let y1 := y p + vy3 * dt * 60 in
  let '(y2, vy4) :=
    if decide (y1 < - SKY_EDGE_MARGIN) then (- SKY_EDGE_MARGIN, vy3 * -0.5) else (y1, vy3) in
  let '(y3, vy5) :=
    if decide (y2 > horizonY cfg - 0.02) then (horizonY cfg - 0.02, vy4 * -0.5)
    else (y2, vy4) in
  mkSkyParticle x1 y3 vx3 vy5 (baseVx p) (baseVy p).

(** The boundary fade of a sky particle. *)
Definition edgeAlpha (cfg : Config) (p : SkyParticle) : R :=
  JS.smoothstep 0 SKY_EDGE_MARGIN (JS.min4 (x p) (1 - x p) (y p) (horizonY cfg - y p)).

Definition findConnections (cfg : Config) (h : SpatialHash.t) (particles : list SkyParticle)
    : option (list Connection) :=
  findConnections SkyParticle x y (edgeAlpha cfg) (connectionDistance cfg)
    (maxConnections cfg) h particles.

End SkySea.
(** ** The noise class as objects on the heap

    The pure tables of [Noise] say what an instance holds; this part models
    how the class builds and reads them: [new SimplexNoise(seed)] allocates
    an object, three arrays and the scratch array [p] on the heap and fills
    them with stores, [noise3D] reaches the tables through [this].  Two
    instances are two objects of one heap. *)

Module Store.

Abbreviation loc := positive.

(** The objects the class creates.  The gradient records [{x, y, z}] are
    never written after the array literal that creates them, so a slot of a
    gradient array holds the record itself ([None] is an empty slot). *)
Inductive Obj : Type :=
| Uint8Array (bytes : list Z)
| GradArray (slots : list (option Noise.Grad))
| Instance (perm gradP grad3 : option loc).

Abbreviation Heap := (gmap loc Obj).

(** A computation on the heap; [None] is a thrown [TypeError]. *)
Definition M (A : Type) : Type := Heap -> option (A * Heap).

Definition ret {A : Type} (a : A) : M A := fun h => Some (a, h).

Definition bind {A B : Type} (m : M A) (f : A -> M B) : M B :=
  fun h => match m h with Some (a, h') => f a h' | None => None end.

Definition throw {A : Type} : M A := fun _ => None.

Notation "'let*' x ':=' m 'in' k" := (bind m (fun x => k))
  (at level 10, x name, m at level 100, k at level 200).

Definition alloc (o : Obj) : M loc :=
  fun h => let l := fresh (dom h) in Some (l, <[l := o]> h).

Definition load (l : loc) : M Obj :=
  fun h => match h !! l with Some o => Some (o, h) | None => None end.

Definition store (l : loc) (o : Obj) : M unit :=
  fun h => Some (tt, <[l := o]> h).

(** An index is an integer, or [None] for a key that is no array index
    ([undefined], [NaN], a fraction).  A store of a typed array at such a key
    or outside the array is ignored, a read there is [undefined]. *)
Definition u8setAt (bs : list Z) (i : option Z) (v : option Z) : list Z :=
  match i with Some i => Noise.u8set bs i v | None => bs end.

Definition getU8 (a : loc) (i : option Z) : M (option Z) :=
  let* o := load a in
  match o with
  | Uint8Array bs => ret (i ≫= JS.get bs)
  | _ => throw
  end.

Definition setU8 (a : loc) (i : option Z) (v : option Z) : M unit :=
  let* o := load a in
  match o with
  | Uint8Array bs => store a (Uint8Array (u8setAt bs i v))
  | _ => throw
  end.

(** A store into an ordinary array: past the end the array grows, the
    slots in between staying empty. *)
Definition arraySet {A : Type} (slots : list (option A)) (i : Z) (v : option A)
    : list (option A) :=
  if (0 <=? i)%Z then
    if (i <? Z.of_nat (length slots))%Z then <[Z.to_nat i := v]> slots
    else slots ++ replicate (Z.to_nat i - length slots) None ++ [v]
  else slots.

(** Reading a slot: an empty slot and a slot outside the array are both
    [undefined]. *)
Definition slotAt {A : Type} (slots : list (option A)) (i : Z) : option A :=
  match JS.get slots i with Some v => v | None => None end.

Definition getSlot (a : loc) (i : option Z) : M (option Noise.Grad) :=
  let* o := load a in
  match o with
  | GradArray gs => ret (i ≫= slotAt gs)
  | _ => throw
  end.

Definition setSlot (a : loc) (i : Z) (g : option Noise.Grad) : M unit :=
  let* o := load a in
  match o with
  | GradArray gs => store a (GradArray (arraySet gs i g))
  | _ => throw
  end.

(** The private fields of an instance.  Indexing a field that is still
    [undefined] throws. *)
Definition getPerm (this : loc) : M loc :=
  let* o := load this in
  match o with Instance (Some l) _ _ => ret l | _ => throw end.

Definition getGradP (this : loc) : M loc :=
  let* o := load this in
  match o with Instance _ (Some l) _ => ret l | _ => throw end.

Definition getGrad3 (this : loc) : M loc :=
  let* o := load this in
  match o with Instance _ _ (Some l) => ret l | _ => throw end.

Definition setPerm (this l : loc) : M unit :=
  let* o := load this in
  match o with Instance _ g g3 => store this (Instance (Some l) g g3) | _ => throw end.

Definition setGradP (this l : loc) : M unit :=
  let* o := load this in
  match o with Instance p _ g3 => store this (Instance p (Some l) g3) | _ => throw end.

Definition setGrad3 (this l : loc) : M unit :=
  let* o := load this in
  match o with Instance p g _ => store this (Instance p g (Some l)) | _ => throw end.

(** A counted [for] loop over the values of its variable. *)
Fixpoint forEach {A : Type} (xs : list A) (body : A -> M unit) : M unit :=
  match xs with
  | [] => ret tt
  | x :: rest => let* _ := body x in forEach rest body
  end.

End Store.

Module NoiseClass.

Import Store.

(** The arithmetic the constructor does on the seed.  The seed is any
    [number]; what [s * 16807], [%] and the use of [s % (i + 1)] as an index
    compute depends on the number model, so the constructor is written over
    this interface: [toIndex] is the array index a number denotes, if any. *)
Class Number (N : Type) : Type := mkNumber {
  mul : N -> N -> N;
  rem : N -> N -> N;
  ofInt : Z -> N;
  toIndex : N -> option Z }.

(** Integer seeds with exact arithmetic: what the doubles compute while the
    products stay below 2^53 (any integer seed below 2^53 / 16807 in size,
    the scenes' 12345 among them). *)
#[global] Instance exactNumber : Number Z :=
  {| mul := Z.mul; rem := Z.rem; ofInt := fun z => z; toIndex := Some |}.

(** Real seeds with exact arithmetic, the number model of the rest of this
    development; the default seed [Math.random() * 65536] is no integer. *)
#[global] Instance realNumber : Number R :=
  {| mul := Rmult; rem := JS.rem; ofInt := IZR;
     toIndex := fun r =>
       if Req_dec_T r (IZR (Zfloor r)) then Some (Zfloor r) else None |}.

Section Class.

Context {N : Type} `{Number N}.

(** The seed-based shuffle of the scratch array [p]: the loop
    [for (let i = 255; i > 0; i--)] with its swap
    [[p[i], p[j]] = [p[j], p[i]]], both reads before both stores. *)
Fixpoint shuffle (i : nat) (s : N) (p : loc) : M unit :=
  match i with
  | O => ret tt
  | S i' =>
      let s' := rem (mul s (ofInt 16807)) (ofInt 2147483647) in
      let j := toIndex (rem s' (ofInt (Z.of_nat i + 1))) in
      let* pj := getU8 p j in
      let* pi := getU8 p (Some (Z.of_nat i)) in
      let* _ := setU8 p (Some (Z.of_nat i)) pj in
      let* _ := setU8 p j pi in
      shuffle i' s' p
  end.

(** The body of the last loop of the constructor:
    [this.perm[i] = p[i & 255]; this.gradP[i] = this.grad3[this.perm[i] % 12]]. *)
Definition fill (this p : loc) (i : nat) : M unit :=
  let* perm := getPerm this in
  let* v := getU8 p (Some (Z.land (Z.of_nat i) 255)) in
  let* _ := setU8 perm (Some (Z.of_nat i)) v in
  let* gradP := getGradP this in
  let* grad3 := getGrad3 this in
  let* perm' := getPerm this in
  let* pi := getU8 perm' (Some (Z.of_nat i)) in
  let* g := getSlot grad3 (pi ≫= fun v => Some (Z.rem v 12)) in
  setSlot gradP (Z.of_nat i) g.

(** [new SimplexNoise(seed)]: the object, the field initialiser of [grad3],
    then the body of the constructor.  The result is the new instance. *)
Definition construct (seed : N) : M loc :=
  let* this := alloc (Instance None None None) in
  let* grad3 := alloc (GradArray (map Some Noise.grad3)) in
  let* _ := setGrad3 this grad3 in
  let* perm := alloc (Uint8Array (replicate 512 0%Z)) in
  let* _ := setPerm this perm in
  let* gradP := alloc (GradArray (replicate 512 None)) in
  let* _ := setGradP this gradP in
  let* p := alloc (Uint8Array (replicate 256 0%Z)) in
  let* _ := forEach (seq 0 256)
              (fun i => setU8 p (Some (Z.of_nat i)) (Some (Z.of_nat i))) in
  let* _ := shuffle 255 seed p in
  let* _ := forEach (seq 0 512) (fill this p) in
  ret this.

End Class.

(** The table walk [this.gradP[ii + i1 + this.perm[jj + j1 + this.perm[kk + k1]]]];
    an [undefined] on the way makes the index [NaN] and the result
    [undefined]. *)
Definition gradAt (this : loc) (ii jj kk i1 j1 k1 : Z) : M (option Noise.Grad) :=
  let* gradP := getGradP this in
  let* perm := getPerm this in
  let* pk := getU8 perm (Some (kk + k1)%Z) in
  let* pj := getU8 perm (pk ≫= fun v => Some (jj + j1 + v)%Z) in
  getSlot gradP (pj ≫= fun v => Some (ii + i1 + v)%Z).

(** One corner; the gradient is read only when [t >= 0], and reading a
    component of [undefined] throws. *)
Definition corner (gi : option Noise.Grad) (x y z : R) : M R :=
  let t := 0.6 - x * x - y * y - z * z in
  if Rge_dec t 0 then
    match gi with
    | Some g =>
        let t2 := t * t in
        ret (t2 * t2 * (Noise.gx g * x + Noise.gy g * y + Noise.gz g * z))
    | None => throw
    end
  else ret 0.

(** [this.noise3D(x, y, z)]. *)
Definition noise3D (this : loc) (x y z : R) : M R :=
  let F3 := 1 / 3 in
  let G3 := 1 / 6 in
  let s := (x + y + z) * F3 in
  let i := JS.floor (x + s) in
  let j := JS.floor (y + s) in
  let k := JS.floor (z + s) in
  let t := (IZR i + IZR j + IZR k) * G3 in
  let X0 := IZR i - t in
  let Y0 := IZR j - t in
  let Z0 := IZR k - t in
  let x0 := x - X0 in
  let y0 := y - Y0 in
  let z0 := z - Z0 in
  let '(i1, j1, k1, i2, j2, k2) := Noise.simplexOffsets x0 y0 z0 in
  let x1 := x0 - IZR i1 + G3 in
  let y1 := y0 - IZR j1 + G3 in
  let z1 := z0 - IZR k1 + G3 in
  let x2 := x0 - IZR i2 + 2 * G3 in
  let y2 := y0 - IZR j2 + 2 * G3 in
  let z2 := z0 - IZR k2 + 2 * G3 in
  let x3 := x0 - 1 + 3 * G3 in
  let y3 := y0 - 1 + 3 * G3 in
  let z3 := z0 - 1 + 3 * G3 in
  let ii := Z.land i 255 in
  let jj := Z.land j 255 in
  let kk := Z.land k 255 in
  let* gi0 := gradAt this ii jj kk 0 0 0 in
  let* gi1 := gradAt this ii jj kk i1 j1 k1 in
  let* gi2 := gradAt this ii jj kk i2 j2 k2 in
  let* gi3 := gradAt this ii jj kk 1 1 1 in
  let* n0 := corner gi0 x0 y0 z0 in
  let* n1 := corner gi1 x1 y1 z1 in
  let* n2 := corner gi2 x2 y2 z2 in
  let* n3 := corner gi3 x3 y3 z3 in
  ret (32 * (n0 + n1 + n2 + n3)).

(** A history of calls, oldest first, each on its own receiver: the values
    returned. *)
Fixpoint runCalls (calls : list (loc * (R * R * R))) : M (list R) :=
  match calls with
  | [] => ret []
  | (this, (x, y, z)) :: rest =>
      let* v := noise3D this x y z in
      let* vs := runCalls rest in
      ret (v :: vs)
  end.

(** The two tables of the instance [this] as the heap holds them: the bytes
    of [this.perm] and the records of [this.gradP]. *)
Definition tables (h : Heap) (this : loc) : option (list Z * list Noise.Grad) :=
  match h !! this with
  | Some (Instance (Some lp) (Some lg) _) =>
      match h !! lp, h !! lg with
      | Some (Uint8Array pm), Some (GradArray gs) =>
          match mapM (fun g => g) gs with Some gr => Some (pm, gr) | None => None end
      | _, _ => None
      end
  | _ => None
  end.

End NoiseClass.

(** * Definitions used by the statements and proofs *)

(** A table entry that fits a [Uint8Array] slot. *)
Definition byte (v : Z) : Prop := (0 <= v <= 255)%Z.

(** The part the two pick functions share, from the normalised pointer on. *)
Definition pickRay (tileW tileD camH pitch aspect nx ny : R) : option (R * R) :=
  let f := 1 / tan (1.2 * 0.5) in
  let dirx := nx * aspect / f in
  let diry := - ny / f in
  let y2 := cos pitch * diry - sin pitch * 1 in
  let z2 := sin pitch * diry + cos pitch * 1 in
  if decide (y2 >= 0) then Some (0.5, 0.5)
  else
    let t := - camH / y2 in
    Some (JS.wrap01 ((0 + dirx * t) / tileW + 0.5), JS.wrap01 ((- -50.0 + z2 * t) / tileD)).

(** The unordered pair a connection joins, as the ordered pair it stores. *)
Definition connPair (c : Connection) : nat * nat := (conn_i c, conn_j c).

(** What a well-formed connection of one frame is: its endpoints are two
    particles [i < j] closer than the threshold, and its alpha is the
    distance falloff times the smaller of the two boundary fades. *)
Definition edgeOk {Particle : Type} (posX posY fade : Particle -> R)
    (connectionDistance : R) (particles : list Particle) (c : Connection) : Prop :=
  (conn_i c < conn_j c)%nat /\
  exists p q,
    particles !! conn_i c = Some p /\ particles !! conn_j c = Some q /\
    distance Particle posX posY p q < connectionDistance /\
    conn_alpha c =
      (1 - distance Particle posX posY p q / connectionDistance) * Rmin (fade p) (fade q).

(** The state the two loops of the builder carry: well-formed connections,
    every stored pair recorded in [seen], no pair stored twice. *)
Definition loopInvariant {Particle : Type} (posX posY fade : Particle -> R)
    (connectionDistance : R) (particles : list Particle)
    (connections : list Connection) (seen : gset (nat * nat)) : Prop :=
  Forall (edgeOk posX posY fade connectionDistance particles) connections /\
  (forall c, c ∈ connections -> connPair c ∈ seen) /\
  NoDup (connPair <$> connections).

(** The connection list of one frame is well formed: at most
    [maxConnections] entries, each a well-formed connection, none joining a
    particle to itself, no pair present together with its mirror image, and
    no pair present twice. *)
Definition edgesWellFormed {Particle : Type} (posX posY fade : Particle -> R)
    (connectionDistance : R) (maxConnections : nat) (particles : list Particle)
    (connections : list Connection) : Prop :=
  (length connections <= maxConnections)%nat /\
  Forall (edgeOk posX posY fade connectionDistance particles) connections /\
  (forall c, c ∈ connections -> conn_i c <> conn_j c) /\
  (forall c c', c ∈ connections -> c' ∈ connections ->
     ~ (conn_i c' = conn_j c /\ conn_j c' = conn_i c)) /\
  NoDup (connPair <$> connections).

(** The forward projection of the ground-plane point of tile coordinate
    [tile]: the tile-to-world map of the shader ([X = (t.x - 0.5) * uTileW],
    [Z = t.y * uTileD]) at height 0, then its camera transform. *)
Definition projectGround (u : Sea.Uniforms) (tile : R * R) : R * R * R * R :=
  Sea.projectWorld u ((fst tile - 0.5) * Sea.uTileW u) 0 (snd tile * Sea.uTileD u).

(** The uniforms of the sea scene before any look drag: pitch -0.15, no
    scroll, no pointer, no ripple. *)
Definition seaUniforms (DPR aspect : R) : Sea.Uniforms :=
  Sea.uniforms DPR aspect (-0.15) 0 (0, 0) (0.5, 0.5) false 0 (Sea.rip Sea.noRipples).

(** Project a ground-plane tile point to the screen, then pick it back with
    [screenToWorldTile] at its initial pitch 0.15. *)
Definition roundTrip (rect : Rect) (DPR : R) (tile : R * R) : option (R * R) :=
  let pos := projectGround (seaUniforms DPR (width rect / height rect)) tile in
  let client := Sea.toClient rect pos in
  Sea.screenToWorldTile rect DPR 0.15 (fst client) (snd client).

(** The same, reading the first two components of [gl_Position] as
    normalised device coordinates without the divide by its [w]. *)
Definition roundTripNoDivide (rect : Rect) (DPR : R) (tile : R * R) : option (R * R) :=
  let '(px, py, pz, _) := projectGround (seaUniforms DPR (width rect / height rect)) tile in
  let client := Sea.toClient rect (px, py, pz, 1) in
  Sea.screenToWorldTile rect DPR 0.15 (fst client) (snd client).

(** The indices of the [insert] calls that fall into the cell of key [k], in
    call order. *)
Definition idsInCell (h : SpatialHash.t) (k : Z * Z) (calls : list (nat * R * R)) : list nat :=
  (fun c => fst (fst c)) <$>
    filter (fun c => SpatialHash.getKey h (snd (fst c)) (snd c) = k) calls.

(** Every pair recorded in [seen] whose particles are closer than the
    threshold has its connection in the list. *)
Definition seenCovered {Particle : Type} (posX posY : Particle -> R)
    (connectionDistance : R) (particles : list Particle)
    (connections : list Connection) (seen : gset (nat * nat)) : Prop :=
  forall a b p q,
    (a, b) ∈ seen -> particles !! a = Some p -> particles !! b = Some q ->
    distance Particle posX posY p q < connectionDistance ->
    (a, b) ∈ connPair <$> connections.

(** What the loops of the noise constructor leave in the arrays, as
    functions of the array contents: the scratch array after its first loop,
    after the shuffle, and the two tables after the last loop. *)
Definition initBytes : list Z :=
  foldl (fun bs i => Store.u8setAt bs (Some (Z.of_nat i)) (Some (Z.of_nat i)))
        (replicate 256 0%Z) (seq 0 256).

Fixpoint shuffled {N : Type} `{NoiseClass.Number N} (i : nat) (s : N) (bs : list Z)
    : list Z :=
  match i with
  | O => bs
  | S i' =>
      let s' := NoiseClass.rem (NoiseClass.mul s (NoiseClass.ofInt 16807))
                  (NoiseClass.ofInt 2147483647) in
      let j := NoiseClass.toIndex (NoiseClass.rem s' (NoiseClass.ofInt (Z.of_nat i + 1))) in
      let pj := j ≫= JS.get bs in
      let pi := JS.get bs (Z.of_nat i) in
      shuffled i' s'
        (Store.u8setAt (Store.u8setAt bs (Some (Z.of_nat i)) pj) j pi)
  end.

Definition fillStep (bs : list Z) (t : list Z * list (option Noise.Grad)) (i : nat)
    : list Z * list (option Noise.Grad) :=
  let pb := Store.u8setAt (fst t) (Some (Z.of_nat i))
              (JS.get bs (Z.land (Z.of_nat i) 255)) in
  let g := (JS.get pb (Z.of_nat i) ≫= fun v => Some (Z.rem v 12))
             ≫= Store.slotAt (map Some Noise.grad3) in
  (pb, Store.arraySet (snd t) (Z.of_nat i) g).

Definition filled (bs : list Z) : list Z * list (option Noise.Grad) :=
  foldl (fillStep bs) (replicate 512 0%Z, replicate 512 None) (seq 0 512).

(** The instance a seed leads to, whatever the number model of the seed. *)
Definition seeded {N : Type} `{NoiseClass.Number N} (seed : N) : Noise.SimplexNoise :=
  let perm := Noise.permOf (shuffled 255 seed initBytes) in
  Noise.mkNoise perm (map Noise.gradOf perm).

(** The heap [h] holds, next to everything of [h0], an instance [this] under
    construction: its three arrays and the scratch array [p], all of them
    created after [h0]. *)
Record Built (h0 : Store.Heap) (this lp lg l3 p : Store.loc)
    (pb : list Z) (gs : list (option Noise.Grad)) (bs : list Z) (h : Store.Heap)
    : Prop := mkBuilt {
  built_frame : h0 ⊆ h;
  built_new_this : h0 !! this = None;
  built_new_perm : h0 !! lp = None;
  built_new_gradP : h0 !! lg = None;
  built_new_p : h0 !! p = None;
  built_perm_p : lp <> p;
  built_gradP_grad3 : lg <> l3;
  built_this : h !! this = Some (Store.Instance (Some lp) (Some lg) (Some l3));
  built_perm : h !! lp = Some (Store.Uint8Array pb);
  built_gradP : h !! lg = Some (Store.GradArray gs);
  built_grad3 : h !! l3 = Some (Store.GradArray (map Some Noise.grad3));
  built_p : h !! p = Some (Store.Uint8Array bs) }.

(** Total correctness of a heap computation: from [h] it returns, with a
    result and a heap that satisfy [Q]. *)
Definition total {A : Type} (m : Store.M A) (h : Store.Heap)
    (Q : A -> Store.Heap -> Prop) : Prop :=
  exists a h', m h = Some (a, h') /\ Q a h'.

(** A linear blend of two vectors weighted by [w]: the first enters with
    weight [1 - w], the second with weight [w], so that at [w = 1] only the
    second is left. *)
Definition linearBlend (a b : R * R) (w : R) : R * R :=
  (fst a * (1 - w) + fst b * w, snd a * (1 - w) + snd b * w).

(** * Properties *)

(** Reduction of a bind of the option monad whose argument is known. *)
Tactic Notation "obind" := cbv beta iota delta [mbind option_bind].
Tactic Notation "obind" "in" hyp(H) := cbv beta iota delta [mbind option_bind] in H.

(** The tables of an instance are never unfolded by [simpl]. *)
#[global] Arguments Noise.new : simpl never.
#[global] Arguments Noise.permOf : simpl never.
#[global] Arguments FlowField.noise : simpl never.

(** ** Numeric helpers *)

Lemma floor_bound (x : R) : IZR (JS.floor x) <= x < IZR (JS.floor x) + 1.
Proof. apply Zfloor_bound. Qed.

Lemma floor_close (a b : R) :
  Rabs (a - b) < 1 -> (-1 <= JS.floor a - JS.floor b <= 1)%Z.
Proof.
  intros H.
  pose proof (floor_bound a) as [Ha1 Ha2].
  pose proof (floor_bound b) as [Hb1 Hb2].
  apply Rabs_def2 in H as [H1 H2].
  assert (H3 : (JS.floor a - JS.floor b < 2)%Z)
    by (apply lt_IZR; rewrite minus_IZR; lra).
  assert (H4 : (-2 < JS.floor a - JS.floor b)%Z)
    by (apply lt_IZR; rewrite minus_IZR; lra).
  lia.
Qed.

Lemma sqrt_lt_bound (a c : R) : 0 <= a -> sqrt a < c -> a < c * c.
Proof.
  intros Ha H.
  assert (0 <= sqrt a) by apply sqrt_pos.
  rewrite <- (sqrt_sqrt a Ha). nra.
Qed.

Lemma sqrt_of_square (a : R) : 0 <= a -> sqrt (a * a) = a.
Proof. intros. apply sqrt_square; assumption. Qed.

Lemma sum_squares_nonneg (a b : R) : 0 <= a * a + b * b.
Proof. nra. Qed.

(** Two coordinates closer than the cell size fall in the same or in
    adjacent cells. *)
Lemma cell_adjacent (c a b : R) :
  0 < c -> Rabs (a - b) < c ->
  (-1 <= JS.floor (a / c) - JS.floor (b / c) <= 1)%Z.
Proof.
  intros Hc H. apply floor_close.
  replace (a / c - b / c) with ((a - b) / c) by (field; lra).
  unfold Rdiv. rewrite Rabs_mult, (Rabs_right (/ c)).
  - apply Rmult_lt_reg_r with c; [lra|].
    rewrite Rmult_assoc, Rinv_l by lra. lra.
  - left. apply Rinv_0_lt_compat. lra.
Qed.

Lemma dist_coord_bound (dx dy c : R) :
  sqrt (dx * dx + dy * dy) < c -> 0 < c /\ Rabs dx < c /\ Rabs dy < c.
Proof.
  intros H.
  pose proof (sqrt_pos (dx * dx + dy * dy)) as Hs.
  assert (Hc : 0 < c) by lra.
  apply sqrt_lt_bound in H; [|nra].
  repeat split; [lra| |]; apply Rabs_def1; nra.
Qed.

(** ** Spatial hash *)

Section SpatialHashFacts.

Import SpatialHash.

Lemma insert_cellSize h i x y : cellSize (insert h i x y) = cellSize h.
Proof. reflexivity. Qed.

Lemma insertAll_cellSize calls : forall h, cellSize (insertAll h calls) = cellSize h.
Proof.
  induction calls as [|c calls IH]; intros h; [reflexivity|].
  unfold insertAll in *. simpl. rewrite IH. reflexivity.
Qed.

(** What a cell holds after an insert: the new index is appended to its own
    cell, every other cell is untouched. *)
Lemma insert_lookup h i x y k :
  default [] (grid (insert h i x y) !! k) =
  if decide (k = getKey h x y) then default [] (grid h !! k) ++ [i]
  else default [] (grid h !! k).
Proof.
  unfold insert. simpl.
  destruct (decide (k = getKey h x y)) as [->|Hne].
  - rewrite lookup_insert_eq. simpl.
    destruct (grid h !! getKey h x y) eqn:E; simpl.
    + rewrite E. reflexivity.
    + rewrite lookup_insert_eq. reflexivity.
  - rewrite lookup_insert_ne by congruence.
    destruct (grid h !! getKey h x y) eqn:E; [reflexivity|].
    rewrite lookup_insert_ne by congruence. reflexivity.
Qed.

Lemma insert_keeps h i x y k (id : nat) :
  id ∈ default [] (grid h !! k) -> id ∈ default [] (grid (insert h i x y) !! k).
Proof.
  intros H. rewrite insert_lookup. destruct (decide _); [|assumption].
  apply elem_of_app. left. assumption.
Qed.

Lemma insert_here h i x y :
  i ∈ default [] (grid (insert h i x y) !! getKey h x y).
Proof.
  rewrite insert_lookup, decide_True by reflexivity.
  apply elem_of_app. right. apply list_elem_of_singleton. reflexivity.
Qed.

Lemma insertAll_keeps calls : forall h k (id : nat),
  id ∈ default [] (grid h !! k) -> id ∈ default [] (grid (insertAll h calls) !! k).
Proof.
  induction calls as [|c calls IH]; intros h k id H; [assumption|].
  unfold insertAll in *. simpl. apply IH. apply insert_keeps. assumption.
Qed.

(** Every inserted index sits in the cell of its position. *)
Lemma insertAll_stored calls : forall h (id : nat) (x y : R),
  (id, x, y) ∈ calls ->
  id ∈ default [] (grid (insertAll h calls) !! getKey h x y).
Proof.
  induction calls as [|c calls IH]; intros h id x y H.
  - inversion H.
  - apply elem_of_cons in H as [Heq|H].
    + subst c. unfold insertAll. simpl. apply (insertAll_keeps calls). apply insert_here.
    + unfold insertAll in *. simpl.
      specialize (IH (insert h (fst (fst c)) (snd (fst c)) (snd c)) id x y H).
      exact IH.
Qed.

(** Nothing but inserted indices is ever stored. *)
Lemma insertAll_only calls : forall h k (id : nat),
  id ∈ default [] (grid (insertAll h calls) !! k) ->
  id ∈ default [] (grid h !! k) \/ exists x y, (id, x, y) ∈ calls.
Proof.
  induction calls as [|c calls IH]; intros h k id H; [left; assumption|].
  unfold insertAll in H. simpl in H. apply IH in H as [H|(x & y & H)].
  - rewrite insert_lookup in H. destruct (decide _); [|left; assumption].
    apply elem_of_app in H as [H|H]; [left; assumption|].
    apply list_elem_of_singleton in H. subst id. right.
    destruct c as [[i x] y]. exists x, y. left.
  - right. exists x, y. right. assumption.
Qed.

Lemma neighbors_fold (g : gmap (Z * Z) (list nat)) (cx cy : Z) (id : nat) ds : forall acc,
  id ∈ foldl (fun neighbors d =>
                match g !! ((cx + fst d)%Z, (cy + snd d)%Z) with
                | Some cell => neighbors ++ cell
                | None => neighbors
                end) acc ds <->
  id ∈ acc \/ exists d, d ∈ ds /\ id ∈ default [] (g !! ((cx + fst d)%Z, (cy + snd d)%Z)).
Proof.
  induction ds as [|d ds IH]; intros acc; simpl.
  - split; [tauto|]. intros [H|(d & H & _)]; [assumption|inversion H].
  - rewrite IH. split.
    + intros [H|(d' & Hd' & H)].
      * destruct (g !! _) eqn:E.
        -- apply elem_of_app in H as [H|H]; [left; assumption|].
           right. exists d. split; [left|]. rewrite E. assumption.
        -- left. assumption.
      * right. exists d'. split; [right; assumption|assumption].
    + intros [H|(d' & Hd' & H)].
      * left. destruct (g !! _); [apply elem_of_app; left|]; assumption.
      * apply elem_of_cons in Hd' as [->|Hd'].
        -- left. destruct (g !! _) eqn:E; simpl in H; [|inversion H].
           apply elem_of_app. right. assumption.
        -- right. exists d'. split; assumption.
Qed.

(** The query returns exactly the contents of the 3x3 block of cells around
    the cell of the query point. *)
Lemma getPotentialNeighbors_spec h qx qy (id : nat) :
  id ∈ getPotentialNeighbors h qx qy <->
  exists dx dy, (-1 <= dx <= 1)%Z /\ (-1 <= dy <= 1)%Z /\
    id ∈ default [] (grid h !! ((JS.floor (qx / cellSize h) + dx)%Z,
                                (JS.floor (qy / cellSize h) + dy)%Z)).
Proof.
  unfold getPotentialNeighbors. rewrite neighbors_fold. split.
  - intros [H|((dx & dy) & Hd & H)]; [inversion H|].
    exists dx, dy. simpl in H. split; [|split; [|exact H]];
      unfold offsets in Hd; repeat (apply elem_of_cons in Hd as [Hd|Hd];
        [injection Hd as ? ?; lia|]); inversion Hd.
  - intros (dx & dy & Hx & Hy & H). right. exists (dx, dy). split; [|exact H].
    assert (dx = -1 \/ dx = 0 \/ dx = 1)%Z as Hdx by lia.
    assert (dy = -1 \/ dy = 0 \/ dy = 1)%Z as Hdy by lia.
    clear Hx Hy. unfold offsets.
    destruct Hdx as [-> | [-> | ->]], Hdy as [-> | [-> | ->]]; set_solver.
Qed.

End SpatialHashFacts.

(** An inserted index closer to the query point than the cell size is
    returned. *)
Lemma near_index_returned (h : SpatialHash.t) (calls : list (nat * R * R))
    (qx qy : R) (id : nat) (x y : R) :
  (id, x, y) ∈ calls ->
  sqrt ((x - qx) * (x - qx) + (y - qy) * (y - qy)) < SpatialHash.cellSize h ->
  id ∈ SpatialHash.getPotentialNeighbors
         (SpatialHash.insertAll (SpatialHash.clear h) calls) qx qy.
Proof.
  intros Hin Hd.
  apply dist_coord_bound in Hd as (Hc & Hx & Hy).
  apply getPotentialNeighbors_spec.
  rewrite insertAll_cellSize. simpl.
  exists (JS.floor (x / SpatialHash.cellSize h) - JS.floor (qx / SpatialHash.cellSize h))%Z,
         (JS.floor (y / SpatialHash.cellSize h) - JS.floor (qy / SpatialHash.cellSize h))%Z.
  split; [apply cell_adjacent; assumption|].
  split; [apply cell_adjacent; assumption|].
  pose proof (insertAll_stored calls (SpatialHash.clear h) id x y Hin) as H.
  unfold SpatialHash.getKey in H. simpl in H.
  match goal with
  | H : _ ∈ default [] (_ !! ?k) |- _ ∈ default [] (_ !! ?k') =>
      replace k' with k; [exact H|f_equal; lia]
  end.
Qed.

(** C3.  After a [clear()] and any sequence of [insert] calls, every
    inserted index whose Euclidean distance to the query point is below the
    cell size is in the list returned by [getPotentialNeighbors]; with
    nothing inserted the list is empty. *)
Theorem spatial_index_never_misses (h : SpatialHash.t)
    (calls : list (nat * R * R)) (qx qy : R) :
  (forall id x y,
     (id, x, y) ∈ calls ->
     sqrt ((x - qx) * (x - qx) + (y - qy) * (y - qy)) < SpatialHash.cellSize h ->
     id ∈ SpatialHash.getPotentialNeighbors
            (SpatialHash.insertAll (SpatialHash.clear h) calls) qx qy)
  /\ SpatialHash.getPotentialNeighbors (SpatialHash.clear h) qx qy = [].
Proof.
  split; [|reflexivity].
  intros id x y. apply near_index_returned.
Qed.

(** ** Spatial hash: contents of the index *)

Section SpatialHashContents.

Import SpatialHash.

(** A cell holds what it held before, followed by the indices inserted into
    it, in call order. *)
Lemma insertAll_cell calls : forall h k,
  default [] (grid (insertAll h calls) !! k) =
  default [] (grid h !! k) ++ idsInCell h k calls.
Proof.
  induction calls as [|[[i x] y] calls IH]; intros h k.
  - unfold idsInCell. simpl. rewrite app_nil_r. reflexivity.
  - change (insertAll h ((i, x, y) :: calls)) with (insertAll (insert h i x y) calls).
    rewrite IH, insert_lookup. unfold idsInCell.
    change (getKey (insert h i x y)) with (getKey h).
    rewrite filter_cons. cbn [fst snd].
    destruct (decide (k = getKey h x y)) as [->|Hne].
    + rewrite decide_True by reflexivity. rewrite fmap_cons, <- app_assoc. reflexivity.
    + rewrite decide_False by congruence. reflexivity.
Qed.

Lemma neighbors_concat (g : gmap (Z * Z) (list nat)) (cx cy : Z) ds : forall acc,
  foldl (fun neighbors d =>
           match g !! ((cx + fst d)%Z, (cy + snd d)%Z) with
           | Some cell => neighbors ++ cell
           | None => neighbors
           end) acc ds
  = acc ++ concat ((fun d => default [] (g !! ((cx + fst d)%Z, (cy + snd d)%Z))) <$> ds).
Proof.
  induction ds as [|d ds IH]; intros acc; simpl.
  - rewrite app_nil_r. reflexivity.
  - rewrite IH. destruct (g !! _); simpl.
    + rewrite <- app_assoc. reflexivity.
    + reflexivity.
Qed.

Lemma idsInCell_elem h k calls (id : nat) :
  id ∈ idsInCell h k calls <-> exists x y, (id, x, y) ∈ calls /\ getKey h x y = k.
Proof.
  unfold idsInCell. rewrite list_elem_of_fmap. split.
  - intros ([[i x] y] & -> & Hc). apply list_elem_of_filter in Hc as [Hk Hc].
    exists x, y. auto.
  - intros (x & y & Hc & Hk). exists (id, x, y). split; [reflexivity|].
    apply list_elem_of_filter. auto.
Qed.

Lemma idsInCell_NoDup h k calls :
  NoDup ((fun c => fst (fst c)) <$> calls) -> NoDup (idsInCell h k calls).
Proof.
  unfold idsInCell. induction calls as [|c calls IH]; intros H; [constructor|].
  rewrite fmap_cons in H. apply NoDup_cons in H as [Hc H].
  rewrite filter_cons. destruct (decide _); [|apply IH, H].
  rewrite fmap_cons. apply NoDup_cons. split; [|apply IH, H].
  intros Hin. apply Hc. apply list_elem_of_fmap in Hin as (c' & E & Hc').
  apply list_elem_of_filter in Hc' as [_ Hc'].
  apply list_elem_of_fmap. exists c'. auto.
Qed.

Lemma idsInCell_disjoint h k k' calls (id : nat) :
  NoDup ((fun c => fst (fst c)) <$> calls) -> k <> k' ->
  id ∈ idsInCell h k calls -> id ∉ idsInCell h k' calls.
Proof.
  intros Hnd Hne H H'.
  apply idsInCell_elem in H as (x & y & Hc & Hk).
  apply idsInCell_elem in H' as (x' & y' & Hc' & Hk').
  assert (E : (id, x, y) = (id, x', y')).
  { apply list_elem_of_lookup in Hc as [n Hn]. apply list_elem_of_lookup in Hc' as [n' Hn'].
    assert (n = n') as <-.
    { eapply NoDup_lookup; [exact Hnd| |]; rewrite list_lookup_fmap.
      - rewrite Hn. reflexivity.
      - rewrite Hn'. reflexivity. }
    congruence. }
  injection E as <- <-. congruence.
Qed.

Lemma concat_cells_NoDup h calls (ks : list (Z * Z)) :
  NoDup ((fun c => fst (fst c)) <$> calls) -> NoDup ks ->
  NoDup (concat ((fun k => idsInCell h k calls) <$> ks)).
Proof.
  intros Hnd. induction ks as [|k ks IH]; intros Hks; [constructor|].
  apply NoDup_cons in Hks as [Hk Hks]. simpl. apply NoDup_app.
  split; [apply idsInCell_NoDup, Hnd|]. split; [|apply IH, Hks].
  intros id Hid Hin. apply list_elem_of_In, in_concat in Hin as (l & Hin & Hl).
  apply list_elem_of_In in Hin, Hl.
  apply list_elem_of_fmap in Hin as (k' & -> & Hk').
  eapply (idsInCell_disjoint h k k'); eauto. intros ->. contradiction.
Qed.

End SpatialHashContents.

(** X1.  After a [clear()] and a sequence of [insert] calls a query returns,
    for the nine cells of the 3x3 block around the cell of the query point
    in scan order, the indices inserted into that cell in call order:
    nothing else, nothing missing. *)
Theorem neighbors_are_block_contents (h : SpatialHash.t)
    (calls : list (nat * R * R)) (qx qy : R) :
  let cx := JS.floor (qx / SpatialHash.cellSize h) in
  let cy := JS.floor (qy / SpatialHash.cellSize h) in
  SpatialHash.getPotentialNeighbors
    (SpatialHash.insertAll (SpatialHash.clear h) calls) qx qy
  = concat ((fun d => idsInCell h ((cx + fst d)%Z, (cy + snd d)%Z) calls)
              <$> SpatialHash.offsets).
Proof.
  intros cx cy. unfold SpatialHash.getPotentialNeighbors.
  rewrite neighbors_concat, insertAll_cellSize, app_nil_l.
  cbn [SpatialHash.cellSize SpatialHash.clear]. fold cx cy.
  f_equal. apply list_fmap_ext. intros _ d _.
  rewrite insertAll_cell. cbn [SpatialHash.grid SpatialHash.clear].
  rewrite lookup_empty. reflexivity.
Qed.

(** X2.  When every index is inserted at most once per [clear()] cycle, a
    query returns no index twice. *)
Theorem neighbors_without_duplicates (h : SpatialHash.t)
    (calls : list (nat * R * R)) (qx qy : R)
    (Hids : NoDup ((fun c => fst (fst c)) <$> calls)) :
  NoDup (SpatialHash.getPotentialNeighbors
           (SpatialHash.insertAll (SpatialHash.clear h) calls) qx qy).
Proof.
  rewrite neighbors_are_block_contents. cbv zeta.
  set (cx := JS.floor _). set (cy := JS.floor _).
  rewrite (list_fmap_compose (fun d => ((cx + fst d)%Z, (cy + snd d)%Z))
             (fun k => idsInCell h k calls)).
  apply concat_cells_NoDup; [exact Hids|].
  apply NoDup_fmap_2.
  - intros [a b] [a' b'] E. injection E as E1 E2. simpl in *. f_equal; lia.
  - apply (bool_decide_unpack _). vm_compute. exact I.
Qed.

Lemma neighbors_without_duplicates_witness :
  NoDup ((fun c => fst (fst c)) <$> [(0%nat, 0.2, 0.2); (1%nat, 0.25, 0.2)]) /\
  NoDup (SpatialHash.getPotentialNeighbors
           (SpatialHash.insertAll (SpatialHash.clear (SpatialHash.new 0.1))
              [(0%nat, 0.2, 0.2); (1%nat, 0.25, 0.2)]) 0.2 0.2).
Proof.
  assert (H : NoDup ((fun c => fst (fst c)) <$> [(0%nat, 0.2, 0.2); (1%nat, 0.25, 0.2)])).
  { simpl. apply NoDup_cons. split; [|apply NoDup_singleton].
    intros Hin. apply list_elem_of_singleton in Hin. discriminate. }
  split; [exact H|].
  exact (neighbors_without_duplicates (SpatialHash.new 0.1) _ 0.2 0.2 H).
Defined.

(** X3.  The index over-returns only from nearby: every returned index was
    inserted at a position less than two cell sizes away from the query
    point in each coordinate. *)
Theorem neighbors_within_two_cells (h : SpatialHash.t)
    (calls : list (nat * R * R)) (qx qy : R) (id : nat)
    (Hc : 0 < SpatialHash.cellSize h)
    (Hid : id ∈ SpatialHash.getPotentialNeighbors
                  (SpatialHash.insertAll (SpatialHash.clear h) calls) qx qy) :
  exists x y, (id, x, y) ∈ calls /\
    Rabs (x - qx) < 2 * SpatialHash.cellSize h /\
    Rabs (y - qy) < 2 * SpatialHash.cellSize h.
Proof.
  apply getPotentialNeighbors_spec in Hid as (dx & dy & Hdx & Hdy & Hid).
  rewrite insertAll_cellSize in Hid. cbn [SpatialHash.cellSize SpatialHash.clear] in Hid.
  rewrite insertAll_cell in Hid. cbn [SpatialHash.grid SpatialHash.clear] in Hid.
  rewrite lookup_empty in Hid. simpl in Hid.
  apply idsInCell_elem in Hid as (x & y & Hin & Hk).
  exists x, y. split; [exact Hin|].
  unfold SpatialHash.getKey in Hk. cbn [SpatialHash.cellSize SpatialHash.clear] in Hk.
  injection Hk as Hx Hy.
  set (c := SpatialHash.cellSize h) in *.
  assert (near : forall a b d, (-1 <= d <= 1)%Z ->
            JS.floor (a / c) = (JS.floor (b / c) + d)%Z -> Rabs (a - b) < 2 * c).
  { intros a b d Hd E.
    pose proof (floor_bound (a / c)) as [A1 A2]. pose proof (floor_bound (b / c)) as [B1 B2].
    rewrite E, plus_IZR in A1, A2.
    assert (-1 <= IZR d <= 1) by (split; apply IZR_le; lia).
    assert (Hq : -2 < a / c - b / c < 2) by lra.
    replace (a / c - b / c) with ((a - b) / c) in Hq by (field; lra).
    assert (E2 : a - b = (a - b) / c * c) by (field; lra).
    apply Rabs_def1; rewrite E2; nra. }
  split; [exact (near x qx dx Hdx Hx)|exact (near y qy dy Hdy Hy)].
Qed.

Lemma neighbors_within_two_cells_witness :
  let h := SpatialHash.new 1 in
  0 < SpatialHash.cellSize h /\
  exists x y, (7%nat, x, y) ∈ [(7%nat, 0.5, 0.5)] /\
    Rabs (x - 0.25) < 2 * SpatialHash.cellSize h /\
    Rabs (y - 0.75) < 2 * SpatialHash.cellSize h.
Proof.
  intros h.
  assert (Hc : 0 < SpatialHash.cellSize h) by (simpl; lra).
  split; [exact Hc|].
  apply (neighbors_within_two_cells h [(7%nat, 0.5, 0.5)] 0.25 0.75 7 Hc).
  apply near_index_returned with (x := 0.5) (y := 0.5).
  - left.
  - simpl. replace ((0.5 - 0.25) * (0.5 - 0.25) + (0.5 - 0.75) * (0.5 - 0.75)) with 0.125 by lra.
    apply Rsqr_incrst_0; [|apply sqrt_pos|lra].
    unfold Rsqr. rewrite sqrt_sqrt; lra.
Defined.

(** X4.  Insert-then-query round trip on any index, cleared or not, with
    any cell size: a query at the position an index was inserted at returns
    that index, whatever was inserted before or after. *)
Theorem inserted_index_found_at_its_position (h : SpatialHash.t)
    (before after : list (nat * R * R)) (id : nat) (x y : R) :
  id ∈ SpatialHash.getPotentialNeighbors
         (SpatialHash.insertAll h (before ++ (id, x, y) :: after)) x y.
Proof.
  apply getPotentialNeighbors_spec. exists 0%Z, 0%Z.
  split; [lia|]. split; [lia|].
  rewrite insertAll_cellSize, !Z.add_0_r, insertAll_cell.
  apply elem_of_app. right. apply idsInCell_elem. exists x, y.
  split; [|reflexivity]. apply elem_of_app. right. left.
Qed.


(** ** Noise tables *)

Section NoiseTables.

Import Noise.

Lemma toUint8_byte v : byte (toUint8 v).
Proof.
  unfold byte, toUint8. destruct v as [n|]; [|lia].
  pose proof (Z.mod_pos_bound n 256). lia.
Qed.







Lemma permOf_length p : length (permOf p) = 512%nat.
Proof. unfold permOf. rewrite List.length_map, List.length_seq. reflexivity. Qed.

Lemma permOf_bytes p : Forall byte (permOf p).
Proof.
  unfold permOf. apply Forall_forall. intros v Hv.
  apply list_elem_of_In, in_map_iff in Hv as (i & <- & _). apply toUint8_byte.
Qed.

Lemma new_perm_length seed : length (perm (new seed)) = 512%nat.
Proof. apply permOf_length. Qed.

Lemma new_gradP_length seed : length (gradP (new seed)) = 512%nat.
Proof. unfold new. cbn [gradP]. rewrite List.length_map. apply permOf_length. Qed.

Lemma new_perm_bytes seed : Forall byte (perm (new seed)).
Proof. apply permOf_bytes. Qed.

Lemma get_in_range {A} (a : list A) (i : Z) :
  (0 <= i < Z.of_nat (length a))%Z -> exists v, JS.get a i = Some v /\ v ∈ a.
Proof.
  intros H. unfold JS.get. rewrite (proj2 (Z.leb_le 0 i)) by lia.
  destruct (lookup_lt_is_Some_2 a (Z.to_nat i)) as [v Hv]; [lia|].
  exists v. split; [assumption|]. eapply list_elem_of_lookup_2, Hv.
Qed.

Lemma get_out_of_range {A} (a : list A) (i : Z) :
  (i < 0 \/ Z.of_nat (length a) <= i)%Z -> JS.get a i = None.
Proof.
  intros H. unfold JS.get. destruct (0 <=? i)%Z eqn:E; [|reflexivity].
  apply Z.leb_le in E. apply lookup_ge_None_2. lia.
Qed.

Lemma land255_byte (i : Z) : byte (Z.land i 255).
Proof.
  unfold byte.
  assert (E : Z.land i 255 = (i mod 256)%Z)
    by (change 255%Z with (Z.ones 8); rewrite Z.land_ones by lia; reflexivity).
  rewrite E. pose proof (Z.mod_pos_bound i 256). lia.
Qed.

(** The table walk of one corner stays inside both tables, whatever array
    the tables were filled from. *)
Lemma tables_gradAt_in_bounds (p : list Z) (ii jj kk i1 j1 k1 : Z) :
  let self := mkNoise (permOf p) (map gradOf (permOf p)) in
  byte ii -> byte jj -> byte kk ->
  (0 <= i1 <= 1)%Z -> (0 <= j1 <= 1)%Z -> (0 <= k1 <= 1)%Z ->
  exists pk pj g,
    (0 <= kk + k1 <= 511)%Z /\ JS.get (perm self) (kk + k1) = Some pk /\ byte pk /\
    (0 <= jj + j1 + pk <= 511)%Z /\ JS.get (perm self) (jj + j1 + pk) = Some pj /\
    byte pj /\
    (0 <= ii + i1 + pj <= 511)%Z /\ JS.get (gradP self) (ii + i1 + pj) = Some g /\
    gradAt self ii jj kk i1 j1 k1 = Some g.
Proof.
  intros self. unfold byte. intros Hi Hj Hk Hi1 Hj1 Hk1.
  assert (Hlp : length (perm self) = 512%nat) by apply permOf_length.
  assert (Hlg : length (gradP self) = 512%nat)
    by (subst self; cbn [gradP]; rewrite List.length_map; apply permOf_length).
  pose proof (permOf_bytes p : Forall byte (perm self)) as Hb.
  rewrite Forall_forall in Hb.
  destruct (get_in_range (perm self) (kk + k1)) as (pk & Epk & Hpk);
    [rewrite Hlp; lia|].
  apply Hb in Hpk. unfold byte in Hpk.
  destruct (get_in_range (perm self) (jj + j1 + pk)) as (pj & Epj & Hpj);
    [rewrite Hlp; lia|].
  apply Hb in Hpj. unfold byte in Hpj.
  destruct (get_in_range (gradP self) (ii + i1 + pj)) as (g & Eg & _);
    [rewrite Hlg; lia|].
  exists pk, pj, g. repeat split; try lia; try assumption.
  unfold gradAt. rewrite Epk. obind. rewrite Epj. obind. exact Eg.
Qed.

Lemma gradAt_in_bounds seed (ii jj kk i1 j1 k1 : Z) :
  byte ii -> byte jj -> byte kk ->
  (0 <= i1 <= 1)%Z -> (0 <= j1 <= 1)%Z -> (0 <= k1 <= 1)%Z ->
  exists pk pj g,
    (0 <= kk + k1 <= 511)%Z /\ JS.get (perm (new seed)) (kk + k1) = Some pk /\ byte pk /\
    (0 <= jj + j1 + pk <= 511)%Z /\ JS.get (perm (new seed)) (jj + j1 + pk) = Some pj /\
    byte pj /\
    (0 <= ii + i1 + pj <= 511)%Z /\ JS.get (gradP (new seed)) (ii + i1 + pj) = Some g /\
    gradAt (new seed) ii jj kk i1 j1 k1 = Some g.
Proof. exact (tables_gradAt_in_bounds (shuffle 255 seed identity256) ii jj kk i1 j1 k1). Qed.

Lemma simplexOffsets_bits x0 y0 z0 :
  let '(i1, j1, k1, i2, j2, k2) := simplexOffsets x0 y0 z0 in
  (0 <= i1 <= 1 /\ 0 <= j1 <= 1 /\ 0 <= k1 <= 1 /\
   0 <= i2 <= 1 /\ 0 <= j2 <= 1 /\ 0 <= k2 <= 1)%Z.
Proof.
  unfold simplexOffsets.
  repeat match goal with |- context [if ?c then _ else _] => destruct c end; lia.
Qed.

(** Every gradient stored in [gradP] is one of the twelve of [grad3]. *)
Lemma gradOf_grad3 v : byte v -> gradOf v ∈ grad3.
Proof.
  intros Hv. unfold gradOf. apply list_elem_of_In, nth_In.
  unfold byte in Hv. pose proof (Z.rem_bound_pos v 12). simpl. lia.
Qed.

Lemma new_gradP_grad3 seed g : g ∈ gradP (new seed) -> g ∈ grad3.
Proof.
  unfold new. cbn [gradP]. intros H.
  apply list_elem_of_In, in_map_iff in H as (v & <- & Hv).
  apply gradOf_grad3. pose proof (permOf_bytes (shuffle 255 seed identity256)) as Hb.
  rewrite Forall_forall in Hb. apply Hb, list_elem_of_In, Hv.
Qed.

Lemma gradAt_grad3 seed ii jj kk i1 j1 k1 g :
  gradAt (new seed) ii jj kk i1 j1 k1 = Some g -> g ∈ grad3.
Proof.
  unfold gradAt. intros H.
  destruct (JS.get (perm (new seed)) (kk + k1)) as [pk|]; [|discriminate]. obind in H.
  destruct (JS.get (perm (new seed)) (jj + j1 + pk)) as [pj|]; [|discriminate]. obind in H.
  apply (new_gradP_grad3 seed). unfold JS.get in H.
  destruct (0 <=? ii + i1 + pj)%Z; [|discriminate].
  eapply list_elem_of_lookup_2, H.
Qed.

End NoiseTables.

(** C10.  Every table access of [noise3D] is in bounds: both tables have
    length 512, every entry of [perm] is at most 255, the lattice indices
    masked with [& 255] lie in [0, 255], and for offsets of at most 1 each
    index of the walk [gradP[ii + i1 + perm[jj + j1 + perm[kk + k1]]]] is at
    most 511, so each read finds an element. *)
Theorem noise3D_table_access_in_bounds (seed i j k i1 j1 k1 : Z)
    (Hi1 : (0 <= i1 <= 1)%Z) (Hj1 : (0 <= j1 <= 1)%Z) (Hk1 : (0 <= k1 <= 1)%Z) :
  let self := Noise.new seed in
  let ii := Z.land i 255 in
  let jj := Z.land j 255 in
  let kk := Z.land k 255 in
  length (Noise.perm self) = 512%nat /\ length (Noise.gradP self) = 512%nat /\
  Forall (fun v => 0 <= v <= 255)%Z (Noise.perm self) /\
  (0 <= ii <= 255)%Z /\ (0 <= jj <= 255)%Z /\ (0 <= kk <= 255)%Z /\
  exists pk pj g,
    (0 <= kk + k1 <= 511)%Z /\ JS.get (Noise.perm self) (kk + k1) = Some pk /\
    (0 <= jj + j1 + pk <= 511)%Z /\ JS.get (Noise.perm self) (jj + j1 + pk) = Some pj /\
    (0 <= ii + i1 + pj <= 511)%Z /\ JS.get (Noise.gradP self) (ii + i1 + pj) = Some g /\
    Noise.gradAt self ii jj kk i1 j1 k1 = Some g.
Proof.
  intros self ii jj kk.
  split; [apply new_perm_length|]. split; [apply new_gradP_length|].
  split; [apply new_perm_bytes|].
  split; [apply land255_byte|]. split; [apply land255_byte|]. split; [apply land255_byte|].
  destruct (gradAt_in_bounds seed ii jj kk i1 j1 k1) as (pk & pj & g & H);
    try apply land255_byte; try assumption.
  exists pk, pj, g. tauto.
Qed.

Lemma noise3D_table_access_in_bounds_witness :
  (0 <= 1 <= 1)%Z /\ (0 <= 0 <= 1)%Z /\ (0 <= 1 <= 1)%Z /\
  exists pk pj g,
    (0 <= Z.land (-3) 255 + 1 <= 511)%Z /\
    JS.get (Noise.perm (Noise.new 12345)) (Z.land (-3) 255 + 1) = Some pk /\
    (0 <= Z.land 700 255 + 0 + pk <= 511)%Z /\
    JS.get (Noise.perm (Noise.new 12345)) (Z.land 700 255 + 0 + pk) = Some pj /\
    (0 <= Z.land 5 255 + 1 + pj <= 511)%Z /\
    JS.get (Noise.gradP (Noise.new 12345)) (Z.land 5 255 + 1 + pj) = Some g /\
    Noise.gradAt (Noise.new 12345) (Z.land 5 255) (Z.land 700 255) (Z.land (-3) 255) 1 0 1
      = Some g.
Proof.
  split; [lia|]. split; [lia|]. split; [lia|].
  apply (noise3D_table_access_in_bounds 12345 5 700 (-3) 1 0 1); lia.
Defined.

(** ** Noise evaluation *)

Section NoiseCalls.

Import Noise.

(** [noise3D] finds every table entry it reads: it returns a number for every
    input. *)
Lemma tables_noise3D_total (p : list Z) x y z :
  exists v, noise3D (mkNoise (permOf p) (map gradOf (permOf p))) x y z = Some v.
Proof.
  unfold noise3D.
  match goal with |- context [simplexOffsets ?a ?b ?c] =>
    pose proof (simplexOffsets_bits a b c) as Hb;
    destruct (simplexOffsets a b c) as [[[[[i1 j1] k1] i2] j2] k2]
  end.
  destruct Hb as (H1 & H2 & H3 & H4 & H5 & H6).
  repeat match goal with
  | |- context [gradAt ?self ?ii ?jj ?kk ?a ?b ?c] =>
      let g := fresh "g" in let E := fresh "E" in
      destruct (tables_gradAt_in_bounds p ii jj kk a b c)
        as (? & ? & g & ? & ? & ? & ? & ? & ? & ? & ? & E);
      [apply land255_byte | apply land255_byte | apply land255_byte | lia | lia | lia |];
      rewrite E; obind
  end.
  eexists. reflexivity.
Qed.

Lemma noise3D_total seed x y z : exists v, noise3D (new seed) x y z = Some v.
Proof. exact (tables_noise3D_total (shuffle 255 seed identity256) x y z). Qed.

End NoiseCalls.
(** ** The permutation table and the lattice of the noise *)

Section NoisePermutation.

Import Noise.












End NoisePermutation.



Section NoiseLattice.

Import Noise.

Lemma corner_outside g x y z :
  0.6 - x * x - y * y - z * z < 0 -> corner g x y z = 0.
Proof.
  intros H. unfold corner. cbv zeta.
  destruct (Rge_dec _ 0) as [H'|_]; [lra|reflexivity].
Qed.

Lemma corner_origin g : corner g 0 0 0 = 0.
Proof. unfold corner. cbv zeta. destruct (Rge_dec _ 0); ring. Qed.

Lemma simplexOffsets_origin : simplexOffsets 0 0 0 = (1, 0, 0, 1, 1, 0)%Z.
Proof.
  unfold simplexOffsets.
  destruct (Rge_dec 0 0) as [_|H]; [reflexivity|lra].
Qed.


End NoiseLattice.


(** X16.  At every vertex of the simplex lattice (the input
    [(i - t, j - t, k - t)] with [t = (i+j+k)/6] for integers i, j, k) the
    noise is exactly 0, whatever the seed: the vertex's own corner has a
    zero offset and the three other corners of the cell are out of range. *)
Theorem noise3D_zero_at_lattice (seed i j k : Z) :
  let t := IZR (i + j + k) / 6 in
  Noise.noise3D (Noise.new seed) (IZR i - t) (IZR j - t) (IZR k - t) = Some 0.
Proof.
  intros t.
  assert (Et : t = (IZR i + IZR j + IZR k) / 6)
    by (unfold t; rewrite !plus_IZR; reflexivity).
  clearbody t.
  unfold Noise.noise3D. cbv zeta.
  set (x := IZR i - t). set (y := IZR j - t). set (z := IZR k - t).
  replace (JS.floor (x + (x + y + z) * (1 / 3))) with i
    by (symmetry; apply Zfloor_eq; unfold x, y, z; lra).
  replace (JS.floor (y + (x + y + z) * (1 / 3))) with j
    by (symmetry; apply Zfloor_eq; unfold x, y, z; lra).
  replace (JS.floor (z + (x + y + z) * (1 / 3))) with k
    by (symmetry; apply Zfloor_eq; unfold x, y, z; lra).
  replace (x - (IZR i - (IZR i + IZR j + IZR k) * (1 / 6))) with 0
    by (unfold x; lra).
  replace (y - (IZR j - (IZR i + IZR j + IZR k) * (1 / 6))) with 0
    by (unfold y; lra).
  replace (z - (IZR k - (IZR i + IZR j + IZR k) * (1 / 6))) with 0
    by (unfold z; lra).
  rewrite simplexOffsets_origin.
  destruct (gradAt_in_bounds seed (Z.land i 255) (Z.land j 255) (Z.land k 255) 0 0 0)
    as (? & ? & g0 & _ & _ & _ & _ & _ & _ & _ & _ & E0);
    try apply land255_byte; try lia.
  destruct (gradAt_in_bounds seed (Z.land i 255) (Z.land j 255) (Z.land k 255) 1 0 0)
    as (? & ? & g1 & _ & _ & _ & _ & _ & _ & _ & _ & E1);
    try apply land255_byte; try lia.
  destruct (gradAt_in_bounds seed (Z.land i 255) (Z.land j 255) (Z.land k 255) 1 1 0)
    as (? & ? & g2 & _ & _ & _ & _ & _ & _ & _ & _ & E2);
    try apply land255_byte; try lia.
  destruct (gradAt_in_bounds seed (Z.land i 255) (Z.land j 255) (Z.land k 255) 1 1 1)
    as (? & ? & g3 & _ & _ & _ & _ & _ & _ & _ & _ & E3);
    try apply land255_byte; try lia.
  rewrite E0. obind. rewrite E1. obind. rewrite E2. obind. rewrite E3. obind.
  rewrite corner_origin.
  rewrite !corner_outside by lra.
  f_equal. lra.
Qed.
(** ** The noise class on the heap *)

Section HeapRules.

Import Store.

Lemma total_ret {A} (a : A) h (Q : A -> Heap -> Prop) : Q a h -> total (ret a) h Q.
Proof. intros HQ. exists a, h. split; [reflexivity|exact HQ]. Qed.

Lemma total_bind {A B} (m : M A) (f : A -> M B) h (Q : B -> Heap -> Prop) :
  total m h (fun a h' => total (f a) h' Q) -> total (bind m f) h Q.
Proof.
  intros (a & h' & E & b & h'' & E' & HQ). exists b, h''.
  split; [|exact HQ]. unfold bind. rewrite E. exact E'.
Qed.

Lemma total_weaken {A} (m : M A) h (Q Q' : A -> Heap -> Prop) :
  total m h Q -> (forall a h', Q a h' -> Q' a h') -> total m h Q'.
Proof. intros (a & h' & E & HQ) HI. exists a, h'. split; [exact E|apply HI, HQ]. Qed.

Lemma total_alloc o h (Q : loc -> Heap -> Prop) :
  (forall l, h !! l = None -> Q l (<[l := o]> h)) -> total (alloc o) h Q.
Proof.
  intros HQ. exists (fresh (dom h)), (<[fresh (dom h) := o]> h).
  split; [reflexivity|]. apply HQ, not_elem_of_dom, is_fresh.
Qed.

Lemma total_load l o h (Q : Obj -> Heap -> Prop) :
  h !! l = Some o -> Q o h -> total (load l) h Q.
Proof. intros E HQ. exists o, h. split; [|exact HQ]. unfold load. rewrite E. reflexivity. Qed.

Lemma total_store l o h (Q : unit -> Heap -> Prop) :
  Q tt (<[l := o]> h) -> total (store l o) h Q.
Proof. intros HQ. exists tt, (<[l := o]> h). split; [reflexivity|exact HQ]. Qed.

Lemma total_getU8 a i bs h (Q : option Z -> Heap -> Prop) :
  h !! a = Some (Uint8Array bs) -> Q (i ≫= JS.get bs) h -> total (getU8 a i) h Q.
Proof.
  intros E HQ. apply total_bind, (total_load _ _ _ _ E), total_ret, HQ.
Qed.

Lemma total_setU8 a i v bs h (Q : unit -> Heap -> Prop) :
  h !! a = Some (Uint8Array bs) ->
  Q tt (<[a := Uint8Array (u8setAt bs i v)]> h) -> total (setU8 a i v) h Q.
Proof.
  intros E HQ. apply total_bind, (total_load _ _ _ _ E), total_store, HQ.
Qed.

Lemma total_getSlot a i gs h (Q : option Noise.Grad -> Heap -> Prop) :
  h !! a = Some (GradArray gs) -> Q (i ≫= slotAt gs) h -> total (getSlot a i) h Q.
Proof.
  intros E HQ. apply total_bind, (total_load _ _ _ _ E), total_ret, HQ.
Qed.

Lemma total_setSlot a i g gs h (Q : unit -> Heap -> Prop) :
  h !! a = Some (GradArray gs) ->
  Q tt (<[a := GradArray (arraySet gs i g)]> h) -> total (setSlot a i g) h Q.
Proof.
  intros E HQ. apply total_bind, (total_load _ _ _ _ E), total_store, HQ.
Qed.

Lemma total_getPerm this lp g g3 h (Q : loc -> Heap -> Prop) :
  h !! this = Some (Instance (Some lp) g g3) -> Q lp h -> total (getPerm this) h Q.
Proof.
  intros E HQ. apply total_bind, (total_load _ _ _ _ E), total_ret, HQ.
Qed.

Lemma total_getGradP this p lg g3 h (Q : loc -> Heap -> Prop) :
  h !! this = Some (Instance p (Some lg) g3) -> Q lg h -> total (getGradP this) h Q.
Proof.
  intros E HQ. apply total_bind, (total_load _ _ _ _ E), total_ret, HQ.
Qed.

Lemma total_getGrad3 this p g l3 h (Q : loc -> Heap -> Prop) :
  h !! this = Some (Instance p g (Some l3)) -> Q l3 h -> total (getGrad3 this) h Q.
Proof.
  intros E HQ. apply total_bind, (total_load _ _ _ _ E), total_ret, HQ.
Qed.

Lemma total_setPerm this l p g g3 h (Q : unit -> Heap -> Prop) :
  h !! this = Some (Instance p g g3) ->
  Q tt (<[this := Instance (Some l) g g3]> h) -> total (setPerm this l) h Q.
Proof.
  intros E HQ. apply total_bind, (total_load _ _ _ _ E), total_store, HQ.
Qed.

Lemma total_setGradP this l p g g3 h (Q : unit -> Heap -> Prop) :
  h !! this = Some (Instance p g g3) ->
  Q tt (<[this := Instance p (Some l) g3]> h) -> total (setGradP this l) h Q.
Proof.
  intros E HQ. apply total_bind, (total_load _ _ _ _ E), total_store, HQ.
Qed.

Lemma total_setGrad3 this l p g g3 h (Q : unit -> Heap -> Prop) :
  h !! this = Some (Instance p g g3) ->
  Q tt (<[this := Instance p g (Some l)]> h) -> total (setGrad3 this l) h Q.
Proof.
  intros E HQ. apply total_bind, (total_load _ _ _ _ E), total_store, HQ.
Qed.

(** A loop keeps an invariant that each round of its body keeps; the state
    of the invariant is folded over the values of the loop variable. *)
Lemma total_forEach {A S} (Inv : S -> Heap -> Prop) (step : S -> A -> S)
    (body : A -> M unit) (xs : list A) :
  (forall st x h, x ∈ xs -> Inv st h ->
     total (body x) h (fun _ h' => Inv (step st x) h')) ->
  forall st h, Inv st h ->
    total (forEach xs body) h (fun _ h' => Inv (foldl step st xs) h').
Proof.
  induction xs as [|x xs IH]; intros Hbody st h HI.
  - apply total_ret, HI.
  - cbn [forEach foldl]. apply total_bind.
    eapply total_weaken; [apply Hbody; [left|exact HI]|].
    intros u h' HI'. apply IH; [|exact HI'].
    intros st' x' h'' Hx. apply Hbody. right. exact Hx.
Qed.

End HeapRules.

Section Construction.

Import Store NoiseClass.

Ltac built_field :=
  first [ assumption
        | apply insert_subseteq_r; assumption
        | apply lookup_insert_eq
        | rewrite lookup_insert_ne by congruence; assumption ].

(** Stores into the three arrays of an instance under construction. *)
Lemma Built_set_p h0 this lp lg l3 p pb gs bs bs' h :
  Built h0 this lp lg l3 p pb gs bs h ->
  Built h0 this lp lg l3 p pb gs bs' (<[p := Uint8Array bs']> h).
Proof.
  intros [].
  assert (this <> p) by congruence.
  assert (lg <> p) by congruence.
  assert (l3 <> p) by congruence.
  constructor; built_field.
Qed.

Lemma Built_set_perm h0 this lp lg l3 p pb pb' gs bs h :
  Built h0 this lp lg l3 p pb gs bs h ->
  Built h0 this lp lg l3 p pb' gs bs (<[lp := Uint8Array pb']> h).
Proof.
  intros [].
  assert (this <> lp) by congruence.
  assert (lg <> lp) by congruence.
  assert (l3 <> lp) by congruence.
  constructor; built_field.
Qed.

Lemma Built_set_gradP h0 this lp lg l3 p pb gs gs' bs h :
  Built h0 this lp lg l3 p pb gs bs h ->
  Built h0 this lp lg l3 p pb gs' bs (<[lg := GradArray gs']> h).
Proof.
  intros [].
  assert (this <> lg) by congruence.
  assert (lp <> lg) by congruence.
  assert (p <> lg) by congruence.
  constructor; built_field.
Qed.

Context {N : Type} `{Number N}.

Lemma shuffle_spec h0 this lp lg l3 p pb gs (i : nat) : forall (s : N) bs h,
  Built h0 this lp lg l3 p pb gs bs h ->
  total (shuffle i s p) h
    (fun _ h' => Built h0 this lp lg l3 p pb gs (shuffled i s bs) h').
Proof.
  induction i as [|i IH]; intros s bs h HB.
  - apply total_ret, HB.
  - cbn [shuffle shuffled].
    apply total_bind, (total_getU8 _ _ bs); [apply HB|].
    apply total_bind, (total_getU8 _ _ bs); [apply HB|].
    apply total_bind, (total_setU8 _ _ _ bs); [apply HB|].
    apply total_bind. eapply total_setU8; [apply lookup_insert_eq|].
    rewrite insert_insert_eq. apply IH. eapply Built_set_p, HB.
Qed.

Lemma fill_spec h0 this lp lg l3 p bs (i : nat) t h :
  Built h0 this lp lg l3 p (fst t) (snd t) bs h ->
  total (fill this p i) h
    (fun _ h' => Built h0 this lp lg l3 p (fst (fillStep bs t i)) (snd (fillStep bs t i)) bs h').
Proof.
  intros HB. unfold fill.
  apply total_bind. eapply total_getPerm; [apply HB|].
  apply total_bind. eapply total_getU8; [apply HB|].
  apply total_bind. eapply total_setU8; [apply HB|].
  pose proof (Built_set_perm _ _ _ _ _ _ _
                (u8setAt (fst t) (Some (Z.of_nat i))
                   (Some (Z.land (Z.of_nat i) 255) ≫= JS.get bs)) _ _ _ HB) as HB1.
  apply total_bind. eapply total_getGradP; [apply HB1|].
  apply total_bind. eapply total_getGrad3; [apply HB1|].
  apply total_bind. eapply total_getPerm; [apply HB1|].
  apply total_bind. eapply total_getU8; [apply HB1|].
  apply total_bind. eapply total_getSlot; [apply HB1|].
  eapply total_setSlot; [apply HB1|].
  unfold fillStep. cbn [fst snd].
  eapply Built_set_gradP. exact HB1.
Qed.

Lemma init_spec h0 this lp lg l3 p pb gs h :
  Built h0 this lp lg l3 p pb gs (replicate 256 0%Z) h ->
  total (forEach (seq 0 256) (fun i => setU8 p (Some (Z.of_nat i)) (Some (Z.of_nat i)))) h
    (fun _ h' => Built h0 this lp lg l3 p pb gs initBytes h').
Proof.
  intros HB.
  apply (total_forEach (fun bs h' => Built h0 this lp lg l3 p pb gs bs h')
           (fun bs i => u8setAt bs (Some (Z.of_nat i)) (Some (Z.of_nat i))));
    [|exact HB].
  intros bs i h' _ HB'. eapply total_setU8; [apply HB'|].
  eapply Built_set_p, HB'.
Qed.

Lemma fillLoop_spec h0 this lp lg l3 p bs h :
  Built h0 this lp lg l3 p (replicate 512 0%Z) (replicate 512 None) bs h ->
  total (forEach (seq 0 512) (fill this p)) h
    (fun _ h' => Built h0 this lp lg l3 p (fst (filled bs)) (snd (filled bs)) bs h').
Proof.
  intros HB.
  apply (total_forEach (fun t h' => Built h0 this lp lg l3 p (fst t) (snd t) bs h')
           (fillStep bs) (fill this p) (seq 0 512)
           (fun t i h' _ => fill_spec h0 this lp lg l3 p bs i t h')
           (replicate 512 0%Z, replicate 512 None)).
  exact HB.
Qed.

(** The constructor returns a new object whose tables hold what the loops
    compute from the seed, and leaves every older object as it was. *)
Lemma construct_spec (seed : N) h :
  total (construct seed) h
    (fun this h' => exists lp lg l3 p bs,
       Built h this lp lg l3 p
         (fst (filled (shuffled 255 seed initBytes)))
         (snd (filled (shuffled 255 seed initBytes))) bs h').
Proof.
  unfold construct.
  apply total_bind, total_alloc. intros this Fthis.
  apply total_bind, total_alloc. intros l3 F3.
  apply lookup_insert_None in F3 as [F3 D3].
  apply total_bind. eapply total_setGrad3.
  { rewrite lookup_insert_ne by congruence. apply lookup_insert_eq. }
  apply total_bind, total_alloc. intros lp Fp.
  apply lookup_insert_None in Fp as [Fp Dp1].
  apply lookup_insert_None in Fp as [Fp Dp2].
  apply lookup_insert_None in Fp as [Fp Dp3].
  apply total_bind. eapply total_setPerm.
  { rewrite lookup_insert_ne by congruence. apply lookup_insert_eq. }
  apply total_bind, total_alloc. intros lg Fg.
  apply lookup_insert_None in Fg as [Fg Dg1].
  apply lookup_insert_None in Fg as [Fg Dg2].
  apply lookup_insert_None in Fg as [Fg Dg3].
  apply lookup_insert_None in Fg as [Fg Dg4].
  apply lookup_insert_None in Fg as [Fg Dg5].
  apply total_bind. eapply total_setGradP.
  { rewrite lookup_insert_ne by congruence. apply lookup_insert_eq. }
  apply total_bind, total_alloc. intros p Fq.
  apply lookup_insert_None in Fq as [Fq Dq1].
  apply lookup_insert_None in Fq as [Fq Dq2].
  apply lookup_insert_None in Fq as [Fq Dq3].
  apply lookup_insert_None in Fq as [Fq Dq4].
  apply lookup_insert_None in Fq as [Fq Dq5].
  apply lookup_insert_None in Fq as [Fq Dq6].
  apply lookup_insert_None in Fq as [Fq Dq7].
  match goal with |- total _ ?hc _ => set (h1 := hc) end.
  assert (HB : Built h this lp lg l3 p (replicate 512 0%Z) (replicate 512 None)
                 (replicate 256 0%Z) h1).
  { subst h1. constructor; try assumption; try congruence;
      first [ repeat (apply insert_subseteq_r; [assumption|]); reflexivity
            | repeat (rewrite lookup_insert_ne by congruence); apply lookup_insert_eq ]. }
  clearbody h1.
  apply total_bind. eapply total_weaken; [apply init_spec, HB|].
  intros u2 h2 HB2. cbv beta in HB2.
  apply total_bind. eapply total_weaken; [apply shuffle_spec, HB2|].
  intros u3 h3 HB3. cbv beta in HB3.
  apply total_bind. eapply total_weaken; [apply fillLoop_spec, HB3|].
  intros u4 h4 HB4. cbv beta in HB4.
  apply total_ret. eauto 10.
Qed.

End Construction.

Section FilledTables.

Import Store.



Lemma u8setAt_middle (l1 l2 : list Z) (y : Z) (v : option Z) (k : nat) :
  length l1 = k ->
  u8setAt (l1 ++ y :: l2) (Some (Z.of_nat k)) v = l1 ++ Noise.toUint8 v :: l2.
Proof.
  intros <-. cbn [u8setAt]. unfold Noise.u8set.
  rewrite (proj2 (Z.leb_le 0 _)) by lia.
  rewrite (proj2 (Z.ltb_lt _ _)) by (rewrite length_app; cbn [length]; lia).
  cbn [andb]. rewrite Nat2Z.id.
  rewrite <- (Nat.add_0_r (length l1)) at 1. rewrite insert_app_r. reflexivity.
Qed.

Lemma arraySet_middle {A} (l1 l2 : list (option A)) (y v : option A) (k : nat) :
  length l1 = k -> arraySet (l1 ++ y :: l2) (Z.of_nat k) v = l1 ++ v :: l2.
Proof.
  intros <-. unfold arraySet.
  rewrite (proj2 (Z.leb_le 0 _)) by lia.
  rewrite (proj2 (Z.ltb_lt _ _)) by (rewrite length_app; cbn [length]; lia).
  rewrite Nat2Z.id.
  rewrite <- (Nat.add_0_r (length l1)) at 1. rewrite insert_app_r. reflexivity.
Qed.

Lemma slot_grad3 (v : Z) :
  byte v -> slotAt (map Some Noise.grad3) (Z.rem v 12) = Some (Noise.gradOf v).
Proof.
  unfold byte. intros Hv. pose proof (Z.rem_bound_pos v 12) as Hr.
  unfold slotAt, JS.get, Noise.gradOf.
  rewrite (proj2 (Z.leb_le 0 _)) by lia.
  assert (Hn : (Z.to_nat (Z.rem v 12) < 12)%nat) by lia.
  destruct (Z.to_nat (Z.rem v 12)) as [|[|[|[|[|[|[|[|[|[|[|[|n]]]]]]]]]]]];
    try reflexivity.
  lia.
Qed.

(** The last loop of the constructor, in closed form: the byte table is
    [permOf] of the scratch array and every slot of the gradient table is
    filled. *)
Lemma filled_prefix (bs : list Z) (k : nat) :
  (k <= 512)%nat ->
  let f := fun i : nat => Noise.toUint8 (JS.get bs (Z.land (Z.of_nat i) 255)) in
  foldl (fillStep bs) (replicate 512 0%Z, replicate 512 None) (seq 0 k)
  = (map f (seq 0 k) ++ replicate (512 - k) 0%Z,
     map (fun i => Some (Noise.gradOf (f i))) (seq 0 k) ++ replicate (512 - k) None).
Proof.
  intros Hk f. induction k as [|k IH]; [reflexivity|].
  rewrite seq_S, foldl_app, IH by lia. cbn [foldl Nat.add].
  replace (512 - k)%nat with (S (512 - S k)) by lia. cbn [replicate].
  unfold fillStep. cbn [fst snd].
  assert (Hl1 : length (map f (seq 0 k)) = k)
    by (rewrite List.length_map, List.length_seq; reflexivity).
  assert (Hl2 : length (map (fun i => Some (Noise.gradOf (f i))) (seq 0 k)) = k)
    by (rewrite List.length_map, List.length_seq; reflexivity).
  rewrite !(u8setAt_middle _ _ _ _ k Hl1). fold (f k).
  assert (Eg : JS.get (map f (seq 0 k) ++ f k :: replicate (512 - S k) 0%Z) (Z.of_nat k)
               = Some (f k)).
  { unfold JS.get. rewrite (proj2 (Z.leb_le 0 _)) by lia. rewrite Nat2Z.id.
    apply list_lookup_middle. symmetry. exact Hl1. }
  rewrite Eg. cbn [mbind option_bind].
  rewrite slot_grad3 by apply toUint8_byte.
  rewrite (arraySet_middle _ _ _ _ k Hl2).
  rewrite !map_app. cbn [map]. rewrite <- !app_assoc. reflexivity.
Qed.

Lemma filled_tables (bs : list Z) :
  filled bs = (Noise.permOf bs, map (fun v => Some (Noise.gradOf v)) (Noise.permOf bs)).
Proof.
  unfold filled. rewrite filled_prefix by lia.
  cbn [Nat.sub replicate]. rewrite !app_nil_r.
  unfold Noise.permOf. rewrite List.map_map. reflexivity.
Qed.

Lemma mapM_Some_all {A} (l : list A) : mapM (fun g : option A => g) (map Some l) = Some l.
Proof.
  apply mapM_Some. induction l as [|x l IH]; constructor; [reflexivity|exact IH].
Qed.

End FilledTables.

Section HeapNoise.

Import Store NoiseClass.

Lemma tables_inv h this pm gr :
  tables h this = Some (pm, gr) <->
  exists lp lg l3 gs,
    h !! this = Some (Instance (Some lp) (Some lg) l3) /\
    h !! lp = Some (Uint8Array pm) /\ h !! lg = Some (GradArray gs) /\
    mapM (fun g => g) gs = Some gr.
Proof.
  unfold tables. split.
  - intros HT.
    destruct (h !! this) as [[| |[lp|] [lg|] l3]|] eqn:E1; try discriminate.
    destruct (h !! lp) as [[pm'| |]|] eqn:E2; try discriminate.
    destruct (h !! lg) as [[|gs|]|] eqn:E3; try discriminate.
    destruct (mapM _ gs) as [gr'|] eqn:EM; try discriminate.
    injection HT as ? ?. subst pm' gr'. exists lp, lg, l3, gs. auto.
  - intros (lp & lg & l3 & gs & -> & -> & -> & ->). reflexivity.
Qed.

(** The tables of an instance are those of every larger heap. *)
Lemma tables_weaken h h' this T :
  h ⊆ h' -> tables h this = Some T -> tables h' this = Some T.
Proof.
  destruct T as [pm gr]. intros Hsub HT.
  apply tables_inv in HT as (lp & lg & l3 & gs & E1 & E2 & E3 & E4).
  apply tables_inv. exists lp, lg, l3, gs.
  repeat split; try assumption; eapply lookup_weaken; eassumption.
Qed.

Lemma Built_tables {N} `{Number N} h0 this lp lg l3 p bs (seed : N) h :
  Built h0 this lp lg l3 p
    (fst (filled (shuffled 255 seed initBytes)))
    (snd (filled (shuffled 255 seed initBytes))) bs h ->
  tables h this = Some (Noise.perm (seeded seed), Noise.gradP (seeded seed)).
Proof.
  intros HB. rewrite filled_tables in HB. cbn [fst snd] in HB.
  apply tables_inv. eexists lp, lg, (Some l3), _.
  split; [apply HB|]. split; [apply HB|]. split; [apply HB|].
  rewrite <- (List.map_map Noise.gradOf Some). apply mapM_Some_all.
Qed.

Lemma slot_of_table (gs : list (option Noise.Grad)) gr (i : Z) g :
  mapM (fun g => g) gs = Some gr -> JS.get gr i = Some g -> slotAt gs i = Some g.
Proof.
  intros HM Hg. apply mapM_Some in HM. unfold slotAt, JS.get in *.
  destruct (0 <=? i)%Z; [|discriminate].
  destruct (Forall2_lookup_r _ _ _ _ _ HM Hg) as (s & -> & Es). exact Es.
Qed.

Lemma gradAt_spec h this pm gr ii jj kk i1 j1 k1 g :
  tables h this = Some (pm, gr) ->
  Noise.gradAt (Noise.mkNoise pm gr) ii jj kk i1 j1 k1 = Some g ->
  gradAt this ii jj kk i1 j1 k1 h = Some (Some g, h).
Proof.
  intros HT HG.
  apply tables_inv in HT as (lp & lg & l3 & gs & E1 & E2 & E3 & E4).
  unfold Noise.gradAt in HG. cbn [Noise.perm Noise.gradP] in HG.
  destruct (JS.get pm (kk + k1)) as [pk|] eqn:Ek; [|discriminate]. obind in HG.
  destruct (JS.get pm (jj + j1 + pk)) as [pj|] eqn:Ej; [|discriminate]. obind in HG.
  unfold gradAt, getGradP, getPerm, getU8, getSlot, load, bind, ret.
  rewrite E1. obind. rewrite E1. obind. rewrite E2. obind. rewrite Ek. obind.
  rewrite E2. obind. rewrite Ej. obind. rewrite E3. obind.
  rewrite (slot_of_table gs gr _ g E4 HG). reflexivity.
Qed.

Lemma corner_spec g x y z h :
  corner (Some g) x y z h = Some (Noise.corner g x y z, h).
Proof.
  unfold corner, Noise.corner. cbv zeta.
  destruct (Rge_dec _ 0); reflexivity.
Qed.

(** A call reads the tables and nothing else: it returns the value the
    tables determine and leaves the heap as it found it. *)
Lemma noise3D_spec h this pm gr x y z v :
  tables h this = Some (pm, gr) ->
  Noise.noise3D (Noise.mkNoise pm gr) x y z = Some v ->
  noise3D this x y z h = Some (v, h).
Proof.
  intros HT HV. unfold noise3D. unfold Noise.noise3D in HV.
  destruct (Noise.simplexOffsets _ _ _) as [[[[[i1 j1] k1] i2] j2] k2].
  cbv zeta in HV. cbv zeta.
  match type of HV with context [Noise.gradAt ?s ?a ?b ?c 0%Z 0%Z 0%Z] =>
    destruct (Noise.gradAt s a b c 0 0 0) as [g0|] eqn:E0; [|discriminate] end.
  obind in HV.
  match type of HV with context [Noise.gradAt ?s ?a ?b ?c i1 j1 k1] =>
    destruct (Noise.gradAt s a b c i1 j1 k1) as [g1|] eqn:E1; [|discriminate] end.
  obind in HV.
  match type of HV with context [Noise.gradAt ?s ?a ?b ?c i2 j2 k2] =>
    destruct (Noise.gradAt s a b c i2 j2 k2) as [g2|] eqn:E2; [|discriminate] end.
  obind in HV.
  match type of HV with context [Noise.gradAt ?s ?a ?b ?c 1%Z 1%Z 1%Z] =>
    destruct (Noise.gradAt s a b c 1 1 1) as [g3|] eqn:E3; [|discriminate] end.
  obind in HV.
  injection HV as <-.
  unfold bind.
  rewrite (gradAt_spec _ _ _ _ _ _ _ _ _ _ _ HT E0).
  rewrite (gradAt_spec _ _ _ _ _ _ _ _ _ _ _ HT E1).
  rewrite (gradAt_spec _ _ _ _ _ _ _ _ _ _ _ HT E2).
  rewrite (gradAt_spec _ _ _ _ _ _ _ _ _ _ _ HT E3).
  rewrite !corner_spec. reflexivity.
Qed.

Lemma runCalls_spec (f : R * R * R -> R) calls : forall h,
  Forall (fun c => exists pm gr,
            tables h (fst c) = Some (pm, gr) /\
            forall x y z, Noise.noise3D (Noise.mkNoise pm gr) x y z = Some (f (x, y, z)))
         calls ->
  runCalls calls h = Some (map (fun c => f (snd c)) calls, h).
Proof.
  induction calls as [|[this [[x y] z]] calls IH]; intros h HF; [reflexivity|].
  apply Forall_cons in HF as [(pm & gr & HT & Hf) HF].
  cbn [runCalls map fst snd] in *. unfold bind.
  rewrite (noise3D_spec _ _ _ _ _ _ _ _ HT (Hf x y z)).
  rewrite (IH h HF). reflexivity.
Qed.

End HeapNoise.

(** C6.  Whatever the heap and whatever number the seed is, constructing two
    instances from the same seed gives two different objects whose
    permutation and gradient tables are identical, 512 entries each;
    building the second instance leaves the tables of the first untouched.
    Every call of [noise3D] on either instance, in any order and however
    often repeated, returns the value [f (x, y, z)] that the tables give for
    its input and leaves the heap, and with it both instances, unchanged. *)
Theorem noise3D_deterministic {N : Type} `{NoiseClass.Number N} (seed : N)
    (h : Store.Heap) :
  exists (a : Store.loc) (h1 : Store.Heap) (b : Store.loc) (h2 : Store.Heap)
         (perm : list Z) (gradP : list Noise.Grad) (f : R * R * R -> R),
    NoiseClass.construct seed h = Some (a, h1) /\
    NoiseClass.construct seed h1 = Some (b, h2) /\
    a <> b /\
    NoiseClass.tables h1 a = Some (perm, gradP) /\
    NoiseClass.tables h2 a = Some (perm, gradP) /\
    NoiseClass.tables h2 b = Some (perm, gradP) /\
    length perm = 512%nat /\ length gradP = 512%nat /\
    (forall x y z, Noise.noise3D (Noise.mkNoise perm gradP) x y z = Some (f (x, y, z))) /\
    (forall calls : list (Store.loc * (R * R * R)),
       Forall (fun c => fst c = a \/ fst c = b) calls ->
       NoiseClass.runCalls calls h2 = Some (map (fun c => f (snd c)) calls, h2)).
Proof.
  destruct (construct_spec seed h) as (a & h1 & Ea & lp & lg & l3 & p & bs & Ba).
  destruct (construct_spec seed h1) as (b & h2 & Eb & lp' & lg' & l3' & p' & bs' & Bb).
  pose proof (Built_tables _ _ _ _ _ _ _ _ _ Ba) as Ta.
  pose proof (Built_tables _ _ _ _ _ _ _ _ _ Bb) as Tb.
  pose proof (tables_weaken _ _ _ _ (built_frame _ _ _ _ _ _ _ _ _ _ Bb) Ta) as Ta2.
  set (pm := Noise.perm (seeded seed)) in *.
  set (gr := Noise.gradP (seeded seed)) in *.
  set (f := fun arg : R * R * R =>
              let '(x, y, z) := arg in
              match Noise.noise3D (Noise.mkNoise pm gr) x y z with
              | Some v => v
              | None => 0
              end).
  assert (Hf : forall x y z,
             Noise.noise3D (Noise.mkNoise pm gr) x y z = Some (f (x, y, z))).
  { intros x y z. unfold f.
    destruct (tables_noise3D_total (shuffled 255 seed initBytes) x y z) as [v Ev].
    change (Noise.noise3D (Noise.mkNoise pm gr) x y z = Some v) in Ev.
    rewrite Ev. reflexivity. }
  exists a, h1, b, h2, pm, gr, f.
  split; [exact Ea|]. split; [exact Eb|]. split.
  { intros ->. pose proof (built_new_this _ _ _ _ _ _ _ _ _ _ Bb) as Hn.
    pose proof (built_this _ _ _ _ _ _ _ _ _ _ Ba) as Hs. congruence. }
  split; [exact Ta|]. split; [exact Ta2|]. split; [exact Tb|].
  split; [apply permOf_length|].
  split; [subst gr; unfold seeded; cbn [Noise.gradP]; rewrite List.length_map;
          apply permOf_length|].
  split; [exact Hf|].
  intros calls Hc. apply runCalls_spec.
  eapply Forall_impl; [exact Hc|].
  intros c [-> | ->]; exists pm, gr; auto.
Qed.



(** ** Boundary policy *)

Lemma wrapCoord_range (lo hi x : R) : lo <= hi -> lo <= wrapCoord lo hi x <= hi.
Proof.
  intros H. unfold wrapCoord.
  destruct (decide (x < lo)) as [H1|H1].
  - destruct (decide (hi > hi)); lra.
  - destruct (decide (x > hi)); lra.
Qed.

(** A position already inside the band is left alone. *)
Lemma wrapCoord_id (lo hi x : R) : lo <= x <= hi -> wrapCoord lo hi x = x.
Proof.
  intros H. unfold wrapCoord.
  destruct (decide (x < lo)); [lra|]. destruct (decide (x > hi)); [lra|reflexivity].
Qed.

(** A position beyond one edge re-enters at the opposite edge. *)
Lemma wrapCoord_cross (lo hi x : R) :
  lo <= hi -> (x < lo -> wrapCoord lo hi x = hi) /\ (x > hi -> wrapCoord lo hi x = lo).
Proof.
  intros H. unfold wrapCoord. split; intros Hx.
  - destruct (decide (x < lo)); [|lra]. destruct (decide (hi > hi)); [lra|reflexivity].
  - destruct (decide (x < lo)); [lra|]. destruct (decide (x > hi)); [reflexivity|lra].
Qed.

Lemma constellation_wrap_range px py :
  - Constellation.EDGE_MARGIN <= fst (Constellation.wrapEdges px py) <= 1 + Constellation.EDGE_MARGIN /\
  - Constellation.EDGE_MARGIN <= snd (Constellation.wrapEdges px py) <= 1 + Constellation.EDGE_MARGIN.
Proof.
  unfold Constellation.wrapEdges, Constellation.EDGE_MARGIN. simpl.
  split; apply wrapCoord_range; lra.
Qed.



Lemma constellation_update_position cfg ma mx my dt p :
  let v := Constellation.updateVelocity cfg ma mx my p in
  let p' := Constellation.updateParticle cfg ma mx my dt p in
  (Constellation.x p', Constellation.y p') =
    Constellation.wrapEdges (Constellation.x p + fst v * dt * 60)
                            (Constellation.y p + snd v * dt * 60) /\
  (Constellation.vx p', Constellation.vy p') = v.
Proof.
  unfold Constellation.updateParticle.
  destruct (Constellation.updateVelocity cfg ma mx my p) as [vx' vy'].
  destruct (Constellation.wrapEdges _ _) as [x' y'] eqn:E. simpl. auto.
Qed.


Lemma flow_getFlowVector_total cfg x y t :
  exists n, Noise.noise3D FlowField.noise (x * FlowField.noiseScale cfg)
              (y * FlowField.noiseScale cfg) (t * FlowField.noiseSpeed cfg) = Some n /\
    FlowField.getFlowVector cfg x y t = Some (cos (n * PI * 2), sin (n * PI * 2)).
Proof.
  unfold FlowField.getFlowVector, FlowField.noise.
  destruct (noise3D_total 12345 (x * FlowField.noiseScale cfg)
              (y * FlowField.noiseScale cfg) (t * FlowField.noiseSpeed cfg)) as [n Hn].
  exists n. rewrite Hn. auto.
Qed.



(** ** Pointer forces *)

Lemma sqrt_sq_sum_zero_r (a : R) : 0 <= a -> sqrt (a * a + 0 * 0) = a.
Proof. intros H. rewrite Rmult_0_l, Rplus_0_r. apply sqrt_square, H. Qed.

Lemma sqrt_sum_sq (dx dy : R) :
  sqrt (dx * dx + dy * dy) * sqrt (dx * dx + dy * dy) = dx * dx + dy * dy.
Proof. apply sqrt_sqrt. nra. Qed.

Section Vortex.

Import FlowField.

Variable cfg : Config.
Variables px py mx my : R.

Let dx := px - mx.
Let dy := py - my.
Let dist := sqrt (dx * dx + dy * dy).

Lemma vortex_zero :
  dist > vortexRadius cfg \/ dist < 0.01 -> getVortexVelocity cfg px py mx my = (0, 0).
Proof.
  intros H. unfold getVortexVelocity. fold dx dy dist.
  destruct (decide _); [reflexivity|tauto].
Qed.

Lemma vortex_value :
  0.01 <= dist <= vortexRadius cfg ->
  getVortexVelocity cfg px py mx my =
    (- dy / dist * ((1 - (dist / vortexRadius cfg) * (dist / vortexRadius cfg))
                    * vortexStrength cfg),
     dx / dist * ((1 - (dist / vortexRadius cfg) * (dist / vortexRadius cfg))
                  * vortexStrength cfg)).
Proof.
  intros H. unfold getVortexVelocity. fold dx dy dist.
  destruct (decide _) as [[H1|H1]|_]; [lra|lra|reflexivity].
Qed.

(** The tangent [(-dy, dx) / dist] is a unit vector at right angles to the
    radial direction. *)
Lemma tangent_unit :
  0 < dist ->
  (- dy / dist) * dx + (dx / dist) * dy = 0 /\
  (- dy / dist) * (- dy / dist) + (dx / dist) * (dx / dist) = 1.
Proof.
  intros H. pose proof (sqrt_sum_sq dx dy) as Hs. fold dist in Hs.
  split; [field; lra|].
  replace (- dy / dist * (- dy / dist) + dx / dist * (dx / dist))
    with ((dx * dx + dy * dy) / (dist * dist)) by (field; lra).
  rewrite <- Hs. field. lra.
Qed.

Lemma vortex_strength_range :
  0.01 <= dist <= vortexRadius cfg -> 0 <= vortexStrength cfg ->
  0 <= (1 - (dist / vortexRadius cfg) * (dist / vortexRadius cfg)) * vortexStrength cfg
    <= vortexStrength cfg.
Proof.
  intros H Hs.
  assert (0 < vortexRadius cfg) by lra.
  assert (0 <= dist / vortexRadius cfg <= 1).
  { split.
    - apply Rmult_le_pos; [lra|]. left. apply Rinv_0_lt_compat. lra.
    - apply Rmult_le_reg_r with (vortexRadius cfg); [lra|].
      unfold Rdiv. rewrite Rmult_assoc, Rinv_l by lra. lra. }
  set (q := dist / vortexRadius cfg) in *.
  assert (0 <= q * q <= 1) by (split; nra).
  split; nra.
Qed.

Lemma vortex_magnitude :
  0.01 <= dist <= vortexRadius cfg -> 0 <= vortexStrength cfg ->
  let v := getVortexVelocity cfg px py mx my in
  sqrt (fst v * fst v + snd v * snd v) =
    (1 - (dist / vortexRadius cfg) * (dist / vortexRadius cfg)) * vortexStrength cfg.
Proof.
  intros H Hs v. subst v. rewrite vortex_value by assumption. simpl.
  pose proof (vortex_strength_range H Hs) as [Hk _].
  destruct tangent_unit as [_ Hu]; [lra|].
  set (k := (1 - _ * _) * vortexStrength cfg) in *.
  replace (- dy / dist * k * (- dy / dist * k) + dx / dist * k * (dx / dist * k))
    with ((- dy / dist * (- dy / dist) + dx / dist * (dx / dist)) * (k * k)) by ring.
  rewrite Hu, Rmult_1_l. apply sqrt_square, Hk.
Qed.

End Vortex.

(** C7 as stated fails close to the pointer: at distance 0.005, inside the
    radius 0.2, [getVortexVelocity] returns the zero vector, while the stated
    magnitude [(1 - (d/R)^2) * vortexStrength] is not zero. *)
Lemma vortex_claim_fails_near_pointer :
  let cfg := FlowField.config false false in
  let d := sqrt ((0.505 - 0.5) * (0.505 - 0.5) + (0.5 - 0.5) * (0.5 - 0.5)) in
  let v := FlowField.getVortexVelocity cfg 0.505 0.5 0.5 0.5 in
  d = 0.005 /\ ~ d > FlowField.vortexRadius cfg /\ v = (0, 0) /\
  sqrt (fst v * fst v + snd v * snd v) <>
    (1 - (d / FlowField.vortexRadius cfg) * (d / FlowField.vortexRadius cfg))
    * FlowField.vortexStrength cfg.
Proof.
  intros cfg d v.
  assert (Hd : d = 0.005).
  { subst d. replace (0.5 - 0.5) with 0 by lra.
    replace (0.505 - 0.5) with 0.005 by lra. apply sqrt_sq_sum_zero_r. lra. }
  assert (Hv : v = (0, 0)).
  { subst v. apply vortex_zero. right. fold d. lra. }
  split; [exact Hd|]. split; [simpl; lra|]. split; [exact Hv|].
  rewrite Hv, Hd. simpl. rewrite Rmult_0_l, Rplus_0_r, sqrt_0. lra.
Qed.

(** C7, amended.  [getVortexVelocity] returns the zero vector when the
    distance [d] exceeds the radius [R] or is below 0.01; for
    [0.01 <= d <= R] it returns the radial vector from the pointer to the
    particle rotated by a quarter turn ([(-dy, dx) / d]), hence at right
    angles to the radial direction, scaled to the magnitude
    [(1 - (d/R)^2) * vortexStrength], which lies between 0 and
    [vortexStrength]. *)
Theorem vortex_force_shape (isMobile prefersReducedMotion : bool) (px py mx my : R) :
  let cfg := FlowField.config isMobile prefersReducedMotion in
  let dx := px - mx in
  let dy := py - my in
  let d := sqrt (dx * dx + dy * dy) in
  let R := FlowField.vortexRadius cfg in
  let m := (1 - (d / R) * (d / R)) * FlowField.vortexStrength cfg in
  let v := FlowField.getVortexVelocity cfg px py mx my in
  (d > R \/ d < 0.01 -> v = (0, 0)) /\
  (0.01 <= d <= R ->
     v = (- dy / d * m, dx / d * m) /\
     fst v * dx + snd v * dy = 0 /\
     sqrt (fst v * fst v + snd v * snd v) = m /\
     0 <= m <= FlowField.vortexStrength cfg).
Proof.
  intros cfg dx dy d R m v.
  assert (Hs : 0 <= FlowField.vortexStrength cfg)
    by (destruct isMobile, prefersReducedMotion; simpl; lra).
  split; [apply vortex_zero|].
  intros H.
  assert (Hv : v = (- dy / d * m, dx / d * m)) by (apply vortex_value; exact H).
  split; [exact Hv|]. split; [|split].
  - rewrite Hv. simpl.
    destruct (tangent_unit px py mx my) as [Hp _]; [fold dx dy d; lra|].
    fold dx dy d in Hp.
    replace (- dy / d * m * dx + dx / d * m * dy)
      with ((- dy / d * dx + dx / d * dy) * m) by ring.
    rewrite Hp. ring.
  - apply (vortex_magnitude cfg px py mx my H Hs).
  - apply (vortex_strength_range cfg px py mx my H Hs).
Qed.

Lemma vortex_force_shape_witness :
  let cfg := FlowField.config false false in
  let d := sqrt ((0.6 - 0.5) * (0.6 - 0.5) + (0.5 - 0.5) * (0.5 - 0.5)) in
  0.01 <= d <= FlowField.vortexRadius cfg /\
  FlowField.getVortexVelocity cfg 0.6 0.5 0.5 0.5 =
    (- (0.5 - 0.5) / d
       * ((1 - (d / FlowField.vortexRadius cfg) * (d / FlowField.vortexRadius cfg))
          * FlowField.vortexStrength cfg),
     (0.6 - 0.5) / d
       * ((1 - (d / FlowField.vortexRadius cfg) * (d / FlowField.vortexRadius cfg))
          * FlowField.vortexStrength cfg)).
Proof.
  intros cfg d.
  assert (Hd : d = 0.1).
  { subst d. replace (0.5 - 0.5) with 0 by lra.
    replace (0.6 - 0.5) with 0.1 by lra. apply sqrt_sq_sum_zero_r. lra. }
  assert (Hr : 0.01 <= d <= FlowField.vortexRadius cfg) by (rewrite Hd; simpl; lra).
  split; [exact Hr|].
  exact (proj1 (proj2 (vortex_force_shape false false 0.6 0.5 0.5 0.5) Hr)).
Defined.

(** ** Blend of the ambient and the pointer-driven term *)

Lemma dist_self_zero (a b : R) : sqrt ((a - a) * (a - a) + (b - b) * (b - b)) = 0.
Proof.
  replace ((a - a) * (a - a) + (b - b) * (b - b)) with 0 by ring. apply sqrt_0.
Qed.

Lemma flow_influence_range cfg px py mx my :
  0 < FlowField.vortexRadius cfg ->
  0 <= FlowField.vortexInfluence cfg px py mx my <= 1.
Proof.
  intros HR. unfold FlowField.vortexInfluence.
  set (d := sqrt _). assert (0 <= d) by apply sqrt_pos.
  assert (0 <= d / FlowField.vortexRadius cfg).
  { apply Rmult_le_pos; [assumption|]. left. apply Rinv_0_lt_compat, HR. }
  split; [apply Rmax_l|]. apply Rmax_lub; lra.
Qed.

(** The influence does not grow with the distance to the pointer. *)
Lemma flow_influence_monotone cfg px py qx qy mx my :
  0 < FlowField.vortexRadius cfg ->
  sqrt ((px - mx) * (px - mx) + (py - my) * (py - my))
    <= sqrt ((qx - mx) * (qx - mx) + (qy - my) * (qy - my)) ->
  FlowField.vortexInfluence cfg qx qy mx my <= FlowField.vortexInfluence cfg px py mx my.
Proof.
  intros HR H. unfold FlowField.vortexInfluence.
  apply Rle_max_compat_l. apply Rplus_le_compat_l, Ropp_le_contravar.
  apply Rmult_le_compat_r; [|exact H]. left. apply Rinv_0_lt_compat, HR.
Qed.

Lemma flow_blend_at_pointer cfg p v :
  0 < FlowField.vortexRadius cfg ->
  FlowField.vortexInfluence cfg (FlowField.x p) (FlowField.y p) (FlowField.x p) (FlowField.y p) = 1 /\
  FlowField.blendVelocity cfg true (FlowField.x p) (FlowField.y p) p v
    = (fst v * 0.2, snd v * 0.2).
Proof.
  intros HR.
  assert (Hi : FlowField.vortexInfluence cfg (FlowField.x p) (FlowField.y p)
                 (FlowField.x p) (FlowField.y p) = 1).
  { unfold FlowField.vortexInfluence. rewrite dist_self_zero.
    unfold Rdiv. rewrite Rmult_0_l, Rminus_0_r. apply Rmax_right. lra. }
  split; [exact Hi|].
  unfold FlowField.blendVelocity. rewrite Hi.
  rewrite vortex_zero by (right; rewrite dist_self_zero; lra).
  f_equal; simpl; lra.
Qed.

Lemma gravity_pull_at_pointer cfg px py m G :
  Gravity.calculateGravity cfg px py px py m G = (0, 0).
Proof.
  unfold Gravity.calculateGravity.
  replace (px - px) with 0 by ring. replace (py - py) with 0 by ring.
  unfold Rdiv. rewrite !Rmult_0_l. reflexivity.
Qed.

Lemma gravity_blend_at_pointer cfg p acc :
  0 < Gravity.mouseRadius cfg ->
  Gravity.mouseBlend cfg true (Gravity.x p) (Gravity.y p) p acc
    = (fst acc * 0.3, snd acc * 0.3).
Proof.
  intros HR. unfold Gravity.mouseBlend. rewrite dist_self_zero.
  destruct (decide (0 < Gravity.mouseRadius cfg)); [|contradiction].
  rewrite gravity_pull_at_pointer. unfold Gravity.mouseInfluence.
  unfold Rdiv. rewrite Rmult_0_l. f_equal; lra.
Qed.

Lemma gravity_blend_value cfg mx my p acc :
  let d := sqrt ((mx - Gravity.x p) * (mx - Gravity.x p)
                 + (my - Gravity.y p) * (my - Gravity.y p)) in
  let w := Gravity.mouseInfluence cfg d in
  let g := Gravity.calculateGravity cfg (Gravity.x p) (Gravity.y p) mx my 3.0
             (Gravity.gravitationalConstant cfg * Gravity.mouseGravityMultiplier cfg) in
  0 < Gravity.mouseRadius cfg ->
  (d < Gravity.mouseRadius cfg ->
     0 < w <= 1 /\
     Gravity.mouseBlend cfg true mx my p acc
       = (fst acc * (1 - w * 0.7) + fst g * w, snd acc * (1 - w * 0.7) + snd g * w)) /\
  (~ d < Gravity.mouseRadius cfg -> Gravity.mouseBlend cfg true mx my p acc = acc).
Proof.
  intros d w g HR. unfold Gravity.mouseBlend. fold d.
  destruct (decide (d < Gravity.mouseRadius cfg)) as [Hd|Hd]; split; try tauto.
  intros _. fold w g. destruct g as [gx gy]. simpl. split; [|reflexivity].
  subst w. unfold Gravity.mouseInfluence.
  assert (0 <= d) by apply sqrt_pos.
  assert (0 <= d / Gravity.mouseRadius cfg < 1).
  { split.
    - apply Rmult_le_pos; [assumption|]. left. apply Rinv_0_lt_compat, HR.
    - apply Rmult_lt_reg_r with (Gravity.mouseRadius cfg); [exact HR|].
      unfold Rdiv. rewrite Rmult_assoc, Rinv_l by lra. lra. }
  lra.
Qed.

Lemma flow_blend_outside cfg mx my p v :
  0 < FlowField.vortexRadius cfg ->
  FlowField.vortexRadius cfg
    <= sqrt ((FlowField.x p - mx) * (FlowField.x p - mx)
             + (FlowField.y p - my) * (FlowField.y p - my)) ->
  FlowField.vortexInfluence cfg (FlowField.x p) (FlowField.y p) mx my = 0 /\
  FlowField.getVortexVelocity cfg (FlowField.x p) (FlowField.y p) mx my = (0, 0) /\
  FlowField.blendVelocity cfg true mx my p v = v.
Proof.
  intros HR Hd. set (d := sqrt _) in Hd.
  assert (Hw : FlowField.vortexInfluence cfg (FlowField.x p) (FlowField.y p) mx my = 0).
  { unfold FlowField.vortexInfluence. fold d. apply Rmax_left.
    assert (1 <= d / FlowField.vortexRadius cfg); [|lra].
    apply Rmult_le_reg_r with (FlowField.vortexRadius cfg); [exact HR|].
    unfold Rdiv. rewrite Rmult_assoc, Rinv_l by lra. lra. }
  assert (Hv : FlowField.getVortexVelocity cfg (FlowField.x p) (FlowField.y p) mx my
               = (0, 0)).
  { destruct (Rle_lt_or_eq_dec _ _ Hd) as [Hlt|Heq].
    - apply vortex_zero. left. fold d. lra.
    - unfold FlowField.getVortexVelocity. fold d.
      destruct (decide _); [reflexivity|].
      rewrite <- Heq. unfold Rdiv. rewrite Rinv_r by lra. f_equal; ring. }
  split; [exact Hw|]. split; [exact Hv|].
  unfold FlowField.blendVelocity. rewrite Hv, Hw. destruct v. simpl. f_equal; ring.
Qed.

(** C8 as stated fails at the pointer position.  Gravity scene: a particle
    under the pointer has influence 1 and a pointer pull of zero, and the
    blended acceleration still holds 30% of the ambient one, where a linear
    blend at weight 1 leaves the pointer term alone.  Flow field: there the
    influence is 1 and the vortex term zero as well, and 20% of the flow
    velocity is left. *)
Lemma blend_claim_fails_at_pointer :
  let gc := Gravity.config false false in
  let p := Gravity.mkParticle 0.5 0.5 0 0 1 [] 0 in
  let ambient := (0.001, 0) in
  let d := sqrt ((0.5 - Gravity.x p) * (0.5 - Gravity.x p)
                 + (0.5 - Gravity.y p) * (0.5 - Gravity.y p)) in
  let w := Gravity.mouseInfluence gc d in
  let pull := Gravity.calculateGravity gc 0.5 0.5 0.5 0.5 3.0
                (Gravity.gravitationalConstant gc * Gravity.mouseGravityMultiplier gc) in
  let fc := FlowField.config false false in
  let q := FlowField.mkParticle 0.5 0.5 1 in
  let flow := (0.0015, 0) in
  let vortex := FlowField.getVortexVelocity fc 0.5 0.5 0.5 0.5 in
  (w = 1 /\ pull = (0, 0) /\
   Gravity.mouseBlend gc true 0.5 0.5 p ambient = (0.0003, 0) /\
   Gravity.mouseBlend gc true 0.5 0.5 p ambient <> linearBlend ambient pull w) /\
  (FlowField.vortexInfluence fc 0.5 0.5 0.5 0.5 = 1 /\ vortex = (0, 0) /\
   FlowField.blendVelocity fc true 0.5 0.5 q flow = (0.0003, 0) /\
   FlowField.blendVelocity fc true 0.5 0.5 q flow <> linearBlend flow vortex 1).
Proof.
  intros gc p ambient d w pull fc q flow vortex.
  assert (Hd : d = 0) by apply (dist_self_zero 0.5 0.5).
  assert (Hw : w = 1).
  { subst w. rewrite Hd. unfold Gravity.mouseInfluence, Rdiv. rewrite Rmult_0_l. ring. }
  assert (Hp : pull = (0, 0)) by apply gravity_pull_at_pointer.
  assert (Hb : Gravity.mouseBlend gc true 0.5 0.5 p ambient = (0.0003, 0)).
  { change (Gravity.mouseBlend gc true (Gravity.x p) (Gravity.y p) p ambient
            = (0.0003, 0)).
    rewrite (gravity_blend_at_pointer gc p ambient) by (simpl; lra).
    simpl. f_equal; lra. }
  assert (HF : 0 < FlowField.vortexRadius fc) by (simpl; lra).
  destruct (flow_blend_at_pointer fc q flow HF) as [Hi Hv].
  assert (Hz : vortex = (0, 0)).
  { apply vortex_zero. right. rewrite (dist_self_zero 0.5 0.5). lra. }
  assert (Hv' : FlowField.blendVelocity fc true 0.5 0.5 q flow = (0.0003, 0)).
  { change (FlowField.blendVelocity fc true (FlowField.x q) (FlowField.y q) q flow
            = (0.0003, 0)).
    rewrite Hv. simpl. f_equal; lra. }
  split.
  - split; [exact Hw|]. split; [exact Hp|]. split; [exact Hb|].
    rewrite Hb, Hp, Hw. unfold linearBlend. simpl. intros E.
    injection E as E _. lra.
  - split; [exact Hi|]. split; [exact Hz|]. split; [exact Hv'|].
    rewrite Hv', Hz. unfold linearBlend. simpl. intros E.
    injection E as E _. lra.
Qed.

(** C8, amended.  Where a pointer-driven term meets the ambient one, the
    ambient term is scaled by [1 - k * w] and the pointer term is added to
    it, [w] being the pointer's influence: [w = max(0, 1 - d / R)] at the
    distance [d] from the pointer, 1 under the pointer, falling linearly to
    0 at the radius [R].  Flow field ([k = 0.8], [R = vortexRadius]): the
    velocity is [flow * (1 - 0.8 * w) + vortex], the vortex entering with
    weight 1; under the pointer it is [0.2 * flow], at or beyond the radius
    it is the flow velocity unchanged.  Gravity scene ([k = 0.7],
    [R = mouseRadius]): inside the radius the acceleration is
    [ambient * (1 - 0.7 * w) + pull * w]; under the pointer it is
    [0.3 * ambient], at or beyond the radius it is the ambient acceleration
    unchanged.  With the pointer inactive nothing is changed in either
    scene. *)
Theorem pointer_force_blends (isMobile prefersReducedMotion : bool) :
  let fc := FlowField.config isMobile prefersReducedMotion in
  let gc := Gravity.config isMobile prefersReducedMotion in
  (forall mx my p v,
     let d := sqrt ((FlowField.x p - mx) * (FlowField.x p - mx)
                    + (FlowField.y p - my) * (FlowField.y p - my)) in
     let w := Rmax 0 (1 - d / FlowField.vortexRadius fc) in
     let vortex := FlowField.getVortexVelocity fc (FlowField.x p) (FlowField.y p) mx my in
     let r := FlowField.blendVelocity fc true mx my p v in
     r = (fst v * (1 - w * 0.8) + fst vortex, snd v * (1 - w * 0.8) + snd vortex) /\
     0 <= w <= 1 /\
     (d < FlowField.vortexRadius fc -> w = 1 - d / FlowField.vortexRadius fc /\ 0 < w) /\
     (FlowField.x p = mx -> FlowField.y p = my ->
        w = 1 /\ r = (fst v * 0.2, snd v * 0.2)) /\
     (FlowField.vortexRadius fc <= d -> w = 0 /\ vortex = (0, 0) /\ r = v)) /\
  (forall mx my p v, FlowField.blendVelocity fc false mx my p v = v) /\
  (forall mx my p acc,
     let d := sqrt ((mx - Gravity.x p) * (mx - Gravity.x p)
                    + (my - Gravity.y p) * (my - Gravity.y p)) in
     let w := 1 - d / Gravity.mouseRadius gc in
     let pull := Gravity.calculateGravity gc (Gravity.x p) (Gravity.y p) mx my 3.0
                   (Gravity.gravitationalConstant gc * Gravity.mouseGravityMultiplier gc) in
     let r := Gravity.mouseBlend gc true mx my p acc in
     (d < Gravity.mouseRadius gc ->
        0 < w <= 1 /\
        r = (fst acc * (1 - w * 0.7) + fst pull * w,
             snd acc * (1 - w * 0.7) + snd pull * w)) /\
     (Gravity.x p = mx -> Gravity.y p = my ->
        w = 1 /\ r = (fst acc * 0.3, snd acc * 0.3)) /\
     (Gravity.mouseRadius gc <= d -> r = acc)) /\
  (forall mx my p acc, Gravity.mouseBlend gc false mx my p acc = acc).
Proof.
  intros fc gc.
  assert (HF : 0 < FlowField.vortexRadius fc) by (simpl; lra).
  assert (HG : 0 < Gravity.mouseRadius gc) by (simpl; lra).
  split; [|split; [reflexivity|split; [|reflexivity]]].
  - intros mx my p v d w vortex r.
    pose proof (flow_influence_range fc (FlowField.x p) (FlowField.y p) mx my HF) as Hw.
    change (0 <= w <= 1) in Hw.
    split; [|split; [exact Hw|split; [|split]]].
    + subst r. unfold FlowField.blendVelocity. fold vortex.
      change (FlowField.vortexInfluence fc (FlowField.x p) (FlowField.y p) mx my) with w.
      destruct vortex. reflexivity.
    + intros Hd.
      assert (Hq : d / FlowField.vortexRadius fc < 1).
      { apply Rmult_lt_reg_r with (FlowField.vortexRadius fc); [exact HF|].
        unfold Rdiv. rewrite Rmult_assoc, Rinv_l by lra. lra. }
      assert (E : w = 1 - d / FlowField.vortexRadius fc)
        by (subst w; apply Rmax_right; lra).
      split; [exact E|lra].
    + intros Ex Ey. subst mx my.
      destruct (flow_blend_at_pointer fc p v HF) as [Hi Hv].
      split; [exact Hi|exact Hv].
    + intros Hd. apply (flow_blend_outside fc mx my p v HF Hd).
  - intros mx my p acc d w pull r.
    destruct (gravity_blend_value gc mx my p acc HG) as [Hin Hout].
    split; [exact Hin|split].
    + intros Ex Ey. subst mx my. split.
      * subst w d. rewrite dist_self_zero. unfold Rdiv. rewrite Rmult_0_l. ring.
      * apply gravity_blend_at_pointer, HG.
    + intros Hd. apply Hout. fold d. lra.
Qed.

Lemma pointer_force_blends_witness :
  let gc := Gravity.config false false in
  let p := Gravity.mkParticle 0.4 0.5 0 0 1 [] 0 in
  let d := sqrt ((0.5 - Gravity.x p) * (0.5 - Gravity.x p)
                 + (0.5 - Gravity.y p) * (0.5 - Gravity.y p)) in
  let w := 1 - d / Gravity.mouseRadius gc in
  let pull := Gravity.calculateGravity gc (Gravity.x p) (Gravity.y p) 0.5 0.5 3.0
                (Gravity.gravitationalConstant gc * Gravity.mouseGravityMultiplier gc) in
  d < Gravity.mouseRadius gc /\
  Gravity.mouseBlend gc true 0.5 0.5 p (0.001, 0.002)
    = (0.001 * (1 - w * 0.7) + fst pull * w, 0.002 * (1 - w * 0.7) + snd pull * w).
Proof.
  intros gc p d w pull.
  assert (Hd : d = 0.1).
  { subst d p. simpl. replace (0.5 - 0.5) with 0 by lra.
    replace (0.5 - 0.4) with 0.1 by lra. apply sqrt_sq_sum_zero_r. lra. }
  assert (Hr : d < Gravity.mouseRadius gc) by (rewrite Hd; simpl; lra).
  split; [exact Hr|].
  exact (proj2 (proj1 (proj1 (proj2 (proj2 (pointer_force_blends false false)))
                         0.5 0.5 p (0.001, 0.002)) Hr)).
Defined.

(** ** Perspective pick *)

Lemma div_some (a b : R) : b <> 0 -> JS.div a b = Some (a / b).
Proof. intros H. unfold JS.div. destruct (Req_dec_T b 0); [contradiction|reflexivity]. Qed.

Lemma div_none (a : R) : JS.div a 0 = None.
Proof. unfold JS.div. destruct (Req_dec_T 0 0); [reflexivity|contradiction]. Qed.

Lemma rem1_eq (x : R) : JS.rem x 1 = x - IZR (JS.trunc x).
Proof. unfold JS.rem. replace (x / 1) with x by field. ring. Qed.

Lemma rem1_bounds (x : R) :
  -1 < JS.rem x 1 < 1 /\ (0 <= x -> 0 <= JS.rem x 1) /\ (x <= 0 -> JS.rem x 1 <= 0).
Proof.
  rewrite rem1_eq. unfold JS.trunc.
  destruct (Rle_dec 0 x) as [H|H].
  - pose proof (Zfloor_bound x).
    assert (0 <= IZR (Zfloor x)) by (apply IZR_le, (Zfloor_lub 0); simpl; lra).
    repeat split; intros; lra.
  - pose proof (Zceil_bound x). repeat split; intros; lra.
Qed.

(** [((x % 1) + 1) % 1] lands in the unit interval, 1 excluded. *)
Lemma wrap01_range (x : R) : 0 <= JS.wrap01 x < 1.
Proof.
  unfold JS.wrap01.
  destruct (rem1_bounds x) as [H _].
  destruct (rem1_bounds (JS.rem x 1 + 1)) as (H1 & H2 & _).
  split; [apply H2|]; lra.
Qed.

(** On a number already in the unit interval the wrap is the identity. *)
Lemma wrap01_id (x : R) : 0 <= x < 1 -> JS.wrap01 x = x.
Proof.
  intros H. unfold JS.wrap01.
  assert (E : JS.rem x 1 = x).
  { rewrite rem1_eq. unfold JS.trunc. destruct (Rle_dec 0 x); [|lra].
    rewrite (Zfloor_eq 0 x); simpl; lra. }
  rewrite E, rem1_eq. unfold JS.trunc. destruct (Rle_dec 0 (x + 1)); [|lra].
  rewrite (Zfloor_eq 1 (x + 1)); simpl; lra.
Qed.

Lemma half_angle_in_range : 0 < 1.2 * 0.5 < PI / 2.
Proof. pose proof PI2_1. lra. Qed.

Lemma tan_half_fov_pos : 0 < tan (1.2 * 0.5).
Proof.
  destruct half_angle_in_range as [H1 H2]. apply tan_gt_0; assumption.
Qed.

Lemma focal_nonzero : 1 / tan (1.2 * 0.5) <> 0.
Proof.
  pose proof tan_half_fov_pos as H.
  assert (0 < 1 / tan (1.2 * 0.5)); [|lra].
  unfold Rdiv. rewrite Rmult_1_l. apply Rinv_0_lt_compat, H.
Qed.

Lemma focal_div : JS.div 1 (tan (1.2 * 0.5)) = Some (1 / tan (1.2 * 0.5)).
Proof. apply div_some. pose proof tan_half_fov_pos. lra. Qed.


Lemma pickRay_range tileW tileD camH pitch aspect nx ny :
  exists u v, pickRay tileW tileD camH pitch aspect nx ny = Some (u, v) /\
    0 <= u < 1 /\ 0 <= v < 1.
Proof.
  unfold pickRay. destruct (decide _).
  - exists 0.5, 0.5. split; [reflexivity|lra].
  - eexists _, _. split; [reflexivity|]. split; apply wrap01_range.
Qed.

Lemma screenToWorldTile_pick rect DPR pitch clientX clientY :
  width rect <> 0 -> height rect <> 0 ->
  Sea.screenToWorldTile rect DPR pitch clientX clientY =
    pickRay Sea.tileW Sea.tileD (80 * DPR) pitch (width rect / height rect)
      (- ((clientX - left rect) / width rect * 2 - 1))
      ((clientY - top rect) / height rect * 2 - 1).
Proof.
  intros Hw Hh. unfold Sea.screenToWorldTile, pickRay.
  rewrite (div_some _ _ Hw). obind. rewrite !(div_some _ _ Hh). obind.
  rewrite focal_div. obind. rewrite !(div_some _ _ focal_nonzero). obind.
  destruct (decide _) as [H|H]; [reflexivity|].
  rewrite div_some by lra. obind.
  rewrite div_some by (unfold Sea.tileW; lra). obind.
  rewrite div_some by (unfold Sea.tileD; lra). obind.
  reflexivity.
Qed.

Lemma screenToSeaTile_pick isMobile prm rect DPR clientX clientY :
  width rect <> 0 -> height rect <> 0 ->
  SkySea.screenToSeaTile (SkySea.config isMobile prm) (Some rect) DPR clientX clientY =
    pickRay SkySea.tileW SkySea.tileD (80 * DPR) SkySea.pitch (width rect / height rect)
      (- ((clientX - left rect) / width rect * 2 - 1))
      (((clientY - top rect) / height rect - SkySea.HORIZON_Y) / (1 - SkySea.HORIZON_Y) * 2 - 1).
Proof.
  intros Hw Hh. unfold SkySea.screenToSeaTile, pickRay.
  rewrite (div_some _ _ Hw). obind. rewrite !(div_some _ _ Hh). obind.
  cbn [SkySea.horizonY SkySea.config].
  rewrite (div_some _ (1 - SkySea.HORIZON_Y)) by (unfold SkySea.HORIZON_Y; lra). obind.
  rewrite focal_div. obind. rewrite !(div_some _ _ focal_nonzero). obind.
  destruct (decide _) as [H|H]; [reflexivity|].
  rewrite div_some by lra. obind.
  rewrite div_some by (unfold SkySea.tileW; lra). obind.
  rewrite div_some by (unfold SkySea.tileD; lra). obind.
  reflexivity.
Qed.

Lemma sea_rayY_value rect pitch clientY :
  height rect <> 0 ->
  Sea.rayY rect pitch clientY =
    Some (cos pitch * (- ((clientY - top rect) / height rect * 2 - 1) / (1 / tan (1.2 * 0.5)))
          - sin pitch * 1).
Proof.
  intros Hh. unfold Sea.rayY. rewrite (div_some _ _ Hh). obind.
  rewrite focal_div. obind. rewrite (div_some _ _ focal_nonzero). obind. reflexivity.
Qed.

Lemma skysea_rayY_value isMobile prm rect clientY :
  height rect <> 0 ->
  SkySea.rayY (SkySea.config isMobile prm) rect clientY =
    Some (cos SkySea.pitch
          * (- (((clientY - top rect) / height rect - SkySea.HORIZON_Y)
                / (1 - SkySea.HORIZON_Y) * 2 - 1) / (1 / tan (1.2 * 0.5)))
          - sin SkySea.pitch * 1).
Proof.
  intros Hh. unfold SkySea.rayY. rewrite (div_some _ _ Hh). obind.
  cbn [SkySea.horizonY SkySea.config].
  rewrite (div_some _ (1 - SkySea.HORIZON_Y)) by (unfold SkySea.HORIZON_Y; lra). obind.
  rewrite focal_div. obind. rewrite (div_some _ _ focal_nonzero). obind. reflexivity.
Qed.

Lemma pickRay_fallback tileW tileD camH pitch aspect nx ny :
  cos pitch * (- ny / (1 / tan (1.2 * 0.5))) - sin pitch * 1 >= 0 ->
  pickRay tileW tileD camH pitch aspect nx ny = Some (0.5, 0.5).
Proof. intros H. unfold pickRay. destruct (decide _); [reflexivity|contradiction]. Qed.

(** C9 as stated fails on a canvas whose rectangle has no height (a
    collapsed or hidden canvas): the divisions by [rect.height] leave the
    finite numbers, for every pointer position, so neither pick function
    returns a pair of numbers in [0, 1). *)
Lemma pick_not_finite_on_flat_canvas :
  let rect := mkRect 0 0 1600 0 in
  let cfg := SkySea.config false false in
  Sea.screenToWorldTile rect 1 0.15 800 10 = None /\
  ~ (exists u v, Sea.screenToWorldTile rect 1 0.15 800 10 = Some (u, v) /\
       0 <= u < 1 /\ 0 <= v < 1) /\
  SkySea.screenToSeaTile cfg (Some rect) 1 800 10 = None /\
  ~ (exists u v, SkySea.screenToSeaTile cfg (Some rect) 1 800 10 = Some (u, v) /\
       0 <= u < 1 /\ 0 <= v < 1).
Proof.
  intros rect cfg.
  assert (Hw : width rect <> 0) by (simpl; lra).
  assert (E1 : Sea.screenToWorldTile rect 1 0.15 800 10 = None).
  { unfold Sea.screenToWorldTile. rewrite (div_some _ _ Hw). obind.
    rewrite div_none by reflexivity. reflexivity. }
  assert (E2 : SkySea.screenToSeaTile cfg (Some rect) 1 800 10 = None).
  { unfold SkySea.screenToSeaTile. rewrite (div_some _ _ Hw). obind.
    rewrite div_none by reflexivity. reflexivity. }
  split; [exact E1|]. split; [rewrite E1; intros (u & v & E & _); discriminate|].
  split; [exact E2|]. rewrite E2. intros (u & v & E & _). discriminate.
Qed.

(** C9, amended.  On a canvas rectangle of non-zero width and height both
    pick functions return a pair [(u, v)] with [0 <= u < 1] and
    [0 <= v < 1], every division on the way having a non-zero divisor; and
    whenever the vertical component of the pitch-rotated pointer ray is not
    negative they return the domain centre [(0.5, 0.5)].  [screenToSeaTile]
    also returns the centre when the canvas reference is null. *)
Theorem unproject_fallback_and_range (rect : Rect) (DPR pitch clientX clientY : R)
    (isMobile prefersReducedMotion : bool)
    (Hw : width rect <> 0) (Hh : height rect <> 0) :
  let cfg := SkySea.config isMobile prefersReducedMotion in
  (exists u v, Sea.screenToWorldTile rect DPR pitch clientX clientY = Some (u, v) /\
     0 <= u < 1 /\ 0 <= v < 1) /\
  (exists dirY, Sea.rayY rect pitch clientY = Some dirY /\
     (dirY >= 0 -> Sea.screenToWorldTile rect DPR pitch clientX clientY = Some (0.5, 0.5))) /\
  (exists u v, SkySea.screenToSeaTile cfg (Some rect) DPR clientX clientY = Some (u, v) /\
     0 <= u < 1 /\ 0 <= v < 1) /\
  (exists dirY, SkySea.rayY cfg rect clientY = Some dirY /\
     (dirY >= 0 ->
      SkySea.screenToSeaTile cfg (Some rect) DPR clientX clientY = Some (0.5, 0.5))) /\
  SkySea.screenToSeaTile cfg None DPR clientX clientY = Some (0.5, 0.5).
Proof.
  intros cfg. subst cfg.
  rewrite screenToWorldTile_pick, screenToSeaTile_pick by assumption.
  rewrite sea_rayY_value, skysea_rayY_value by assumption.
  split; [apply pickRay_range|]. split.
  { eexists. split; [reflexivity|]. apply pickRay_fallback. }
  split; [apply pickRay_range|]. split; [|reflexivity].
  eexists. split; [reflexivity|]. apply pickRay_fallback.
Qed.

Lemma unproject_fallback_and_range_witness :
  let rect := mkRect 0 0 1600 900 in
  width rect <> 0 /\ height rect <> 0 /\
  (exists u v, Sea.screenToWorldTile rect 1 0.15 800 600 = Some (u, v) /\
     0 <= u < 1 /\ 0 <= v < 1).
Proof.
  intros rect.
  assert (Hw : width rect <> 0) by (simpl; lra).
  assert (Hh : height rect <> 0) by (simpl; lra).
  split; [exact Hw|]. split; [exact Hh|].
  exact (proj1 (unproject_fallback_and_range rect 1 0.15 800 600 false false Hw Hh)).
Defined.

(** ** Connectivity graph builder *)

Section ConnectivityFacts.

Context {Particle : Type}.
Variables posX posY fade : Particle -> R.
Variable connectionDistance : R.
Variable maxConnections : nat.
Variable particles : list Particle.

#[local] Abbreviation edge_ok := (edgeOk posX posY fade connectionDistance particles).
#[local] Abbreviation scan_neighbors :=
  (scanNeighbors Particle posX posY fade connectionDistance maxConnections particles).
#[local] Abbreviation scan_particles :=
  (scanParticles Particle posX posY fade connectionDistance maxConnections).
#[local] Abbreviation loopInv := (loopInvariant posX posY fade connectionDistance particles).

Lemma loopInv_push connections seen i j alpha :
  loopInv connections seen -> (i, j) ∉ seen -> edge_ok (mkConnection i j alpha) ->
  loopInv (connections ++ [mkConnection i j alpha]) ({[ (i, j) ]} ∪ seen).
Proof.
  intros (Hok & Hseen & Hnd) Hfresh He. split; [|split].
  - apply Forall_app. split; [assumption|]. constructor; [assumption|constructor].
  - intros c Hc. apply elem_of_app in Hc as [Hc|Hc].
    + apply elem_of_union_r, Hseen, Hc.
    + apply list_elem_of_singleton in Hc. subst c.
      apply elem_of_union_l, elem_of_singleton. reflexivity.
  - rewrite fmap_app. apply NoDup_app. split; [assumption|]. split.
    + intros pr Hpr Hin. apply list_elem_of_singleton in Hin.
      apply list_elem_of_fmap in Hpr as (c & Ec & Hc).
      apply Hfresh. change (i, j) with (connPair (mkConnection i j alpha)).
      rewrite <- Hin, Ec. apply Hseen, Hc.
    + apply NoDup_singleton.
Qed.

Lemma loopInv_seen connections seen pr :
  loopInv connections seen -> loopInv connections ({[ pr ]} ∪ seen).
Proof.
  intros (Hok & Hseen & Hnd). split; [assumption|]. split; [|assumption].
  intros c Hc. apply elem_of_union_r, Hseen, Hc.
Qed.

(** The inner loop never fails on valid indices, keeps the loop state, and
    stops at the cap. *)
Lemma scanNeighbors_inv i p neighbors : forall connections seen,
  particles !! i = Some p ->
  Forall (fun j => (j < length particles)%nat) neighbors ->
  loopInv connections seen -> (length connections < maxConnections)%nat ->
  exists connections' seen',
    scan_neighbors i p neighbors connections seen = Some (connections', seen') /\
    loopInv connections' seen' /\ (length connections' <= maxConnections)%nat /\
    seen ⊆ seen' /\
    (forall c, c ∈ connections' -> c ∈ connections \/ conn_i c = i).
Proof.
  induction neighbors as [|j rest IH]; intros connections seen Hp Hn Hinv Hlen.
  - exists connections, seen. simpl. repeat split; try apply Hinv; try lia; auto.
  - apply Forall_cons in Hn as [Hj Hrest]. simpl.
    destruct (j <=? i)%nat eqn:Eji; [apply IH; assumption|].
    apply Nat.leb_gt in Eji.
    destruct (decide ((i, j) ∈ seen)) as [Hs|Hs]; [apply IH; assumption|].
    destruct (lookup_lt_is_Some_2 particles j Hj) as [q Hq]. rewrite Hq.
    destruct (Rlt_dec _ _) as [Hd|Hd].
    + set (c := mkConnection i j _).
      assert (Hc : edge_ok c).
      { split; [exact Eji|]. exists p, q. simpl. auto. }
      pose proof (loopInv_push connections seen i j _ Hinv Hs Hc) as Hinv'.
      fold c in Hinv'.
      destruct (maxConnections <=? length (connections ++ [c]))%nat eqn:Ecap.
      * exists (connections ++ [c]), ({[ (i, j) ]} ∪ seen).
        split; [reflexivity|]. split; [exact Hinv'|].
        rewrite length_app in *. simpl in *.
        split; [lia|]. split; [set_solver|].
        intros c' Hc'. apply elem_of_app in Hc' as [Hc'|Hc']; [left; assumption|].
        apply list_elem_of_singleton in Hc'. subst c'. right. reflexivity.
      * apply Nat.leb_gt in Ecap.
        destruct (IH (connections ++ [c]) ({[ (i, j) ]} ∪ seen) Hp Hrest Hinv' Ecap)
          as (cs & sn & E & Hi & Hl & Hsub & Hnew).
        exists cs, sn. split; [exact E|]. split; [exact Hi|]. split; [exact Hl|].
        split; [set_solver|].
        intros c' Hc'. apply Hnew in Hc' as [Hc'|Hc']; [|right; assumption].
        apply elem_of_app in Hc' as [Hc'|Hc']; [left; assumption|].
        apply list_elem_of_singleton in Hc'. subst c'. right. reflexivity.
    + destruct (IH connections ({[ (i, j) ]} ∪ seen) Hp Hrest
                  (loopInv_seen _ _ _ Hinv) Hlen) as (cs & sn & E & Hi & Hl & Hsub & Hnew).
      exists cs, sn. split; [exact E|]. split; [exact Hi|]. split; [exact Hl|].
      split; [set_solver|exact Hnew].
Qed.

(** Every index the rebuilt hash returns is the index of a particle. *)
Lemma rebuilt_neighbors_valid h x y j :
  j ∈ SpatialHash.getPotentialNeighbors (rebuildHash Particle posX posY h particles) x y ->
  (j < length particles)%nat.
Proof.
  intros H. apply getPotentialNeighbors_spec in H as (dx & dy & _ & _ & H).
  unfold rebuildHash in H. apply insertAll_only in H as [H|(px & py & H)].
  - simpl in H. rewrite lookup_empty in H. inversion H.
  - apply elem_of_lookup_imap in H as (i & p & E & Hp).
    injection E as -> _ _. eapply lookup_lt_Some, Hp.
Qed.

Lemma scanParticles_inv h todo : forall connections seen,
  (forall x y j, j ∈ SpatialHash.getPotentialNeighbors h x y -> (j < length particles)%nat) ->
  Forall (fun i => (i < length particles)%nat) todo ->
  loopInv connections seen -> (length connections < maxConnections)%nat ->
  exists connections',
    scan_particles h particles todo connections seen = Some connections' /\
    Forall edge_ok connections' /\ (length connections' <= maxConnections)%nat /\
    NoDup (connPair <$> connections').
Proof.
  induction todo as [|i rest IH]; intros connections seen Hh Htodo Hinv Hlen.
  - exists connections. simpl. destruct Hinv as (H1 & _ & H3). repeat split; auto; lia.
  - apply Forall_cons in Htodo as [Hi Hrest]. simpl.
    destruct (lookup_lt_is_Some_2 particles i Hi) as [p Hp]. rewrite Hp.
    destruct (scanNeighbors_inv i p
                (SpatialHash.getPotentialNeighbors h (posX p) (posY p)) connections seen)
      as (cs & sn & E & Hinv' & Hl & _ & _); try assumption.
    { apply Forall_forall. intros j Hj. eapply Hh, Hj. }
    rewrite E.
    destruct (maxConnections <=? length cs)%nat eqn:Ecap.
    + exists cs. destruct Hinv' as (H1 & _ & H3). repeat split; auto.
    + apply Nat.leb_gt in Ecap. apply IH; auto.
Qed.

(** One frame of the builder: it returns a list, every connection of which
    is well formed, no pair twice, at most [maxConnections] of them. *)
Lemma findConnections_ok h :
  (1 <= maxConnections)%nat ->
  exists connections,
    findConnections Particle posX posY fade connectionDistance maxConnections h particles
      = Some connections /\
    Forall edge_ok connections /\ (length connections <= maxConnections)%nat /\
    NoDup (connPair <$> connections).
Proof.
  intros Hmax. unfold findConnections.
  apply scanParticles_inv.
  - intros x y j. apply rebuilt_neighbors_valid.
  - apply Forall_forall. intros i Hi. apply elem_of_seq in Hi. lia.
  - split; [constructor|]. split; [intros c Hc; inversion Hc|constructor].
  - simpl. lia.
Qed.

(** No self-loop, and never a pair together with its mirror image. *)
Lemma edges_ordered connections :
  Forall edge_ok connections ->
  (forall c, c ∈ connections -> conn_i c <> conn_j c) /\
  (forall c c', c ∈ connections -> c' ∈ connections ->
     ~ (conn_i c' = conn_j c /\ conn_j c' = conn_i c)).
Proof.
  intros H. rewrite Forall_forall in H. split.
  - intros c Hc. destruct (H c Hc) as [Hlt _]. lia.
  - intros c c' Hc Hc' [E1 E2].
    destruct (H c Hc) as [Hlt _]. destruct (H c' Hc') as [Hlt' _]. lia.
Qed.

Lemma findConnections_wellformed h :
  (1 <= maxConnections)%nat ->
  exists connections,
    findConnections Particle posX posY fade connectionDistance maxConnections h particles
      = Some connections /\
    edgesWellFormed posX posY fade connectionDistance maxConnections particles connections.
Proof.
  intros Hmax. destruct (findConnections_ok h Hmax) as (cs & E & Hok & Hlen & Hnd).
  exists cs. split; [exact E|]. destruct (edges_ordered cs Hok) as [H1 H2].
  repeat split; assumption.
Qed.

End ConnectivityFacts.

(** C4.  In every frame of the constellation and of the sky scene the
    builder returns a connection list of at most [maxConnections] entries in
    which every connection [(i, j, alpha)] joins two particles [i < j] whose
    Euclidean distance is strictly below [connectionDistance], with
    [alpha = (1 - dist / connectionDistance) * min(pAlpha, qAlpha)] for the
    boundary fades of its endpoints; no connection is [(i, i)], no pair
    occurs together with its mirror image, and no pair occurs twice. *)
Theorem connectivity_edges_wellformed (isMobile prefersReducedMotion : bool)
    (h : SpatialHash.t) :
  (forall particles : list Constellation.Particle,
     let cfg := Constellation.config isMobile prefersReducedMotion in
     exists connections,
       Constellation.findConnections cfg h particles = Some connections /\
       edgesWellFormed Constellation.x Constellation.y Constellation.edgeAlpha
         (Constellation.connectionDistance cfg) (Constellation.maxConnections cfg)
         particles connections) /\
  (forall particles : list SkySea.SkyParticle,
     let cfg := SkySea.config isMobile prefersReducedMotion in
     exists connections,
       SkySea.findConnections cfg h particles = Some connections /\
       edgesWellFormed SkySea.x SkySea.y (SkySea.edgeAlpha cfg)
         (SkySea.connectionDistance cfg) (SkySea.maxConnections cfg)
         particles connections).
Proof.
  split; intros particles cfg.
  - apply findConnections_wellformed. destruct isMobile; simpl; lia.
  - apply findConnections_wellformed. destruct isMobile; simpl; lia.
Qed.

(** ** Connectivity graph builder: completeness below the cap *)

Section ConnectivityComplete.

Context {Particle : Type}.
Variables posX posY fade : Particle -> R.
Variable connectionDistance : R.
Variable maxConnections : nat.
Variable particles : list Particle.

#[local] Abbreviation scan_neighbors :=
  (scanNeighbors Particle posX posY fade connectionDistance maxConnections particles).
#[local] Abbreviation scan_particles :=
  (scanParticles Particle posX posY fade connectionDistance maxConnections).
#[local] Abbreviation covered := (seenCovered posX posY connectionDistance particles).

Lemma covered_push connections seen i j alpha :
  covered connections seen ->
  covered (connections ++ [mkConnection i j alpha]) ({[ (i, j) ]} ∪ seen).
Proof.
  intros H a b p q Hab Hp Hq Hd. rewrite fmap_app. apply elem_of_app.
  apply elem_of_union in Hab as [Hab|Hab].
  - right. apply elem_of_singleton in Hab. injection Hab as -> ->. left.
  - left. eapply H; eauto.
Qed.

Lemma covered_far connections seen i j p q :
  particles !! i = Some p -> particles !! j = Some q ->
  ~ distance Particle posX posY p q < connectionDistance ->
  covered connections seen -> covered connections ({[ (i, j) ]} ∪ seen).
Proof.
  intros Hp Hq Hfar H a b p' q' Hab Hp' Hq' Hd.
  apply elem_of_union in Hab as [Hab|Hab]; [|eapply H; eauto].
  apply elem_of_singleton in Hab. injection Hab as -> ->.
  rewrite Hp in Hp'. rewrite Hq in Hq'. injection Hp' as <-. injection Hq' as <-.
  contradiction.
Qed.

(** A run of the inner loop that ends below the cap has recorded every
    neighbour [j > i], with its connection if the two are close. *)
Lemma scanNeighbors_complete i p neighbors : forall connections seen cs sn,
  scan_neighbors i p neighbors connections seen = Some (cs, sn) ->
  particles !! i = Some p -> (length cs < maxConnections)%nat ->
  covered connections seen ->
  covered cs sn /\ seen ⊆ sn /\
  (forall j, j ∈ neighbors -> (i < j)%nat -> (i, j) ∈ sn).
Proof.
  induction neighbors as [|j rest IH]; intros connections seen cs sn E Hp Hlen Hcov.
  - simpl in E. injection E as <- <-. split; [assumption|]. split; [reflexivity|].
    intros j Hj. inversion Hj.
  - simpl in E. destruct (j <=? i)%nat eqn:Eji.
    { apply Nat.leb_le in Eji.
      destruct (IH _ _ _ _ E Hp Hlen Hcov) as (H1 & H2 & H3).
      split; [assumption|]. split; [assumption|].
      intros j' Hj' Hlt. apply elem_of_cons in Hj' as [->|Hj']; [lia|auto]. }
    apply Nat.leb_gt in Eji.
    destruct (decide ((i, j) ∈ seen)) as [Hs|Hs].
    { destruct (IH _ _ _ _ E Hp Hlen Hcov) as (H1 & H2 & H3).
      split; [assumption|]. split; [assumption|].
      intros j' Hj' Hlt. apply elem_of_cons in Hj' as [->|Hj']; [apply H2, Hs|auto]. }
    destruct (particles !! j) as [q|] eqn:Hq; [|discriminate].
    destruct (Rlt_dec _ _) as [Hd|Hd].
    + destruct (maxConnections <=? _)%nat eqn:Ecap.
      { injection E as <- <-. apply Nat.leb_le in Ecap. lia. }
      destruct (IH _ _ _ _ E Hp Hlen (covered_push _ _ i j _ Hcov)) as (H1 & H2 & H3).
      split; [assumption|]. split; [intros x Hx; apply H2, elem_of_union_r, Hx|].
      intros j' Hj' Hlt. apply elem_of_cons in Hj' as [->|Hj']; [|auto].
      apply H2, elem_of_union_l, elem_of_singleton. reflexivity.
    + destruct (IH _ _ _ _ E Hp Hlen (covered_far _ _ i j p q Hp Hq Hd Hcov))
        as (H1 & H2 & H3).
      split; [assumption|]. split; [intros x Hx; apply H2, elem_of_union_r, Hx|].
      intros j' Hj' Hlt. apply elem_of_cons in Hj' as [->|Hj']; [|auto].
      apply H2, elem_of_union_l, elem_of_singleton. reflexivity.
Qed.

(** The list only grows along the inner loop. *)
Lemma scanNeighbors_grows i p neighbors : forall connections seen cs sn,
  scan_neighbors i p neighbors connections seen = Some (cs, sn) ->
  (length connections <= length cs)%nat.
Proof.
  induction neighbors as [|j rest IH]; intros connections seen cs sn E.
  - simpl in E. injection E as <- <-. lia.
  - simpl in E. destruct (j <=? i)%nat; [eauto|].
    destruct (decide _); [eauto|].
    destruct (particles !! j); [|discriminate].
    destruct (Rlt_dec _ _); [|eauto].
    destruct (maxConnections <=? _)%nat.
    + injection E as <- <-. rewrite length_app. simpl. lia.
    + apply IH in E. rewrite length_app in E. simpl in E. lia.
Qed.

Lemma scanParticles_complete h todo : forall connections seen cs,
  scan_particles h particles todo connections seen = Some cs ->
  (length cs < maxConnections)%nat ->
  covered connections seen ->
  exists sn, covered cs sn /\ seen ⊆ sn /\
    (forall i p j, i ∈ todo -> particles !! i = Some p ->
       j ∈ SpatialHash.getPotentialNeighbors h (posX p) (posY p) -> (i < j)%nat ->
       (i, j) ∈ sn).
Proof.
  induction todo as [|i rest IH]; intros connections seen cs E Hlen Hcov.
  - simpl in E. injection E as <-. exists seen. split; [assumption|]. split; [reflexivity|].
    intros i p j Hi. inversion Hi.
  - simpl in E. destruct (particles !! i) as [p|] eqn:Hp; [|discriminate].
    destruct (scan_neighbors i p _ connections seen) as [[cs1 sn1]|] eqn:E1; [|discriminate].
    destruct (maxConnections <=? length cs1)%nat eqn:Ecap.
    { injection E as <-. apply Nat.leb_le in Ecap. lia. }
    apply Nat.leb_gt in Ecap.
    destruct (scanNeighbors_complete _ _ _ _ _ _ _ E1 Hp Ecap Hcov) as (H1 & H2 & H3).
    destruct (IH _ _ _ E Hlen H1) as (sn & G1 & G2 & G3).
    exists sn. split; [assumption|]. split; [etransitivity; eassumption|].
    intros i' p' j Hi' Hp' Hj Hlt. apply elem_of_cons in Hi' as [->|Hi'].
    + rewrite Hp in Hp'. injection Hp' as <-. apply G2, H3; assumption.
    + eapply G3; eauto.
Qed.

(** When the frame ends below the cap, every pair of particles closer than
    the threshold is connected. *)
Lemma findConnections_complete h cs i j p q :
  SpatialHash.cellSize h = connectionDistance ->
  findConnections Particle posX posY fade connectionDistance maxConnections h particles
    = Some cs ->
  (length cs < maxConnections)%nat ->
  (i < j)%nat -> particles !! i = Some p -> particles !! j = Some q ->
  distance Particle posX posY p q < connectionDistance ->
  exists c, c ∈ cs /\ conn_i c = i /\ conn_j c = j.
Proof.
  intros Hcell E Hlen Hij Hp Hq Hd. unfold findConnections in E.
  destruct (scanParticles_complete _ _ _ _ _ E Hlen) as (sn & Hcov & _ & Hall).
  { intros a b p' q' Hab. apply elem_of_empty in Hab. contradiction. }
  assert (Hseen : (i, j) ∈ sn).
  { apply (Hall i p j); try assumption.
    - apply elem_of_seq. apply lookup_lt_Some in Hp. lia.
    - unfold rebuildHash. apply near_index_returned with (x := posX q) (y := posY q).
      + apply (elem_of_lookup_imap_2 (fun i p => (i, posX p, posY p)) particles q j Hq).
      + rewrite Hcell. exact Hd. }
  specialize (Hcov i j p q Hseen Hp Hq Hd).
  apply list_elem_of_fmap in Hcov as (c & Ec & Hc).
  exists c. split; [exact Hc|]. unfold connPair in Ec. injection Ec as -> ->. auto.
Qed.

End ConnectivityComplete.

(** ** Connections of the constellation scene *)

Lemma smoothstep_range (e0 e1 x : R) : 0 <= JS.smoothstep e0 e1 x <= 1.
Proof.
  unfold JS.smoothstep. set (t := Rmax 0 (Rmin 1 _)).
  assert (Ht : 0 <= t <= 1).
  { subst t. split; [apply Rmax_l|]. apply Rmax_lub; [lra|apply Rmin_l]. }
  assert (H0 : 0 <= t * t) by nra.
  assert (H1 : 0 <= (1 - t) * (1 - t) * (1 + 2 * t)) by (apply Rmult_le_pos; nra).
  split; [apply Rmult_le_pos; lra|].
  replace (t * t * (3 - 2 * t)) with (1 - (1 - t) * (1 - t) * (1 + 2 * t)) by ring. lra.
Qed.

(** Below the lower edge the fade is 0, above the upper edge it is 1. *)
Lemma smoothstep_ends (e0 e1 x : R) :
  e0 < e1 ->
  (x <= e0 -> JS.smoothstep e0 e1 x = 0) /\ (e1 <= x -> JS.smoothstep e0 e1 x = 1).
Proof.
  intros He. unfold JS.smoothstep. split; intros Hx.
  - assert (E : (x - e0) / (e1 - e0) <= 0).
    { apply Rmult_le_reg_r with (e1 - e0); [lra|].
      unfold Rdiv. rewrite Rmult_assoc, Rinv_l by lra. lra. }
    rewrite Rmin_right by lra. rewrite Rmax_left by lra. ring.
  - assert (E : 1 <= (x - e0) / (e1 - e0)).
    { apply Rmult_le_reg_r with (e1 - e0); [lra|].
      unfold Rdiv. rewrite Rmult_assoc, Rinv_l by lra. lra. }
    rewrite Rmin_left by lra. rewrite Rmax_right by lra. ring.
Qed.

Lemma edge_alpha_range {Particle : Type} (posX posY fade : Particle -> R)
    (cd : R) (particles : list Particle) (c : Connection) :
  (forall p, 0 <= fade p <= 1) ->
  edgeOk posX posY fade cd particles c -> 0 <= conn_alpha c <= 1.
Proof.
  intros Hf (_ & p & q & _ & _ & Hd & ->).
  set (d := distance Particle posX posY p q) in *.
  assert (0 <= d) by apply sqrt_pos.
  assert (0 <= d / cd < 1).
  { split.
    - apply Rmult_le_pos; [assumption|]. left. apply Rinv_0_lt_compat. lra.
    - apply Rmult_lt_reg_r with cd; [lra|].
      unfold Rdiv. rewrite Rmult_assoc, Rinv_l by lra. lra. }
  pose proof (Hf p). pose proof (Hf q).
  assert (0 <= Rmin (fade p) (fade q) <= 1).
  { split; [apply Rmin_glb; lra|]. etransitivity; [apply Rmin_l|lra]. }
  split; nra.
Qed.

(** The pairs of a well-formed connection list are pairs of indices, each
    at most once: there are at most [n * n] of them. *)
Lemma connections_count_bound {Particle : Type} (posX posY fade : Particle -> R)
    (cd : R) (particles : list Particle) (cs : list Connection) :
  Forall (edgeOk posX posY fade cd particles) cs -> NoDup (connPair <$> cs) ->
  (length cs <= length particles * length particles)%nat.
Proof.
  intros Hok Hnd.
  set (n := length particles).
  assert (Hsub : connPair <$> cs ⊆+ list_prod (seq 0 n) (seq 0 n)).
  { apply NoDup_submseteq; [exact Hnd|].
    intros [a b] Hab. apply list_elem_of_fmap in Hab as (c & Ec & Hc).
    rewrite Forall_forall in Hok. destruct (Hok c Hc) as (_ & p & q & Hp & Hq & _).
    unfold connPair in Ec. injection Ec as -> ->.
    apply list_elem_of_In, in_prod; apply in_seq;
      [apply lookup_lt_Some in Hp|apply lookup_lt_Some in Hq]; subst n; lia. }
  apply submseteq_length in Hsub.
  rewrite length_fmap, length_prod, !length_seq in Hsub. exact Hsub.
Qed.

Lemma constellation_fade_range p : 0 <= Constellation.edgeAlpha p <= 1.
Proof. apply smoothstep_range. Qed.

Lemma lineData_total particles cs :
  Forall (fun c => (conn_i c < length particles)%nat /\ (conn_j c < length particles)%nat) cs ->
  exists lines, Constellation.lineData particles cs = Some lines /\
    length lines = (6 * length cs)%nat.
Proof.
  intros Hv. induction cs as [|c cs IH].
  - exists []. auto.
  - apply Forall_cons in Hv as [[Hi Hj] Hv]. destruct (IH Hv) as (tl & E & Hl).
    destruct (lookup_lt_is_Some_2 particles _ Hi) as [p Hp].
    destruct (lookup_lt_is_Some_2 particles _ Hj) as [q Hq].
    eexists. simpl. rewrite Hp. obind. rewrite Hq. obind. rewrite E. obind.
    split; [reflexivity|]. simpl. rewrite Hl. lia.
Qed.

Lemma edgeOk_indices {Particle : Type} (posX posY fade : Particle -> R)
    (cd : R) (particles : list Particle) (cs : list Connection) :
  Forall (edgeOk posX posY fade cd particles) cs ->
  Forall (fun c => (conn_i c < length particles)%nat /\ (conn_j c < length particles)%nat) cs.
Proof.
  intros H. eapply Forall_impl; [exact H|].
  intros c (_ & p & q & Hp & Hq & _).
  apply lookup_lt_Some in Hp. apply lookup_lt_Some in Hq. auto.
Qed.

Lemma constellation_max_positive isMobile prm :
  (1 <= Constellation.maxConnections (Constellation.config isMobile prm))%nat.
Proof. destruct isMobile; simpl; lia. Qed.

(** X5.  Constellation scene, index built with the connection distance as
    cell size: when a frame ends with fewer than [maxConnections]
    connections, every two particles [i < j] closer than the connection
    distance are joined by a connection. *)
Theorem close_pairs_are_connected (isMobile prefersReducedMotion : bool)
    (h : SpatialHash.t) (particles : list Constellation.Particle)
    (cs : list Connection) (i j : nat) (p q : Constellation.Particle)
    (Hcell : SpatialHash.cellSize h
             = Constellation.connectionDistance
                 (Constellation.config isMobile prefersReducedMotion))
    (Hrun : Constellation.findConnections
              (Constellation.config isMobile prefersReducedMotion) h particles = Some cs)
    (Hcap : (length cs
             < Constellation.maxConnections
                 (Constellation.config isMobile prefersReducedMotion))%nat)
    (Hij : (i < j)%nat)
    (Hp : particles !! i = Some p) (Hq : particles !! j = Some q)
    (Hd : distance Constellation.Particle Constellation.x Constellation.y p q
          < Constellation.connectionDistance
              (Constellation.config isMobile prefersReducedMotion)) :
  exists c, c ∈ cs /\ conn_i c = i /\ conn_j c = j.
Proof.
  eapply findConnections_complete; eauto.
Qed.

(** Two particles 0.05 apart, on the desktop configuration. *)
Lemma two_close_particles :
  let cfg := Constellation.config false false in
  let p := Constellation.mkParticle 0.5 0.5 0 0 0 0 0.5 0.5 in
  let q := Constellation.mkParticle 0.55 0.5 0 0 0 0 0.55 0.5 in
  let h := SpatialHash.new (Constellation.connectionDistance cfg) in
  distance Constellation.Particle Constellation.x Constellation.y p q
    < Constellation.connectionDistance cfg /\
  exists cs, Constellation.findConnections cfg h [p; q] = Some cs /\
    (length cs < Constellation.maxConnections cfg)%nat.
Proof.
  intros cfg p q h. split.
  - unfold distance. simpl.
    replace (0.55 - 0.5) with 0.05 by lra. replace (0.5 - 0.5) with 0 by lra.
    rewrite sqrt_sq_sum_zero_r; lra.
  - destruct (findConnections_ok Constellation.x Constellation.y Constellation.edgeAlpha
                (Constellation.connectionDistance cfg) (Constellation.maxConnections cfg)
                [p; q] h (constellation_max_positive false false))
      as (cs & E & Hok & _ & Hnd).
    exists cs. split; [exact E|].
    pose proof (connections_count_bound _ _ _ _ _ _ Hok Hnd) as Hb.
    simpl in Hb. simpl. lia.
Qed.

Lemma close_pairs_are_connected_witness :
  let cfg := Constellation.config false false in
  let p := Constellation.mkParticle 0.5 0.5 0 0 0 0 0.5 0.5 in
  let q := Constellation.mkParticle 0.55 0.5 0 0 0 0 0.55 0.5 in
  let h := SpatialHash.new (Constellation.connectionDistance cfg) in
  exists cs,
    SpatialHash.cellSize h = Constellation.connectionDistance cfg /\
    Constellation.findConnections cfg h [p; q] = Some cs /\
    (length cs < Constellation.maxConnections cfg)%nat /\
    (0 < 1)%nat /\ [p; q] !! 0%nat = Some p /\ [p; q] !! 1%nat = Some q /\
    distance Constellation.Particle Constellation.x Constellation.y p q
      < Constellation.connectionDistance cfg /\
    exists c, c ∈ cs /\ conn_i c = 0%nat /\ conn_j c = 1%nat.
Proof.
  intros cfg p q h.
  destruct two_close_particles as (Hd & cs & Hrun & Hcap).
  exists cs.
  split; [reflexivity|]. split; [exact Hrun|]. split; [exact Hcap|].
  split; [lia|]. split; [reflexivity|]. split; [reflexivity|]. split; [exact Hd|].
  exact (close_pairs_are_connected false false h [p; q] cs 0 1 p q
           eq_refl Hrun Hcap (Nat.lt_0_succ 0) eq_refl eq_refl Hd).
Defined.

(** X6.  The alpha of every connection of a frame lies in [0, 1], in the
    constellation and in the sky scene. *)
Theorem connection_alpha_in_unit_interval (isMobile prefersReducedMotion : bool)
    (h : SpatialHash.t) :
  (forall particles : list Constellation.Particle,
     exists cs,
       Constellation.findConnections
         (Constellation.config isMobile prefersReducedMotion) h particles = Some cs /\
       Forall (fun c => 0 <= conn_alpha c <= 1) cs) /\
  (forall particles : list SkySea.SkyParticle,
     exists cs,
       SkySea.findConnections
         (SkySea.config isMobile prefersReducedMotion) h particles = Some cs /\
       Forall (fun c => 0 <= conn_alpha c <= 1) cs).
Proof.
  split; intros particles.
  - destruct (findConnections_ok Constellation.x Constellation.y Constellation.edgeAlpha
                (Constellation.connectionDistance
                   (Constellation.config isMobile prefersReducedMotion))
                (Constellation.maxConnections
                   (Constellation.config isMobile prefersReducedMotion))
                particles h (constellation_max_positive _ _)) as (cs & E & Hok & _).
    exists cs. split; [exact E|]. eapply Forall_impl; [exact Hok|].
    intros c. apply edge_alpha_range. intros p. apply smoothstep_range.
  - destruct (findConnections_ok SkySea.x SkySea.y
                (SkySea.edgeAlpha (SkySea.config isMobile prefersReducedMotion))
                (SkySea.connectionDistance (SkySea.config isMobile prefersReducedMotion))
                (SkySea.maxConnections (SkySea.config isMobile prefersReducedMotion))
                particles h) as (cs & E & Hok & _).
    { destruct isMobile; simpl; lia. }
    exists cs. split; [exact E|]. eapply Forall_impl; [exact Hok|].
    intros c. apply edge_alpha_range. intros p. apply smoothstep_range.
Qed.

Lemma constellation_update_count cfg ma mx my dt ps :
  length (map (Constellation.updateParticle cfg ma mx my dt) ps) = length ps.
Proof. apply List.length_map. Qed.

Lemma particleData_length ps :
  length (Constellation.particleData ps) = (3 * length ps)%nat.
Proof.
  unfold Constellation.particleData. induction ps as [|p ps IH]; [reflexivity|].
  simpl. rewrite IH. lia.
Qed.

(** X7.  A frame of the constellation scene never fails: it keeps the number
    of particles, leaves every particle inside the wrap margin, writes three
    floats per particle, and writes two line vertices of three floats per
    connection, at most [2 * maxConnections] vertices, the capacity of the
    line buffer. *)
Theorem constellation_frame_total (isMobile prefersReducedMotion : bool)
    (now : R) (st : Constellation.State) :
  let cfg := Constellation.config isMobile prefersReducedMotion in
  exists st' bufs,
    Constellation.frame cfg now st = Some (st', bufs) /\
    length (Constellation.particles st') = length (Constellation.particles st) /\
    Forall (fun p => -0.05 <= Constellation.x p <= 1.05 /\ -0.05 <= Constellation.y p <= 1.05)
      (Constellation.particles st') /\
    length (Constellation.particleBuffer bufs)
      = (3 * length (Constellation.particles st))%nat /\
    (Constellation.lineVertexCount bufs <= 2 * Constellation.maxConnections cfg)%nat /\
    length (Constellation.lineBuffer bufs) = (3 * Constellation.lineVertexCount bufs)%nat /\
    Constellation.lastTime st' = now.
Proof.
  intros cfg. unfold Constellation.frame.
  set (dt := Rmin _ _). set (mx := _ + _ * 0.08). set (my := _ + _ * 0.08).
  set (ps := map _ (Constellation.particles st)).
  set (h := rebuildHash _ _ _ _ ps).
  destruct (findConnections_ok Constellation.x Constellation.y Constellation.edgeAlpha
              (Constellation.connectionDistance cfg) (Constellation.maxConnections cfg)
              ps (Constellation.spatialHash st) (constellation_max_positive _ _))
    as (cs & E & Hok & Hlen & _).
  unfold findConnections in E. fold h in E. rewrite E. obind.
  destruct (lineData_total ps cs (edgeOk_indices _ _ _ _ _ _ Hok)) as (lines & El & Hl).
  rewrite El. obind.
  eexists _, _. split; [reflexivity|]. cbn [Constellation.particles Constellation.particleBuffer
    Constellation.lineBuffer Constellation.lineVertexCount Constellation.lastTime].
  split; [apply constellation_update_count|].
  split.
  { subst ps. apply Forall_forall. intros p' Hp'.
    apply list_elem_of_In, in_map_iff in Hp' as (p & <- & _).
    destruct (constellation_update_position cfg (Constellation.mouseActive st) mx my dt p)
      as [Epos _].
    pose proof (constellation_wrap_range
                  (Constellation.x p
                   + fst (Constellation.updateVelocity cfg (Constellation.mouseActive st) mx my p)
                     * dt * 60)
                  (Constellation.y p
                   + snd (Constellation.updateVelocity cfg (Constellation.mouseActive st) mx my p)
                     * dt * 60)) as Hw.
    rewrite <- Epos in Hw. unfold Constellation.EDGE_MARGIN in Hw. simpl in Hw. lra. }
  split; [rewrite particleData_length; subst ps; rewrite constellation_update_count; reflexivity|].
  split; [lia|]. split; [lia|reflexivity].
Qed.

(** ** Pointer gravity of the constellation scene *)

Lemma ratio_unit (a c : R) : 0 <= a -> a < c -> 0 <= a / c < 1.
Proof.
  intros Ha Hc. split.
  - apply Rmult_le_pos; [assumption|]. left. apply Rinv_0_lt_compat. lra.
  - apply Rmult_lt_reg_r with c; [lra|].
    unfold Rdiv. rewrite Rmult_assoc, Rinv_l by lra. lra.
Qed.

(** A radial vector [k * (dx, dy) / d] has length [|k|] and the sign of [k]
    along [(dx, dy)]. *)
Lemma radial_vector (dx dy k : R) :
  let d := sqrt (dx * dx + dy * dy) in
  0 < d ->
  (dx / d * k) * (dx / d * k) + (dy / d * k) * (dy / d * k) = k * k /\
  (dx / d * k) * dx + (dy / d * k) * dy = k * d.
Proof.
  intros d Hd. pose proof (sqrt_sum_sq dx dy) as Hs. fold d in Hs.
  split.
  - replace (dx / d * k * (dx / d * k) + dy / d * k * (dy / d * k))
      with ((dx * dx + dy * dy) / (d * d) * (k * k)) by (field; lra).
    rewrite <- Hs. field. lra.
  - replace (dx / d * k * dx + dy / d * k * dy)
      with ((dx * dx + dy * dy) / d * k) by (field; lra).
    rewrite <- Hs. field. lra.
Qed.

Lemma sqrt_le_of_sq (a b : R) : 0 <= b -> a <= b * b -> sqrt a <= b.
Proof.
  intros Hb H. destruct (Rle_dec 0 a) as [Ha|Ha].
  - rewrite <- (sqrt_square b Hb). apply sqrt_le_1_alt. exact H.
  - rewrite sqrt_neg_0 by lra. exact Hb.
Qed.


(** ** Softened gravity of the gravity scene *)



(** ** Trails and pulses of the gravity scene *)

Lemma removelast_length {A} (l : list A) : length (removelast l) = Nat.pred (length l).
Proof.
  induction l as [|a [|b l] IH]; [reflexivity|reflexivity|].
  change (removelast (a :: b :: l)) with (a :: removelast (b :: l)).
  simpl length in *. rewrite IH. reflexivity.
Qed.

Lemma pushTrail_length cfg pos trail :
  (length trail <= Gravity.trailLength cfg)%nat ->
  (length (Gravity.pushTrail cfg pos trail) <= Gravity.trailLength cfg)%nat.
Proof.
  intros H. unfold Gravity.pushTrail.
  destruct (Gravity.trailLength cfg <? length (pos :: trail))%nat eqn:E.
  - rewrite removelast_length. simpl. lia.
  - apply Nat.ltb_ge in E. exact E.
Qed.

Lemma pushTrail_head cfg pos trail :
  (1 <= Gravity.trailLength cfg)%nat ->
  Gravity.pushTrail cfg pos trail !! 0%nat = Some pos.
Proof.
  intros H. unfold Gravity.pushTrail.
  destruct (Gravity.trailLength cfg <? length (pos :: trail))%nat eqn:E; [|reflexivity].
  apply Nat.ltb_lt in E. destruct trail as [|b trail]; [simpl in E; lia|reflexivity].
Qed.

Lemma gravity_update_trail cfg atts pulses ma mx my now dt p :
  let p' := Gravity.updateParticle cfg atts pulses ma mx my now dt p in
  Gravity.trail p' = Gravity.pushTrail cfg (Gravity.x p', Gravity.y p') (Gravity.trail p).
Proof.
  unfold Gravity.updateParticle.
  destruct (Gravity.acceleration _ _ _ _ _ _ _ _) as [accX accY].
  destruct (Gravity.wrapEdges _ _) as [x' y']. reflexivity.
Qed.

(** X10.  The trail of a particle never outgrows [trailLength]: a particle
    whose trail has at most [trailLength] points still has at most that many
    after a frame, and the first point of the trail is its new position. *)
Theorem trail_stays_bounded (isMobile prefersReducedMotion : bool)
    (atts : list Gravity.Attractor) (pulses : list Gravity.Pulse)
    (mouseActive : bool) (mouseX mouseY now dt : R) (p : Gravity.Particle)
    (Hlen : (length (Gravity.trail p)
             <= Gravity.trailLength (Gravity.config isMobile prefersReducedMotion))%nat) :
  let cfg := Gravity.config isMobile prefersReducedMotion in
  let p' := Gravity.updateParticle cfg atts pulses mouseActive mouseX mouseY now dt p in
  (length (Gravity.trail p') <= Gravity.trailLength cfg)%nat /\
  Gravity.trail p' !! 0%nat = Some (Gravity.x p', Gravity.y p') /\
  (length (Gravity.trail p) <= length (Gravity.trail p'))%nat.
Proof.
  intros cfg p'. subst p'. rewrite gravity_update_trail.
  split; [apply pushTrail_length, Hlen|].
  split; [apply pushTrail_head; destruct prefersReducedMotion; simpl; lia|].
  unfold Gravity.pushTrail.
  destruct (_ <? _)%nat; [rewrite removelast_length|]; simpl; lia.
Qed.

Lemma trail_stays_bounded_witness :
  let cfg := Gravity.config false false in
  let p := Gravity.mkParticle 0.4 0.5 0 0 1 [(0.4, 0.5)] 0 in
  let p' := Gravity.updateParticle cfg [] [] false 0.5 0.5 1 0.016 p in
  (length (Gravity.trail p) <= Gravity.trailLength cfg)%nat /\
  (length (Gravity.trail p') <= Gravity.trailLength cfg)%nat.
Proof.
  intros cfg p p'.
  assert (H : (length (Gravity.trail p) <= Gravity.trailLength cfg)%nat) by (simpl; lia).
  split; [exact H|].
  exact (proj1 (trail_stays_bounded false false [] [] false 0.5 0.5 1 0.016 p H)).
Defined.

(** Which pulses survive the clean-up. *)
Lemma cleanPulses_elem cfg now pulses pulse :
  pulse ∈ Gravity.cleanPulses cfg now pulses <->
  pulse ∈ pulses /\ now - Gravity.startTime pulse <= Gravity.pulseDuration cfg.
Proof.
  unfold Gravity.cleanPulses. induction pulses as [|a pulses IH]; simpl.
  - split; [intros H; inversion H|intros [H _]; inversion H].
  - destruct (decide _) as [Hold|Hlive].
    + rewrite IH. split.
      * intros [H1 H2]. split; [right; assumption|assumption].
      * intros [H1 H2]. apply elem_of_cons in H1 as [->|H1]; [lra|auto].
    + rewrite !elem_of_cons, IH. split.
      * intros [->|[H1 H2]]; [split; [left; reflexivity|lra]|split; [right|]; assumption].
      * intros [[->|H1] H2]; [left; reflexivity|right; auto].
Qed.

(** X11.  A pulse that survives the clean-up of a frame and was started in
    the past never pulls: the push it adds to a particle has a non-negative
    component along the direction from the pulse origin to the particle and
    a length of at most [pulseStrength]. *)
Theorem pulse_pushes_outward (isMobile prefersReducedMotion : bool) (now : R)
    (pulses : list Gravity.Pulse) (pulse : Gravity.Pulse) (p : Gravity.Particle)
    (acc : R * R)
    (Hlive : pulse ∈ Gravity.cleanPulses (Gravity.config isMobile prefersReducedMotion)
                        now pulses)
    (Hpast : Gravity.startTime pulse <= now) :
  let cfg := Gravity.config isMobile prefersReducedMotion in
  let acc' := Gravity.pulsePush cfg now p acc pulse in
  let dx := Gravity.x p - Gravity.pulseX pulse in
  let dy := Gravity.y p - Gravity.pulseY pulse in
  let ex := fst acc' - fst acc in
  let ey := snd acc' - snd acc in
  0 <= ex * dx + ey * dy /\ sqrt (ex * ex + ey * ey) <= Gravity.pulseStrength cfg.
Proof.
  intros cfg acc' dx dy ex ey.
  apply cleanPulses_elem in Hlive as [_ Hage].
  change (now - Gravity.startTime pulse <= 0.8) in Hage.
  assert (HS : Gravity.pulseStrength cfg = 0.008) by reflexivity.
  assert (HD : Gravity.pulseDuration cfg = 0.8) by reflexivity.
  assert (Hzero : forall a b : R, 0 <= (a - a) * dx + (b - b) * dy /\
            sqrt ((a - a) * (a - a) + (b - b) * (b - b)) <= Gravity.pulseStrength cfg).
  { intros a b. rewrite dist_self_zero, HS. split; [|lra].
    replace ((a - a) * dx + (b - b) * dy) with 0 by ring. lra. }
  subst ex ey acc'. unfold Gravity.pulsePush. fold dx dy.
  set (d := sqrt (dx * dx + dy * dy)).
  set (progress := (now - Gravity.startTime pulse) / Gravity.pulseDuration cfg).
  assert (Hprog : 0 <= progress <= 1).
  { subst progress. rewrite HD in *. split.
    - apply Rmult_le_pos; [lra|]. left. apply Rinv_0_lt_compat. lra.
    - apply Rmult_le_reg_r with 0.8; [lra|].
      unfold Rdiv. rewrite Rmult_assoc, Rinv_l by lra. lra. }
  destruct (decide (Rabs (d - progress * 0.3) < 0.08)) as [Hring|Hring]; [|apply Hzero].
  destruct (decide (d > 0.001)) as [Hd|Hd]; [|apply Hzero].
  set (k := (1 - progress) * (1 - Rabs (d - progress * 0.3) / 0.08) * Gravity.pulseStrength cfg).
  assert (Hq : 0 <= Rabs (d - progress * 0.3) / 0.08 < 1)
    by (apply ratio_unit; [apply Rabs_pos|assumption]).
  assert (Hk : 0 <= k <= Gravity.pulseStrength cfg).
  { subst k. rewrite HS. split; [apply Rmult_le_pos; [apply Rmult_le_pos|]; lra|].
    assert (0 <= (1 - progress) * (1 - Rabs (d - progress * 0.3) / 0.08) <= 1)
      by (split; nra). nra. }
  assert (Hd0 : 0 < d) by lra.
  destruct (radial_vector dx dy k Hd0) as [Hlen Hdot]. fold d in Hlen, Hdot.
  cbn [fst snd].
  replace (fst acc + dx / d * k - fst acc) with (dx / d * k) by ring.
  replace (snd acc + dy / d * k - snd acc) with (dy / d * k) by ring.
  rewrite Hlen, Hdot. split; [nra|]. apply sqrt_le_of_sq; nra.
Qed.

Lemma pulse_pushes_outward_witness :
  let cfg := Gravity.config false false in
  let pulse := Gravity.mkPulse 0.5 0.5 1 in
  let p := Gravity.mkParticle 0.6 0.5 0 0 1 [] 0 in
  let acc' := Gravity.pulsePush cfg 1.4 p (0, 0) pulse in
  pulse ∈ Gravity.cleanPulses cfg 1.4 [pulse] /\ Gravity.startTime pulse <= 1.4 /\
  sqrt ((fst acc' - 0) * (fst acc' - 0) + (snd acc' - 0) * (snd acc' - 0))
    <= Gravity.pulseStrength cfg.
Proof.
  intros cfg pulse p acc'.
  assert (H1 : pulse ∈ Gravity.cleanPulses cfg 1.4 [pulse]).
  { apply cleanPulses_elem. split; [left|simpl; lra]. }
  assert (H2 : Gravity.startTime pulse <= 1.4) by (simpl; lra).
  split; [exact H1|]. split; [exact H2|].
  exact (proj2 (pulse_pushes_outward false false 1.4 [pulse] pulse p (0, 0) H1 H2)).
Defined.

(** ** Flow field *)

(** X12.  The flow vector is a unit vector at every position and time, so a
    particle outside the pointer's reach moves at exactly
    [flowSpeed * speed] per frame unit. *)
Theorem flow_vector_is_unit (isMobile prefersReducedMotion : bool)
    (mouseX mouseY x y time : R) (p : FlowField.Particle) :
  let cfg := FlowField.config isMobile prefersReducedMotion in
  exists fx fy,
    FlowField.getFlowVector cfg x y time = Some (fx, fy) /\
    fx * fx + fy * fy = 1 /\
    let v := (fx * FlowField.flowSpeed cfg * FlowField.speed p,
              fy * FlowField.flowSpeed cfg * FlowField.speed p) in
    FlowField.blendVelocity cfg false mouseX mouseY p v = v /\
    sqrt (fst v * fst v + snd v * snd v)
      = FlowField.flowSpeed cfg * Rabs (FlowField.speed p).
Proof.
  intros cfg.
  destruct (flow_getFlowVector_total cfg x y time) as (n & _ & E).
  eexists _, _. split; [exact E|].
  set (a := n * PI * 2).
  assert (Hu : cos a * cos a + sin a * sin a = 1).
  { pose proof (sin2_cos2 a) as H. unfold Rsqr in H. lra. }
  split; [exact Hu|]. split; [reflexivity|]. cbn [fst snd].
  set (k := FlowField.flowSpeed cfg).
  assert (Hk : 0 <= k) by (subst k; destruct prefersReducedMotion; simpl; lra).
  replace (cos a * k * FlowField.speed p * (cos a * k * FlowField.speed p)
           + sin a * k * FlowField.speed p * (sin a * k * FlowField.speed p))
    with ((cos a * cos a + sin a * sin a) * ((k * FlowField.speed p) * (k * FlowField.speed p)))
    by ring.
  rewrite Hu, Rmult_1_l.
  replace (k * FlowField.speed p * (k * FlowField.speed p))
    with (Rsqr (k * FlowField.speed p)) by reflexivity.
  rewrite sqrt_Rsqr_abs, Rabs_mult, (Rabs_right k) by lra. reflexivity.
Qed.



(** ** Round trip of the pointer pick *)

Lemma sin_cos_015 :
  0.1494 < sin 0.15 < 0.1495 /\ 0.9887 < cos 0.15 < 0.9888.
Proof.
  assert (Hpi : 3 < PI) by (pose proof PI2_3_2; lra).
  split.
  - destruct (sin_bound 0.15 0) as [Hl Hu]; [lra|lra|].
    unfold sin_approx, sin_term in Hl, Hu. simpl in Hl, Hu.
    lra.
  - destruct (cos_bound 0.15 0) as [Hl Hu]; [lra|lra|].
    unfold cos_approx, cos_term in Hl, Hu. simpl in Hl, Hu.
    lra.
Qed.

(** The pick of the screen point at which the shader draws the centre of the
    tile, as a function of the factor [k] by which the projected height is
    scaled on the way to the screen ([k = 2] with the divide by [w = 0.5],
    [k = 1] without). *)
Lemma pick_of_center (k v : R) :
  let s := sin 0.15 in
  let c := cos 0.15 in
  let y2 := 600 * s - 80 * c in
  let z2 := 80 * s + 600 * c - 50 in
  let d := k * y2 / z2 in
  c * d - s < 0 ->
  v = (50 + (s * d + c) * (- 80 / (c * d - s))) / 1200 ->
  0 <= v < 1 ->
  pickRay Sea.tileW Sea.tileD (80 * 1) 0.15 (1600 / 900) 0
    (- (k * (y2 * (1 / tan (1.2 * 0.5)) / z2))) = Some (0.5, v).
Proof.
  intros s c y2 z2 d Hneg Hv Hr.
  pose proof focal_nonzero as Hf. set (f := 1 / tan (1.2 * 0.5)) in *.
  destruct sin_cos_015 as [Hs Hc]. fold s in Hs. fold c in Hc.
  assert (Hz : z2 > 0) by (subst z2; lra).
  unfold pickRay. fold f s c.
  assert (Ed : - - (k * (y2 * f / z2)) / f = d) by (subst d; field; lra).
  rewrite Ed.
  destruct (decide (c * d - s * 1 >= 0)) as [H|H]; [lra|].
  f_equal. f_equal.
  - replace ((0 + 0 * (1600 / 900) / f * (- (80 * 1) / (c * d - s * 1))) / Sea.tileW + 0.5)
      with 0.5 by (unfold Sea.tileW; field; lra).
    apply wrap01_id. lra.
  - replace ((- -50.0 + (s * d + c * 1) * (- (80 * 1) / (c * d - s * 1))) / Sea.tileD) with v.
    + apply wrap01_id, Hr.
    + rewrite Hv. unfold Sea.tileD. replace (- -50.0) with 50 by lra. field. lra.
Qed.
Lemma projectGround_center :
  let s := sin 0.15 in
  let c := cos 0.15 in
  let y2 := 600 * s - 80 * c in
  let z2 := 80 * s + 600 * c - 50 in
  exists pz,
    projectGround (seaUniforms 1 (1600 / 900)) (0.5, 0.5)
      = (0, y2 * (1 / tan (1.2 * 0.5)) / z2, pz, 0.5).
Proof.
  intros s c y2 z2.
  destruct sin_cos_015 as [Hs Hc]. fold s in Hs. fold c in Hc.
  assert (Hz : z2 > 0.1) by (subst z2; lra).
  pose proof tan_half_fov_pos as Ht.
  unfold projectGround, seaUniforms, Sea.uniforms, Sea.projectWorld, Sea.rot2.
  cbn [Sea.uTileW Sea.uTileD Sea.uCamH Sea.uPitch Sea.uFov Sea.uAspect Sea.uZPush fst snd].
  replace (-0.15) with (Ropp 0.15) by lra. rewrite sin_neg, cos_neg. fold s c.
  replace (- s * (0 - 80.0 * 1) + c * (0.5 * Sea.tileD) + -50.0) with z2
    by (subst z2; unfold Sea.tileD; lra).
  replace (c * (0 - 80.0 * 1) - - s * (0.5 * Sea.tileD)) with y2
    by (subst y2; unfold Sea.tileD; lra).
  rewrite (Rmax_left z2 0.1) by lra.
  eexists. f_equal. f_equal. f_equal.
  unfold Sea.tileW. field. repeat split; lra.
Qed.

Lemma pick_from_client (py pz w : R) :
  let rect := mkRect 0 0 1600 900 in
  let client := Sea.toClient rect (0, py, pz, w) in
  w <> 0 ->
  Sea.screenToWorldTile rect 1 0.15 (fst client) (snd client)
    = pickRay Sea.tileW Sea.tileD (80 * 1) 0.15 (1600 / 900) 0 (- (/ w * py)).
Proof.
  intros rect client Hw. subst client. unfold Sea.toClient. cbn [fst snd].
  rewrite screenToWorldTile_pick by (simpl; lra).
  cbn [left top width height rect].
  f_equal; field; assumption.
Qed.

Lemma center_pick_value (k lo hi dlo dhi elo ehi glo ghi tlo thi : R) :
  let s := sin 0.15 in
  let c := cos 0.15 in
  let y2 := 600 * s - 80 * c in
  let z2 := 80 * s + 600 * c - 50 in
  let d := k * y2 / z2 in
  let v := (50 + (s * d + c) * (- 80 / (c * d - s))) / 1200 in
  0 < k -> 0 < dlo ->
  dlo * 555.24 <= k * 10.536 -> k * 10.604 <= dhi * 555.172 ->
  elo <= 0.9887 * dlo - 0.1495 -> 0.9888 * dhi - 0.1494 <= ehi -> ehi < 0 ->
  0 < glo <= 0.1494 * dlo + 0.9887 -> 0.1495 * dhi + 0.9888 <= ghi ->
  0 < tlo -> tlo * (- elo) <= 80 -> 80 <= thi * (- ehi) ->
  lo * 1200 <= 50 + glo * tlo -> 50 + ghi * thi <= hi * 1200 ->
  c * d - s < 0 /\ lo < v < hi.
Proof.
  intros s c y2 z2 d v Hk Hdlo Hd1 Hd2 He1 He2 He3 Hg1 Hg2 Ht0 Ht1 Ht2 Hv1 Hv2.
  destruct sin_cos_015 as [Hs Hc]. fold s in Hs. fold c in Hc.
  assert (Hy : 10.536 < y2 < 10.604) by (subst y2; lra).
  assert (Hz : 555.172 < z2 < 555.24) by (subst z2; lra).
  assert (Ed : d * z2 = k * y2) by (subst d; field; lra).
  assert (Hd : dlo < d < dhi) by (clear - Ed Hz Hy Hd1 Hd2 Hk Hdlo; split; nra).
  set (e := c * d - s) in *. set (g := s * d + c) in *.
  assert (He : elo < e < ehi) by (subst e; clear - Hd Hs Hc He1 He2 Hdlo; split; nra).
  assert (Hg : glo < g < ghi) by (subst g; clear - Hd Hs Hc Hg1 Hg2 Hdlo; split; nra).
  set (t := - 80 / e) in *.
  assert (Et : t * e = - 80) by (subst t; field; lra).
  assert (Htp : 0 < t).
  { destruct (Rlt_le_dec 0 t) as [Hp|Hn]; [exact Hp|].
    assert (0 <= t * e) by (clear - Hn He He3; nra). lra. }
  assert (Ht : tlo < t < thi).
  { clear - Et He He3 Ht0 Ht1 Ht2 Htp. split.
    - assert (t * (- e) < t * (- elo)) by nra.
      assert (tlo * (- elo) < t * (- elo)) by lra.
      apply Rmult_lt_reg_r with (- elo); lra.
    - assert (t * (- ehi) < t * (- e)) by nra.
      assert (t * (- ehi) < thi * (- ehi)) by lra.
      apply Rmult_lt_reg_r with (- ehi); lra. }
  split; [lra|].
  assert (Hgt : glo * tlo < g * t < ghi * thi)
    by (clear - Hg Ht Hg1 Ht0; split; nra).
  subst v. lra.
Qed.

(** C1 on the code.  The centre of the tile, a ground-plane point, is drawn
    by the shader at a screen point that [screenToWorldTile] picks back as
    the tile coordinate [(0.5, v)] with [0.63 < v < 0.64], not [0.5]; read
    without the divide by [w = 0.5] of [gl_Position] the pick still returns
    [0.54 < v < 0.55]. *)
Theorem round_trip_misses_tile_center :
  let rect := mkRect 0 0 1600 900 in
  (exists v, roundTrip rect 1 (0.5, 0.5) = Some (0.5, v) /\ 0.63 < v < 0.64) /\
  (exists v, roundTripNoDivide rect 1 (0.5, 0.5) = Some (0.5, v) /\ 0.54 < v < 0.55).
Proof.
  intros rect. destruct projectGround_center as [pz E]. split.
  - destruct (center_pick_value (/ 0.5) 0.63 0.64 0.0379 0.0383 (-0.1121) (-0.1115)
                0.9943 0.9946 713 718) as [Hneg Hv]; try lra.
    eexists. split; [|exact Hv].
    unfold roundTrip. cbn [width height rect]. rewrite E.
    rewrite pick_from_client by lra.
    apply pick_of_center; [exact Hneg|reflexivity|lra].
  - destruct (center_pick_value (/ 1) 0.54 0.55 0.0189 0.0192 (-0.1309) (-0.1304)
                0.9915 0.9917 611 614) as [Hneg Hv]; try lra.
    eexists. split; [|exact Hv].
    unfold roundTripNoDivide. cbn [width height rect]. rewrite E.
    rewrite pick_from_client by lra.
    apply pick_of_center; [exact Hneg|reflexivity|lra].
Qed.
